(** * pike-sre: structural regular expressions

    A shallow embedding of the command algebra ([commands.ts]), the fluent
    builder and lexer generator ([dsl.ts]), the glob matcher ([glob.ts]),
    the template substitutor ([template.ts]) and the pattern engine
    ([pattern.ts]), followed by the properties established about them.

    Strings are lists of 8-bit characters: the texts whose code units are
    all below 256, in which no surrogate pair occurs.  The
    regular-expression engine is the host's: it enters the development as
    a type class with a single matcher primitive, the attempt of a pattern
    at one position, and everything built on top of it ([exec] with its
    [lastIndex] cell, the global scan, [replace] and its replacement
    patterns) is written out as the language specification has it.  On
    these texts [exec] advances one position at a time with or without
    the [u] and [v] flags.  The scan of [findMatches] over the texts of
    the language at large, lists of 16-bit code units that a pattern with
    [u] or [v] reads as code points, is module [Utf16]; there it may not
    end. *)

From Stdlib Require Import Ascii String ZArith Lia DecimalString DecimalNat.
From stdpp Require Import base list strings gmap.

Set Warnings "-register-all".

Open Scope string_scope.
Open Scope list_scope.
Open Scope nat_scope.

(** ** Strings *)

Abbreviation str := (list ascii).

Definition lit (s : string) : str := list_ascii_of_string s.
Coercion lit : string >-> list.

Module Str.

(** [s.slice(a, b)] for non-negative [a] and [b]; empty when [b <= a]. *)
Definition slice {A} (l : list A) (a b : nat) : list A := take (b - a) (drop a l).

(** [s.split(c)] for a one-character separator: never the empty list. *)
Fixpoint split (sep : ascii) (s : str) : list str :=
  match s with
  | [] => [[]]
  | ch :: s' =>
      if Ascii.eqb ch sep then [] :: split sep s'
      else match split sep s' with
           | piece :: pieces => (ch :: piece) :: pieces
           | [] => [[ch]]
           end
  end.

(** [pieces.join(sep)]. *)
Fixpoint join (sep : str) (pieces : list str) : str :=
  match pieces with
  | [] => []
  | [piece] => piece
  | piece :: rest => piece ++ sep ++ join sep rest
  end.

(** The value stored under a key of an association list (first entry). *)
Fixpoint assoc {V} (key : str) (entries : list (str * V)) : option V :=
  match entries with
  | [] => None
  | (k, v) :: rest => if bool_decide (k = key) then Some v else assoc key rest
  end.

(** [s.includes(c)] for a single character. *)
Definition includes (ch : ascii) (s : str) : bool := existsb (Ascii.eqb ch) s.

(** [s.startsWith(p)]. *)
Fixpoint startsWith (p s : str) : bool :=
  match p, s with
  | [], _ => true
  | _ :: _, [] => false
  | a :: p', b :: s' => Ascii.eqb a b && startsWith p' s'
  end.

Definition eqb (a b : str) : bool := bool_decide (a = b).

Definition isDigit (ch : ascii) : bool :=
  let k := nat_of_ascii ch in (48 <=? k) && (k <=? 57).

Definition digitValue (ch : ascii) : nat := nat_of_ascii ch - 48.

(** [String(i)] for a non-negative integer. *)
Definition ofNat (i : nat) : str := lit (NilEmpty.string_of_uint (Nat.to_uint i)).

(** Python-style index resolution shared by [n] and [l]:
    [i < 0 ? Math.max(0, len + i) : Math.min(i, len)]. *)
Definition clampIndex (len : nat) (i : Z) : nat :=
  if (i <? 0)%Z then Z.to_nat (Z.max 0 (Z.of_nat len + i))
  else Z.to_nat (Z.min i (Z.of_nat len)).

End Str.

(** ** The host's regular expressions *)

(** What the matcher reports for an attempt at one position: the length of
    the match and the values of the capture groups 1, 2, ... ([None] for a
    group that did not participate), with the named groups when the
    pattern has some. *)
Record MatchState := {
  mlen : nat;
  mcaptures : list (option str);
  mnamed : option (list (str * option str))
}.

(** The host capability: [matchAt source flags text i] attempts the
    pattern at position [i] of [text] only.  [validSource] tells whether
    [new RegExp(source)] succeeds. *)
Class RegExpHost := {
  matchAt : str -> str -> str -> nat -> option MatchState;
  validSource : str -> bool
}.

(** The array returned by [exec]: [elements] is [[...match]], so that
    [elements !! 0] is the matched text [match[0]]. *)
Record ExecResult := {
  index : nat;
  matched : str;
  elements : list (option str);
  named : option (list (str * option str))
}.

(** A regular-expression object: its source and flags, and the store cell
    that holds its mutable [lastIndex]. *)
Record RegExp := {
  source : str;
  flags : str;
  cell : nat
}.

(** The [lastIndex] of every live regular-expression object; an object
    that was never executed has [lastIndex = 0]. *)
Abbreviation Store := (gmap nat nat).

Module Host.
Section WithHost.
Context `{RegExpHost}.

Definition isGlobal (fl : str) : bool := Str.includes "g" fl.
Definition isSticky (fl : str) : bool := Str.includes "y" fl.
Definition usesLastIndex (fl : str) : bool := isGlobal fl || isSticky fl.

(** The scan of [RegExpBuiltinExec]: try position [i], then [i + 1], ...
    up to the end of the text; a sticky pattern tries position [i] only.
    No position of a text of 8-bit characters is inside a surrogate pair,
    so the scan is the same with and without the [u] and [v] flags
    ([widen_builtinExec]). *)
Fixpoint scan (count : nat) (src fl text : str) (i : nat) : option (nat * MatchState) :=
  match count with
  | 0 => None
  | S count' =>
      match matchAt src fl text i with
      | Some ms => Some (i, ms)
      | None => if isSticky fl then None else scan count' src fl text (S i)
      end
  end.

(** [RegExpBuiltinExec]: the result and the new value of [lastIndex]. *)
Definition builtinExec (src fl text : str) (lastIndex : nat) : option ExecResult * nat :=
  let start := if usesLastIndex fl then lastIndex else 0 in
  let onFailure := if usesLastIndex fl then 0 else lastIndex in
  if length text <? start then (None, onFailure)
  else
    match scan (S (length text) - start) src fl text start with
    | None => (None, onFailure)
    | Some (i, ms) =>
        let m0 := Str.slice text i (i + mlen ms) in
        (Some {| index := i; matched := m0;
                 elements := Some m0 :: mcaptures ms; named := mnamed ms |},
         if usesLastIndex fl then i + mlen ms else lastIndex)
    end.

Definition lastIndexOf (σ : Store) (re : RegExp) : nat := default 0 (σ !! cell re).

(** [re.exec(text)] on a shared object. *)
Definition exec (re : RegExp) (text : str) (σ : Store) : option ExecResult * Store :=
  let '(r, li) := builtinExec (source re) (flags re) text (lastIndexOf σ re) in
  (r, if usesLastIndex (flags re) then <[cell re := li]> σ else σ).

(** [re.test(text)]. *)
Definition test (re : RegExp) (text : str) (σ : Store) : bool * Store :=
  let '(r, σ') := exec re text σ in (bool_decide (is_Some r), σ').

(** The loop shared by [findMatches] and by [replace] with a global
    pattern: a private object with the [g] flag, executed until it
    returns [null], stepping over empty matches.  [None] is fuel
    exhaustion. *)
Fixpoint execAllLoop (fuel : nat) (src fl text : str) (lastIndex : nat)
  : option (list ExecResult) :=
  match fuel with
  | 0 => None
  | S fuel' =>
      match builtinExec src fl text lastIndex with
      | (None, _) => Some []
      | (Some r, li) =>
          let li' := if length (matched r) =? 0 then S li else li in
          match execAllLoop fuel' src fl text li' with
          | Some rs => Some (r :: rs)
          | None => None
          end
      end
  end.

(** [pattern.flags.includes('g') ? pattern.flags : `${pattern.flags}g`]. *)
Definition withGlobal (fl : str) : str := if isGlobal fl then fl else fl ++ "g".

(** The scan by a fresh object [new RegExp(src, fl)], [fl] with [g]. *)
Definition execAll (src fl text : str) : list ExecResult :=
  default [] (execAllLoop (length text + 2) src fl text 0).

(** [GetSubstitution]: the expansion of a replacement string.  [inName]
    carries the group name being read after [$<]. *)
Fixpoint getSubstitution (matchedText text : str) (position : nat)
    (captures : list (option str)) (namedCaptures : option (list (str * option str)))
    (inName : option str) (tpl : str) : str :=
  let continue := getSubstitution matchedText text position captures namedCaptures in
  let capture k := default [] (mjoin (captures !! (k - 1))) in
  let valid k := (1 <=? k) && (k <=? length captures) in
  match inName with
  | Some name =>
      match tpl with
      | [] => []
      | ch :: rest =>
          if Ascii.eqb ch ">" then
            match namedCaptures with
            | Some table =>
                default [] (mjoin (Str.assoc name table)) ++ continue None rest
            | None => continue None rest
            end
          else continue (Some (name ++ [ch])) rest
      end
  | None =>
      match tpl with
      | [] => []
      | ch :: rest =>
          if negb (Ascii.eqb ch "$") then ch :: continue None rest
          else
            match rest with
            | [] => [ch]
            | ch1 :: rest1 =>
                if Ascii.eqb ch1 "$" then "$"%char :: continue None rest1
                else if Ascii.eqb ch1 "&" then matchedText ++ continue None rest1
                else if Ascii.eqb ch1 "`" then take position text ++ continue None rest1
                else if Ascii.eqb ch1 "'" then
                  drop (position + length matchedText) text ++ continue None rest1
                else if Str.isDigit ch1 then
                  let one := Str.digitValue ch1 in
                  match rest1 with
                  | ch2 :: rest2 =>
                      let two := 10 * one + Str.digitValue ch2 in
                      if Str.isDigit ch2 && (two <=? length captures) then
                        if valid two then capture two ++ continue None rest2
                        else ch :: ch1 :: ch2 :: continue None rest2
                      else if valid one then capture one ++ continue None rest1
                      else ch :: ch1 :: continue None rest1
                  | [] =>
                      if valid one then capture one else [ch; ch1]
                  end
                else if Ascii.eqb ch1 "<" then
                  match namedCaptures with
                  | Some _ =>
                      if Str.includes ">" rest1 then continue (Some []) rest1
                      else ch :: ch1 :: continue None rest1
                  | None => ch :: ch1 :: continue None rest1
                  end
                else ch :: continue None rest
            end
      end
  end.

(** The accumulation of [RegExp.prototype[Symbol.replace]] over the
    results of the scan, with a replacement function of the result. *)
Fixpoint replaceResults (text : str) (results : list ExecResult)
    (replacement : ExecResult -> str) (accumulated : str) (nextSourcePosition : nat) : str :=
  match results with
  | [] => accumulated ++ drop nextSourcePosition text
  | r :: rest =>
      let position := index r `min` length text in
      if nextSourcePosition <=? position then
        replaceResults text rest replacement
          (accumulated ++ Str.slice text nextSourcePosition position ++ replacement r)
          (position + length (matched r))
      else replaceResults text rest replacement accumulated nextSourcePosition
  end.

(** [text.replace(new RegExp(src, fl), replacement)] for flags with [g]
    and a replacement string. *)
Definition replaceAll (src fl : str) (replacement text : str) : str :=
  replaceResults text (execAll src fl text)
    (fun r => getSubstitution (matched r) text (index r `min` length text)
                (drop 1 (elements r)) (named r) None replacement)
    [] 0.


End WithHost.
End Host.

(** ** The command algebra ([commands.ts]) *)

Module Commands.

(** [Match] of [types.ts]. *)
Record Match := {
  text : str;
  start : nat;
  end_ : nat;
  groups : list (option str)
}.

(** A command maps a string to a string.  Commands that test a shared
    regular-expression object read and write its [lastIndex], so a
    command is a function of the store as well. *)
Definition Command := str -> Store -> str * Store.

Section WithHost.
Context `{RegExpHost}.

Definition findMatches (pattern : RegExp) (input : str) : list Match :=
  map (fun r => {| text := matched r; start := index r;
                   end_ := index r + length (matched r); groups := elements r |})
      (Host.execAll (source pattern) (Host.withGlobal (flags pattern)) input).

(** The [for] loop of [x]. *)
Fixpoint xLoop (cmd : Command) (input : str) (matches : list Match)
    (result : str) (lastEnd : nat) (σ : Store) : str * nat * Store :=
  match matches with
  | [] => (result, lastEnd, σ)
  | m :: rest =>
      let result1 := result ++ Str.slice input lastEnd (start m) in
      let '(out, σ1) := cmd (text m) σ in
      xLoop cmd input rest (result1 ++ out) (end_ m) σ1
  end.

Definition x (pattern : RegExp) (cmd : Command) : Command := fun input σ =>
  let matches := findMatches pattern input in
  if length matches =? 0 then (input, σ)
  else
    let '(result, lastEnd, σ1) := xLoop cmd input matches [] 0 σ in
    (result ++ drop lastEnd input, σ1).

(** The [for] loop of [y]. *)
Fixpoint yLoop (cmd : Command) (input : str) (matches : list Match)
    (result : str) (lastEnd : nat) (σ : Store) : str * nat * Store :=
  match matches with
  | [] => (result, lastEnd, σ)
  | m :: rest =>
      let '(result1, σ1) :=
        if lastEnd <? start m then
          let '(out, σ1) := cmd (Str.slice input lastEnd (start m)) σ in (result ++ out, σ1)
        else (result, σ) in
      yLoop cmd input rest (result1 ++ text m) (end_ m) σ1
  end.

Definition y (pattern : RegExp) (cmd : Command) : Command := fun input σ =>
  let matches := findMatches pattern input in
  if length matches =? 0 then cmd input σ
  else
    let '(result, lastEnd, σ1) := yLoop cmd input matches [] 0 σ in
    if lastEnd <? length input then
      let '(out, σ2) := cmd (drop lastEnd input) σ1 in (result ++ out, σ2)
    else (result, σ1).

Definition g (pattern : RegExp) (cmd : Command) : Command := fun input σ =>
  let '(found, σ1) := Host.test pattern input σ in
  if found then cmd input σ1 else (input, σ1).

Definition v (pattern : RegExp) (cmd : Command) : Command := fun input σ =>
  let '(found, σ1) := Host.test pattern input σ in
  if negb found then cmd input σ1 else (input, σ1).

Definition p : Command := fun input σ => (input, σ).

Definition d : Command := fun _ σ => ([], σ).

Definition c (replacement : str) : Command := fun _ σ => (replacement, σ).

Definition s (pattern : RegExp) (replacement : str) : Command := fun input σ =>
  (Host.replaceAll (source pattern) (Host.withGlobal (flags pattern)) replacement input, σ).

Definition n (start : Z) (end_ : option Z) (cmd : Command) : Command := fun input σ =>
  let len := length input in
  let startIdx := Str.clampIndex len start in
  let endIdx := match end_ with None => len | Some e => Str.clampIndex len e end in
  let before := Str.slice input 0 startIdx in
  let selected := Str.slice input startIdx endIdx in
  let after := drop endIdx input in
  let '(out, σ1) := cmd selected σ in
  (before ++ out ++ after, σ1).

Definition l (start : Z) (end_ : option Z) (cmd : Command) : Command := fun input σ =>
  let lines := Str.split "010" input in
  let len := length lines in
  let startIdx := Str.clampIndex len start in
  let endIdx := match end_ with None => len | Some e => Str.clampIndex len e end in
  let before := Str.slice lines 0 startIdx in
  let selected := Str.slice lines startIdx endIdx in
  let after := drop endIdx lines in
  let '(out, σ1) := cmd (Str.join ["010"%char] selected) σ in
  let transformedSelected := Str.split "010" out in
  (Str.join ["010"%char] (before ++ transformedSelected ++ after), σ1).

(** [commands.reduce((acc, cmd) => cmd(acc), input)]. *)
Fixpoint reduce (commands : list Command) (acc : str) (σ : Store) : str * Store :=
  match commands with
  | [] => (acc, σ)
  | cmd :: rest => let '(acc1, σ1) := cmd acc σ in reduce rest acc1 σ1
  end.

Definition pipe (commands : list Command) : Command := fun input σ =>
  reduce commands input σ.

Definition ifMatch (pattern : RegExp) (thenCmd elseCmd : Command) : Command := fun input σ =>
  let '(found, σ1) := Host.test pattern input σ in
  if found then thenCmd input σ1 else elseCmd input σ1.

(** [matches.map((m) => cmd(m.text))]. *)
Fixpoint mapCommand (cmd : Command) (matches : list Match) (σ : Store) : list str * Store :=
  match matches with
  | [] => ([], σ)
  | m :: rest =>
      let '(out, σ1) := cmd (text m) σ in
      let '(outs, σ2) := mapCommand cmd rest σ1 in
      (out :: outs, σ2)
  end.

Definition xAll (pattern : RegExp) (cmd : Command) (input : str) (σ : Store)
  : list str * Store :=
  mapCommand cmd (findMatches pattern input) σ.


End WithHost.
End Commands.

(** ** The scan over UTF-16 texts

    [findMatches], [x] and [y] on the texts of the language at large.  A
    pattern keeps its [u] or [v] flag in the private object of
    [findMatches]; with it [exec] starts at the character that holds
    [lastIndex], and the loop need not end: its functions take fuel. *)

Module Utf16.

(** A text of the language: a list of 16-bit code units. *)
Abbreviation wstr := (list N).

(** The code units [0xD800..0xDBFF] and [0xDC00..0xDFFF]. *)
Definition isLeadSurrogate (unit : N) : bool := ((55296 <=? unit) && (unit <=? 56319))%N.
Definition isTrailSurrogate (unit : N) : bool := ((56320 <=? unit) && (unit <=? 57343))%N.

(** What the matcher reports for an attempt at one character: the length
    of the match in code units and the capture groups. *)
Record WideState := {
  wlen : nat;
  wcaptures : list (option wstr);
  wnamed : option (list (str * option wstr))
}.

(** The host capability: [matchAt source flags text i] attempts the
    pattern at the character that starts at code unit [i] of [text]. *)
Class WideHost := {
  matchAt : str -> str -> wstr -> nat -> option WideState
}.

(** The array returned by [exec]. *)
Record WideResult := {
  windex : nat;
  wmatched : wstr;
  welements : list (option wstr);
  wgroups : option (list (str * option wstr))
}.

(** [Match] of [types.ts]. *)
Record Match := {
  text : wstr;
  start : nat;
  end_ : nat;
  groups : list (option wstr)
}.

(** A command; [None] when it does not return. *)
Definition Command := wstr -> Store -> option (wstr * Store).

Section WithHost.
Context `{WideHost}.

(** [flags] contains [u] or [v]: the text is read as code points. *)
Definition fullUnicode (fl : str) : bool := Str.includes "u" fl || Str.includes "v" fl.

(** A lead surrogate at [i] followed by a trail surrogate: one code
    point of two code units. *)
Definition pairAt (text : wstr) (i : nat) : bool :=
  match text !! i, text !! S i with
  | Some lead, Some trail => isLeadSurrogate lead && isTrailSurrogate trail
  | _, _ => false
  end.

(** The start of the character that holds code unit [i]: with [u] or
    [v], the second half of a surrogate pair belongs to the character
    that starts one code unit before. *)
Definition characterStart (fl : str) (text : wstr) (i : nat) : nat :=
  match i with
  | S j => if fullUnicode fl && pairAt text j then j else i
  | 0 => 0
  end.

(** [AdvanceStringIndex]: past one code unit, or past the code point
    that starts at [i] with [u] or [v]. *)
Definition advanceStringIndex (fl : str) (text : wstr) (i : nat) : nat :=
  if fullUnicode fl && pairAt text i then i + 2 else i + 1.

(** The loop of [RegExpBuiltinExec]: [null] when [lastIndex] is beyond
    the text; otherwise the matcher is tried at the character that holds
    [lastIndex], and on failure [lastIndex] advances.  [count] bounds the
    number of attempts: [lastIndex] grows at each of them, so
    [length text + 2] attempts reach the end of the text. *)
Fixpoint scan (count : nat) (src fl : str) (text : wstr) (lastIndex : nat)
  : option (nat * WideState) :=
  match count with
  | 0 => None
  | S count' =>
      if length text <? lastIndex then None
      else
        let inputIndex := characterStart fl text lastIndex in
        match matchAt src fl text inputIndex with
        | Some ms => Some (inputIndex, ms)
        | None =>
            if Host.isSticky fl then None
            else scan count' src fl text (advanceStringIndex fl text lastIndex)
        end
  end.

(** [RegExpBuiltinExec]: the result and the new value of [lastIndex],
    which is the end of the match.  The match starts at the character
    the matcher was tried at, which with [u] or [v] may begin one code
    unit before [lastIndex]. *)
Definition builtinExec (src fl : str) (text : wstr) (lastIndex : nat)
  : option WideResult * nat :=
  let start := if Host.usesLastIndex fl then lastIndex else 0 in
  let onFailure := if Host.usesLastIndex fl then 0 else lastIndex in
  match scan (length text + 2) src fl text start with
  | None => (None, onFailure)
  | Some (i, ms) =>
      let m0 := Str.slice text i (i + wlen ms) in
      (Some {| windex := i; wmatched := m0;
               welements := Some m0 :: wcaptures ms; wgroups := wnamed ms |},
       if Host.usesLastIndex fl then i + wlen ms else lastIndex)
  end.

(** The [while] loop of [findMatches]; [None] is fuel exhaustion. *)
Fixpoint execAllLoop (fuel : nat) (src fl : str) (text : wstr) (lastIndex : nat)
  : option (list WideResult) :=
  match fuel with
  | 0 => None
  | S fuel' =>
      match builtinExec src fl text lastIndex with
      | (None, _) => Some []
      | (Some r, li) =>
          let li' := if length (wmatched r) =? 0 then S li else li in
          rs ← execAllLoop fuel' src fl text li';
          Some (r :: rs)
      end
  end.

Definition findMatches (fuel : nat) (pattern : RegExp) (input : wstr) : option (list Match) :=
  results ← execAllLoop fuel (source pattern) (Host.withGlobal (flags pattern)) input 0;
  Some (map (fun r => {| text := wmatched r; start := windex r;
                         end_ := windex r + length (wmatched r); groups := welements r |})
            results).

(** The [for] loop of [x]. *)
Fixpoint xLoop (cmd : Command) (input : wstr) (matches : list Match)
    (result : wstr) (lastEnd : nat) (σ : Store) : option (wstr * nat * Store) :=
  match matches with
  | [] => Some (result, lastEnd, σ)
  | m :: rest =>
      let result1 := result ++ Str.slice input lastEnd (start m) in
      '(out, σ1) ← cmd (text m) σ;
      xLoop cmd input rest (result1 ++ out) (end_ m) σ1
  end.

Definition x (fuel : nat) (pattern : RegExp) (cmd : Command) : Command := fun input σ =>
  matches ← findMatches fuel pattern input;
  if length matches =? 0 then Some (input, σ)
  else
    '(result, lastEnd, σ1) ← xLoop cmd input matches [] 0 σ;
    Some (result ++ drop lastEnd input, σ1).

(** The [for] loop of [y]. *)
Fixpoint yLoop (cmd : Command) (input : wstr) (matches : list Match)
    (result : wstr) (lastEnd : nat) (σ : Store) : option (wstr * nat * Store) :=
  match matches with
  | [] => Some (result, lastEnd, σ)
  | m :: rest =>
      '(result1, σ1) ←
        (if lastEnd <? start m then
           '(out, σ1) ← cmd (Str.slice input lastEnd (start m)) σ; Some (result ++ out, σ1)
         else Some (result, σ));
      yLoop cmd input rest (result1 ++ text m) (end_ m) σ1
  end.

Definition y (fuel : nat) (pattern : RegExp) (cmd : Command) : Command := fun input σ =>
  matches ← findMatches fuel pattern input;
  if length matches =? 0 then cmd input σ
  else
    '(result, lastEnd, σ1) ← yLoop cmd input matches [] 0 σ;
    if lastEnd <? length input then
      '(out, σ2) ← cmd (drop lastEnd input) σ1; Some (result ++ out, σ2)
    else Some (result, σ1).

Definition p : Command := fun input σ => Some (input, σ).

End WithHost.
End Utf16.

(** ** The fluent builder and the lexer generator ([dsl.ts]) *)

Module Dsl.
Import Commands.

(** A [RegExp | string] argument. *)
Inductive Pattern :=
| PRegExp (re : RegExp)
| PString (src : str).

(** [new RegExp(src, fl)] for a pattern given as a string.  The objects
    built from strings by the builder are either handed to [findMatches]
    and [s], which copy them, or carry no [g] and no [y] flag: their
    [lastIndex] cell is never read. *)
Definition newRegExp (src fl : str) : RegExp := {| source := src; flags := fl; cell := 0 |}.

Definition toRegExp (fl : str) (pattern : Pattern) : RegExp :=
  match pattern with
  | PRegExp re => re
  | PString src => newRegExp src fl
  end.

(** The builder object: the recorded commands and the held input.  Each
    method of the class pushes onto [commands] and returns [this]; a chain
    of calls is the builder passed from one call to the next. *)
Record SRE := {
  commands : list Command;
  input : str
}.

Definition sre (input : str) : SRE := {| commands := []; input := input |}.

Definition push (this : SRE) (cmd : Command) : SRE :=
  {| commands := commands this ++ [cmd]; input := input this |}.

Inductive StructuralType := TypeX | TypeY.
Inductive RangeType := TypeN | TypeL.

Section WithHost.
Context `{RegExpHost}.

(** The [for] loop of [addStructural]; both branches of the source append
    the text before the match and then the match. *)
Fixpoint structuralLoop (type : StructuralType) (input : str) (matches : list Match)
    (result : str) (lastEnd : nat) : str * nat :=
  match matches with
  | [] => (result, lastEnd)
  | m :: rest =>
      let result1 :=
        match type with
        | TypeX => (result ++ Str.slice input lastEnd (start m)) ++ text m
        | TypeY => (result ++ Str.slice input lastEnd (start m)) ++ text m
        end in
      structuralLoop type input rest result1 (end_ m)
  end.

Definition addStructural (this : SRE) (type : StructuralType) (pattern : RegExp) : SRE :=
  push this (fun input σ =>
    let matches := findMatches pattern input in
    if length matches =? 0 then (match type with TypeX => input | TypeY => input end, σ)
    else
      let '(result, lastEnd) := structuralLoop type input matches [] 0 in
      (result ++ drop lastEnd input, σ)).

Definition addRange (this : SRE) (type : RangeType) (start : Z) (end_ : option Z) : SRE :=
  match type with
  | TypeN =>
      push this (fun input σ =>
        let len := length input in
        let s := Str.clampIndex len start in
        let e := match end_ with None => len | Some e => Str.clampIndex len e end in
        (Str.slice input s e, σ))
  | TypeL =>
      push this (fun input σ =>
        let lines := Str.split "010" input in
        let len := length lines in
        let s := Str.clampIndex len start in
        let e := match end_ with None => len | Some e => Str.clampIndex len e end in
        (Str.join ["010"%char] (Str.slice lines s e), σ))
  end.

Definition x (this : SRE) (pattern : Pattern) : SRE :=
  addStructural this TypeX (toRegExp "g" pattern).

Definition y (this : SRE) (pattern : Pattern) : SRE :=
  addStructural this TypeY (toRegExp "g" pattern).

Definition g (this : SRE) (pattern : Pattern) : SRE :=
  let re := toRegExp "" pattern in
  push this (fun input σ =>
    let '(found, σ1) := Host.test re input σ in ((if found then input else []), σ1)).

Definition v (this : SRE) (pattern : Pattern) : SRE :=
  let re := toRegExp "" pattern in
  push this (fun input σ =>
    let '(found, σ1) := Host.test re input σ in ((if negb found then input else []), σ1)).

Definition s (this : SRE) (pattern : Pattern) (replacement : str) : SRE :=
  push this (Commands.s (toRegExp "g" pattern) replacement).

Definition c (this : SRE) (replacement : str) : SRE := push this (Commands.c replacement).

Definition d (this : SRE) : SRE := push this Commands.d.

Definition p (this : SRE) : SRE := push this Commands.p.

Definition n (this : SRE) (start : Z) (end_ : option Z) : SRE := addRange this TypeN start end_.

Definition l (this : SRE) (start : Z) (end_ : option Z) : SRE := addRange this TypeL start end_.

Definition value (this : SRE) (σ : Store) : str * Store :=
  Commands.reduce (commands this) (input this) σ.

Definition apply (this : SRE) (cmd : Command) : SRE := push this cmd.

Definition matches (this : SRE) (pattern : Pattern) (σ : Store) : list str * Store :=
  let re := toRegExp "g" pattern in
  let '(current, σ1) := value this σ in
  (map text (findMatches re current), σ1).

Definition matchDetails (this : SRE) (pattern : Pattern) (σ : Store) : list Match * Store :=
  let re := toRegExp "g" pattern in
  let '(current, σ1) := value this σ in
  (findMatches re current, σ1).

Definition test (this : SRE) (pattern : Pattern) (σ : Store) : bool * Store :=
  let re := toRegExp "" pattern in
  let '(current, σ1) := value this σ in
  Host.test re current σ1.

End WithHost.

(** *** The lexer *)

Record TokenDef := {
  name : str;
  pattern : RegExp;
  skip : bool
}.

Record LexToken := {
  type : str;
  value_ : str;
  tgroups : list (option str);
  tstart : nat;
  tend : nat
}.

(** A token together with the definition that fired for it ([None] for
    an [ERROR] gap). *)
Abbreviation Event := (option TokenDef * LexToken)%type.

(** The [while] loop of [countGroups]: a backslash skips two characters;
    an opening parenthesis counts unless the next character is [?]. *)
Fixpoint countGroups (pattern : str) : nat :=
  match pattern with
  | [] => 0
  | ch :: rest =>
      if Ascii.eqb ch "\" then
        match rest with
        | [] => 0
        | _ :: rest' => countGroups rest'
        end
      else if Ascii.eqb ch "(" then
        (match rest with
         | next :: _ => if Ascii.eqb next "?" then 0 else 1
         | [] => 1
         end) + countGroups rest
      else countGroups rest
  end.

(** The first loop of [createLexer]. *)
Fixpoint groupOffsetsFrom (offset : nat) (defs : list TokenDef) : list nat :=
  match defs with
  | [] => []
  | def :: rest => offset :: groupOffsetsFrom (offset + (1 + countGroups (source (pattern def)))) rest
  end.

Definition groupOffsets (defs : list TokenDef) : list nat := groupOffsetsFrom 1 defs.

(** [defs.map((d) => `(${d.pattern.source})`).join('|')]. *)
Definition combinedSource (defs : list TokenDef) : str :=
  Str.join "|" (map (fun d => "(" ++ source (pattern d) ++ ")") defs).

(** The inner [for] loop: the first definition, in order, whose group
    index holds a defined value. *)
Fixpoint firstDefined (elems : list (option str)) (defs : list TokenDef) (offsets : list nat)
  : option TokenDef :=
  match defs, offsets with
  | def :: defs', groupIndex :: offsets' =>
      match mjoin (elems !! groupIndex) with
      | Some _ => Some def
      | None => firstDefined elems defs' offsets'
      end
  | _, _ => None
  end.

Section WithHost.
Context `{RegExpHost}.

Definition errorToken (value : str) (from to : nat) : LexToken :=
  {| type := "ERROR"; value_ := value; tgroups := []; tstart := from; tend := to |}.

Definition defToken (def : TokenDef) (m : ExecResult) : LexToken :=
  {| type := name def; value_ := matched m; tgroups := elements m;
     tstart := index m; tend := index m + length (matched m) |}.

(** The [while] loop of the lexer over the private [combined] object.
    [None] is fuel exhaustion. *)
Fixpoint lexLoop (fuel : nat) (defs : list TokenDef) (offsets : list nat) (combined : str)
    (input : str) (lastIndex lastEnd : nat) (tokens : list LexToken)
  : option (list LexToken * nat) :=
  match fuel with
  | 0 => None
  | S fuel' =>
      match Host.builtinExec combined "g" input lastIndex with
      | (None, _) => Some (tokens, lastEnd)
      | (Some m, li) =>
          let '(tokens1, lastEnd1) :=
            match firstDefined (elements m) defs offsets with
            | Some def =>
                let tokens0 :=
                  if lastEnd <? index m then
                    tokens ++ [errorToken (Str.slice input lastEnd (index m)) lastEnd (index m)]
                  else tokens in
                let tokens1 :=
                  if negb (skip def) then tokens0 ++ [defToken def m] else tokens0 in
                (tokens1, index m + length (matched m))
            | None => (tokens, lastEnd)
            end in
          let li' := if length (matched m) =? 0 then S li else li in
          lexLoop fuel' defs offsets combined input li' lastEnd1 tokens1
      end
  end.

(** The function returned by [createLexer defs].  The [combined] object
    is private to it and every complete run leaves its [lastIndex] at 0
    (the loop ends on a [null] result), so each run starts at 0. *)
Definition lexRun (defs : list TokenDef) (input : str) : option (list LexToken) :=
  match lexLoop (length input + 2) defs (groupOffsets defs) (combinedSource defs)
          input 0 0 [] with
  | Some (tokens, lastEnd) =>
      Some (if lastEnd <? length input then
              tokens ++ [errorToken (drop lastEnd input) lastEnd (length input)]
            else tokens)
  | None => None
  end.

Definition createLexer (defs : list TokenDef) (input : str) : list LexToken :=
  default [] (lexRun defs input).

(** *** The instrumented lexer

    The same loop, recording every token it accounts for together with
    the definition that fired ([None] for an [ERROR] gap), whether or not
    that definition is skip-marked.  It is the vocabulary in which the
    coverage of the input is stated. *)
Fixpoint traceLoop (fuel : nat) (defs : list TokenDef) (offsets : list nat) (combined : str)
    (input : str) (lastIndex lastEnd : nat) (events : list Event)
  : option (list Event * nat) :=
  match fuel with
  | 0 => None
  | S fuel' =>
      match Host.builtinExec combined "g" input lastIndex with
      | (None, _) => Some (events, lastEnd)
      | (Some m, li) =>
          let '(events1, lastEnd1) :=
            match firstDefined (elements m) defs offsets with
            | Some def =>
                let events0 :=
                  if lastEnd <? index m then
                    events ++ [(None, errorToken (Str.slice input lastEnd (index m))
                                        lastEnd (index m))]
                  else events in
                (events0 ++ [(Some def, defToken def m)], index m + length (matched m))
            | None => (events, lastEnd)
            end in
          let li' := if length (matched m) =? 0 then S li else li in
          traceLoop fuel' defs offsets combined input li' lastEnd1 events1
      end
  end.

Definition traceRun (defs : list TokenDef) (input : str) : option (list Event) :=
  match traceLoop (length input + 2) defs (groupOffsets defs) (combinedSource defs)
          input 0 0 [] with
  | Some (events, lastEnd) =>
      Some (if lastEnd <? length input then
              events ++ [(None, errorToken (drop lastEnd input) lastEnd (length input))]
            else events)
  | None => None
  end.

Definition lexTrace (defs : list TokenDef) (input : str) : list Event :=
  default [] (traceRun defs input).

End WithHost.

(** An event is emitted unless a skip-marked definition fired for it. *)
Definition emitted (e : Event) : bool :=
  match e.1 with
  | None => true
  | Some def => negb (skip def)
  end.

(** A definition with its skip flag cleared. *)
Definition unskip (def : TokenDef) : TokenDef :=
  {| name := name def; pattern := pattern def; skip := false |}.

(** An event with the skip flag of its definition cleared. *)
Definition retag (e : Event) : Event := (unskip <$> e.1, e.2).

(** Tokens that tile the span from [from] to [to] of the input: each
    starts where the previous one ends and carries the text it covers. *)
Fixpoint contiguous (input : str) (from to : nat) (tokens : list LexToken) : Prop :=
  match tokens with
  | [] => from = to
  | t :: rest =>
      tstart t = from /\ tstart t <= tend t /\ tend t <= length input
      /\ value_ t = Str.slice input (tstart t) (tend t)
      /\ contiguous input (tend t) to rest
  end.

End Dsl.

(** ** The utilities of [dsl.ts] *)

Module Utilities.
Import Dsl.

Inductive TokenType := TokenMatch | TokenBetween.

Record Token := {
  type : TokenType;
  text : str;
  groups : option (list (option str));
  start : nat;
  end_ : nat
}.

Section WithHost.
Context `{RegExpHost}.

Definition betweenToken (input : str) (from to : nat) : Token :=
  {| type := TokenBetween; text := Str.slice input from to; groups := None;
     start := from; end_ := to |}.

Definition matchToken (m : Commands.Match) : Token :=
  {| type := TokenMatch; text := Commands.text m; groups := Some (Commands.groups m);
     start := Commands.start m; end_ := Commands.end_ m |}.

(** The [for] loop of [tokenize]. *)
Fixpoint tokenizeLoop (input : str) (matches : list Commands.Match) (tokens : list Token)
    (lastEnd : nat) : list Token * nat :=
  match matches with
  | [] => (tokens, lastEnd)
  | m :: rest =>
      let tokens1 :=
        if lastEnd <? Commands.start m
        then tokens ++ [betweenToken input lastEnd (Commands.start m)]
        else tokens in
      tokenizeLoop input rest (tokens1 ++ [matchToken m]) (Commands.end_ m)
  end.

Definition tokenize (input : str) (pattern : Pattern) : list Token :=
  let re := toRegExp "g" pattern in
  let matches := Commands.findMatches re input in
  let '(tokens, lastEnd) := tokenizeLoop input matches [] 0 in
  if lastEnd <? length input
  then tokens ++ [{| type := TokenBetween; text := drop lastEnd input; groups := None;
                     start := lastEnd; end_ := length input |}]
  else tokens.

Definition extract (input : str) (pattern : Pattern) : list str :=
  let re := toRegExp "g" pattern in
  map Commands.text (Commands.findMatches re input).

Definition extractGroups (input : str) (pattern : Pattern) : list (list (option str)) :=
  let re := toRegExp "g" pattern in
  map Commands.groups (Commands.findMatches re input).



End WithHost.
End Utilities.

(** ** The glob matcher ([glob.ts]) *)

Module Glob.

Inductive GlobSegment :=
| Literal (value : str)
| Single
| Double.

(** [path.split('/').filter((s) => s.length > 0)]. *)
Definition segmentsOf (path : str) : list str :=
  filter (fun s => 0 < length s) (Str.split "/" path).

Definition parseGlobSegments (pattern : str) : list GlobSegment :=
  map (fun part =>
         if Str.eqb part "**" then Double
         else if Str.eqb part "*" then Single
         else Literal part)
      (segmentsOf pattern).

(** [matchSegments(glob, path, gi, pi)]; the first argument is the part
    of [glob] from index [gi] on. *)
Fixpoint matchSegments (glob : list GlobSegment) (path : list str) (pi : nat) : bool :=
  match glob with
  | [] => length path <=? pi
  | segment :: rest =>
      match segment with
      | Double =>
          (fix trySkip (count skip : nat) : bool :=
             match count with
             | 0 => false
             | S count' =>
                 if matchSegments rest path (pi + skip) then true
                 else trySkip count' (S skip)
             end) (S (length path) - pi) 0
      | Single =>
          if length path <=? pi then false
          else matchSegments rest path (pi + 1)
      | Literal value =>
          if length path <=? pi then false
          else if negb (bool_decide (Some value = path !! pi)) then false
          else matchSegments rest path (pi + 1)
      end
  end.

Record GlobPattern := {
  pattern : str;
  segments : list GlobSegment
}.

Definition compileGlob (pattern : str) : GlobPattern :=
  {| pattern := pattern; segments := parseGlobSegments pattern |}.

Definition matches (glob : GlobPattern) (path : str) : bool :=
  matchSegments (segments glob) (segmentsOf path) 0.

Definition globMatch (pattern path : str) : bool := matches (compileGlob pattern) path.

(** The closure [extract(gi, pi)] of [extractGlobCaptures]; it pushes onto
    the [captures] array of the enclosing call, which is threaded through.
    The first argument is the part of [segments] from index [gi] on. *)
Fixpoint extract (segments : list GlobSegment) (pathParts : list str) (pi : nat)
    (captures : list str) : bool * list str :=
  match segments with
  | [] => (length pathParts <=? pi, captures)
  | segment :: rest =>
      match segment with
      | Double =>
          (fix trySkip (count skip : nat) (captures : list str) : bool * list str :=
             match count with
             | 0 => (false, captures)
             | S count' =>
                 let tempCaptures := Str.slice pathParts pi (pi + skip) in
                 let '(found, captures1) := extract rest pathParts (pi + skip) captures in
                 if found then (true, captures1 ++ tempCaptures)
                 else trySkip count' (S skip) captures1
             end) (S (length pathParts) - pi) 0 captures
      | Single =>
          if length pathParts <=? pi then (false, captures)
          else extract rest pathParts (pi + 1) (captures ++ [default [] (pathParts !! pi)])
      | Literal value =>
          if length pathParts <=? pi then (false, captures)
          else if negb (bool_decide (Some value = pathParts !! pi)) then (false, captures)
          else extract rest pathParts (pi + 1) captures
      end
  end.

Definition extractGlobCaptures (pattern path : str) : option (list str) :=
  let segments := parseGlobSegments pattern in
  let pathParts := segmentsOf path in
  let '(found, captures) := extract segments pathParts 0 [] in
  if found then Some captures else None.

End Glob.

(** ** The template substitutor ([template.ts]) *)

(** Structured values ([unknown] in the source): numbers are restricted
    to integers, objects are their own enumerable properties in order. *)
Inductive Value :=
| VUndefined
| VNull
| VBool (b : bool)
| VNumber (z : Z)
| VString (s : str)
| VArray (items : list Value)
| VObject (fields : list (str * Value)).

(** What a property path reaches in a structured value: a value of the
    data ([undefined] when there is no such property), or what the
    prototype objects of the host hold, namely a function of the host
    (such as [{}.toString]), [Object.prototype] or [Array.prototype]. *)
Inductive Reached :=
| Data (value : Value)
| HostFunction
| ObjectPrototype
| ArrayPrototype.

(** What the host does with values: [JSON.stringify] on the values for
    which it returns a string, [String] on the integers that are not safe
    integers, and the names of the function-valued properties of
    [Object.prototype] ([toString], [constructor], ...) and of
    [Array.prototype] ([map], [join], [constructor], ...). *)
Class ValueHost := {
  jsonStringify : Value -> str;
  largeNumberToString : Z -> str;
  objectMethod : str -> bool;
  arrayMethod : str -> bool
}.

(** The host's clock and random source: the readings of [Date.now()] and
    of [Math.floor(Math.random() * 0xffff)] at each call of [generateId],
    and the number of calls made so far. *)
Record World := {
  calls : nat;
  dateNow : nat -> Z;
  randomDraw : nat -> Z
}.

Module Template.

Record TemplateContext := {
  captures : option (list (option str));
  path : option (list str);
  data : option Value;
  input : option str
}.

Definition hexDigit (k : Z) : ascii :=
  if (k <? 10)%Z then ascii_of_nat (48 + Z.to_nat k) else ascii_of_nat (87 + Z.to_nat k).

(** [value.toString(16)] for an unsigned 32-bit value: at most 8 digits. *)
Fixpoint toString16 (digits : nat) (value : Z) (acc : str) : str :=
  match digits with
  | 0 => acc
  | S digits' =>
      let acc1 := hexDigit (value mod 16) :: acc in
      if (value / 16 =? 0)%Z then acc1 else toString16 digits' (value / 16) acc1
  end.

(** [s.padStart(width, '0')]. *)
Definition padStart (width : nat) (s : str) : str := replicate (width - length s) "0"%char ++ s.

(** [((timestamp ^ random) >>> 0).toString(16).padStart(8, '0')]. *)
Definition generateId (w : World) : str * World :=
  let timestamp := dateNow w (calls w) in
  let random := (randomDraw w (calls w) mod 65535)%Z in
  let unsigned := (Z.lxor (timestamp mod 2 ^ 32) random mod 2 ^ 32)%Z in
  (padStart 8 (toString16 8 unsigned []),
   {| calls := S (calls w); dateNow := dateNow w; randomDraw := randomDraw w |}).

(** The index that a property name denotes: a decimal numeral in
    canonical form. *)
Definition indexOfKey (key : str) : option nat :=
  match NilEmpty.uint_of_string (string_of_list_ascii key) with
  | Some u => let i := Nat.of_uint u in
              if bool_decide (Str.ofNat i = key) then Some i else None
  | None => None
  end.

(** [typeof current === 'object'] for a value that is not [null]. *)
Definition isObject (current : Value) : bool :=
  match current with
  | VObject _ | VArray _ => true
  | _ => false
  end.

(** The decimal numeral of an integer. *)
Definition decimal (z : Z) : str :=
  if (z <? 0)%Z then "-"%char :: Str.ofNat (Z.to_nat (- z)) else Str.ofNat (Z.to_nat z).

(** The safe integers, which every number of the language holds exactly:
    those up to [2^53 - 1] in absolute value. *)
Definition isSafeInteger (z : Z) : bool := (Z.abs z <=? 9007199254740991)%Z.

(** [text.replace(re, replacement)] for a global pattern [re] whose source
    is a sequence of escaped literal characters, [needle] unescaped: the
    occurrences of [needle], left to right and non-overlapping, are
    replaced by the expansion of [replacement].  [skip] counts the
    characters of the current occurrence still to be consumed. *)
Fixpoint replaceLiteralFrom (needle replacement whole : str) (text : str)
    (position skip : nat) : str :=
  match text with
  | [] => []
  | ch :: rest =>
      match skip with
      | S skip' => replaceLiteralFrom needle replacement whole rest (S position) skip'
      | 0 =>
          if Str.startsWith needle text then
            Host.getSubstitution needle whole position [] None None replacement
              ++ replaceLiteralFrom needle replacement whole rest (S position) (length needle - 1)
          else ch :: replaceLiteralFrom needle replacement whole rest (S position) 0
      end
  end.

Definition replaceLiteral (needle replacement text : str) : str :=
  replaceLiteralFrom needle replacement text text 0 0.

Definition isDataPathChar (ch : ascii) : bool :=
  let k := nat_of_ascii ch in
  ((97 <=? k) && (k <=? 122)) || ((65 <=? k) && (k <=? 90)) || ((48 <=? k) && (k <=? 57))
  || Ascii.eqb ch "_" || Ascii.eqb ch ".".

Fixpoint takeWhile (f : ascii -> bool) (s : str) : str :=
  match s with
  | ch :: rest => if f ch then ch :: takeWhile f rest else []
  | [] => []
  end.

(** One attempt of [/\$\{data\.([a-zA-Z0-9_.]+)\}/] at the head of [text]:
    the captured path. *)
Definition matchDataAt (text : str) : option str :=
  if Str.startsWith "${data." text then
    let run := takeWhile isDataPathChar (drop 7 text) in
    if (0 <? length run) && Str.startsWith "}" (drop (7 + length run) text)
    then Some run else None
  else None.

(** [text.replace(/\$\{data\.([a-zA-Z0-9_.]+)\}/g, (_, path) => ...)]. *)
Fixpoint replaceDataFrom (replacer : str -> str) (text : str) (skip : nat) : str :=
  match text with
  | [] => []
  | ch :: rest =>
      match skip with
      | S skip' => replaceDataFrom replacer rest skip'
      | 0 =>
          match matchDataAt text with
          | Some path => replacer path ++ replaceDataFrom replacer rest (7 + length path)
          | None => ch :: replaceDataFrom replacer rest 0
          end
      end
  end.

Section WithHost.
Context `{ValueHost}.

(** [String(z)] for an integer: its decimal numeral when it is a safe
    integer. *)
Definition numberToString (z : Z) : str :=
  if isSafeInteger z then decimal z else largeNumberToString z.

(** [typeof current === 'object'] for what a path has reached, when it is
    neither [null] nor [undefined]. *)
Definition reachedObject (current : Reached) : bool :=
  match current with
  | Data value => isObject value
  | HostFunction => false
  | ObjectPrototype | ArrayPrototype => true
  end.

(** A property looked up in [Object.prototype] on behalf of an object
    whose prototype is [prototype]: the accessor [__proto__] returns that
    prototype; the other properties are functions. *)
Definition fromObjectPrototype (prototype : Reached) (part : str) : Reached :=
  if Str.eqb part "__proto__" then prototype
  else if objectMethod part then HostFunction
  else Data VUndefined.

(** [current[part]] for an object: an own property first (a property of
    a plain object; an element or the length of an array), then the
    prototype chain. *)
Definition getProperty (current : Reached) (part : str) : Reached :=
  match current with
  | Data (VObject fields) =>
      match Str.assoc part fields with
      | Some value => Data value
      | None => fromObjectPrototype ObjectPrototype part
      end
  | Data (VArray items) =>
      if Str.eqb part "length" then Data (VNumber (Z.of_nat (length items)))
      else match indexOfKey part ≫= (fun i => items !! i) with
           | Some value => Data value
           | None =>
               if arrayMethod part then HostFunction
               else fromObjectPrototype ArrayPrototype part
           end
  | ArrayPrototype =>
      if Str.eqb part "length" then Data (VNumber 0)
      else if arrayMethod part then HostFunction
      else fromObjectPrototype ObjectPrototype part
  | ObjectPrototype => fromObjectPrototype (Data VNull) part
  | _ => Data VUndefined
  end.

(** The [for] loop of [getNestedValue]. *)
Fixpoint getNestedLoop (parts : list str) (current : Reached) : Reached :=
  match parts with
  | [] => current
  | part :: rest =>
      if negb (reachedObject current) then Data VUndefined
      else getNestedLoop rest (getProperty current part)
  end.

Definition getNestedValue (obj : Value) (path : str) : Reached :=
  getNestedLoop (Str.split "." path) (Data obj).

(** The replacer function of the [${data.*}] pass.  For a function
    [JSON.stringify] returns [undefined], which [replace] prints. *)
Definition dataReplacer (data : Value) (path : str) : str :=
  match getNestedValue data path with
  | Data VUndefined | Data VNull => []
  | Data (VString s) => s
  | Data (VNumber z) => numberToString z
  | Data (VBool b) => if b then "true" else "false"
  | Data value => jsonStringify value
  | HostFunction => "undefined"
  | ObjectPrototype => "{}"
  | ArrayPrototype => "[]"
  end.

(** The two [for] loops of [substituteString], over [i = from, ...]. *)
Fixpoint capturesLoop (captures : list (option str)) (i : nat) (result : str) : str :=
  match captures with
  | [] => result
  | capture :: rest =>
      capturesLoop rest (S i)
        (replaceLiteral ("${" ++ Str.ofNat i ++ "}") (default [] capture) result)
  end.

Fixpoint pathLoop (path : list str) (i : nat) (result : str) : str :=
  match path with
  | [] => result
  | segment :: rest =>
      pathLoop rest (S i) (replaceLiteral ("${path." ++ Str.ofNat i ++ "}") segment result)
  end.

(** The five passes of [substituteString]. *)
Definition capturesPass (ctx : TemplateContext) (result : str) : str :=
  match captures ctx with
  | Some captures => capturesLoop captures 0 result
  | None => result
  end.

Definition pathPass (ctx : TemplateContext) (result : str) : str :=
  match path ctx with
  | Some path => pathLoop path 0 result
  | None => result
  end.

Definition uuidPass (id : str) (result : str) : str := replaceLiteral "${uuid}" id result.

Definition inputPass (ctx : TemplateContext) (result : str) : str :=
  match input ctx with
  | Some input => replaceLiteral "${input}" input result
  | None => result
  end.

Definition dataPass (ctx : TemplateContext) (result : str) : str :=
  match data ctx with
  | Some data => replaceDataFrom (dataReplacer data) result 0
  | None => result
  end.

(** [generateId()] is an argument of the [${uuid}] replacement: it is
    evaluated once, before the replacement runs. *)
Definition substituteString (template : str) (ctx : TemplateContext) (w : World)
  : str * World :=
  let result := template in
  let result := capturesPass ctx result in
  let result := pathPass ctx result in
  let '(id, w1) := generateId w in
  let result := uuidPass id result in
  let result := inputPass ctx result in
  let result := dataPass ctx result in
  (result, w1).

(** The index that a property name denotes when it is an array index:
    below [2^32 - 1]. *)
Definition arrayIndex (key : str) : option N :=
  match NilEmpty.uint_of_string (string_of_list_ascii key) with
  | Some u =>
      let i := N.of_uint u in
      if bool_decide (lit (NilEmpty.string_of_uint (N.to_uint i)) = key) && (i <? 4294967295)%N
      then Some i else None
  | None => None
  end.

(** The value of an existing property replaced, in place. *)
Fixpoint replaceProperty (fields : list (str * Value)) (key : str) (value : Value)
  : list (str * Value) :=
  match fields with
  | [] => []
  | (k, old) :: rest =>
      if bool_decide (k = key) then (k, value) :: rest
      else (k, old) :: replaceProperty rest key value
  end.

(** A new property whose name is the array index [i], put where the
    enumeration has it: after the smaller indices, before the larger ones
    and before the names that are not indices. *)
Fixpoint insertIndex (fields : list (str * Value)) (i : N) (key : str) (value : Value)
  : list (str * Value) :=
  match fields with
  | [] => [(key, value)]
  | (k, old) :: rest =>
      match arrayIndex k with
      | Some j =>
          if (j <? i)%N then (k, old) :: insertIndex rest i key value
          else (key, value) :: fields
      | None => (key, value) :: fields
      end
  end.

(** [result[newKey] = value] on the object under construction, a plain
    object given by its own properties in the order of their enumeration:
    array indices in ascending order, then the other names in the order
    of their creation.  An existing property keeps its place.  The name
    [__proto__] creates no property: the assignment calls the setter
    inherited from [Object.prototype]; the prototype it may install is
    not part of the own properties and is not recorded. *)
Definition setProperty (fields : list (str * Value)) (key : str) (value : Value)
  : list (str * Value) :=
  if Str.eqb key "__proto__" then fields
  else if bool_decide (key ∈ map fst fields) then replaceProperty fields key value
  else match arrayIndex key with
       | Some i => insertIndex fields i key value
       | None => fields ++ [(key, value)]
       end.

Fixpoint substituteValue (template : Value) (ctx : TemplateContext) (w : World)
  : Value * World :=
  match template with
  | VString s => let '(out, w1) := substituteString s ctx w in (VString out, w1)
  | VArray items =>
      let '(out, w1) :=
        (fix each (items : list Value) (w : World) : list Value * World :=
           match items with
           | [] => ([], w)
           | item :: rest =>
               let '(item1, w1) := substituteValue item ctx w in
               let '(rest1, w2) := each rest w1 in
               (item1 :: rest1, w2)
           end) items w in
      (VArray out, w1)
  | VObject fields =>
      let '(out, w1) :=
        (fix each (fields : list (str * Value)) (result : list (str * Value)) (w : World)
           : list (str * Value) * World :=
           match fields with
           | [] => (result, w)
           | (key, value) :: rest =>
               let '(newKey, w1) := substituteString key ctx w in
               let '(newValue, w2) := substituteValue value ctx w1 in
               each rest (setProperty result newKey newValue) w2
           end) fields [] w in
      (VObject out, w1)
  | other => (other, w)
  end.

(** [substituteString(tmpl, { ...ctx, input })]. *)
Definition template (tmpl : str) (ctx : TemplateContext) (input : str) (w : World)
  : str * World :=
  substituteString tmpl
    {| captures := captures ctx; path := path ctx; data := data ctx; input := Some input |} w.

End WithHost.


(** [parsePath]. *)
Definition parsePath (path : str) : list str :=
  filter (fun s => 0 < length s) (Str.split "/" path).

End Template.

(** ** The pattern engine ([pattern.ts]) *)

Module Pattern.

Record PatternDef := {
  name : str;
  watch : str;
  x : option str;
  g : option str;
  v : option str;
  emit : str;
  emit_path : str;
  template : Value;
  then_ : option str
}.

(** The compiled regular expressions are built without flags: their
    [lastIndex] is never read or written, only their source matters. *)
Record CompiledPattern := {
  cname : str;
  cwatch : str;
  watchMatcher : Glob.GlobPattern;
  cx : option str;
  cg : option str;
  cv : option str;
  cemit : str;
  cemit_path : str;
  ctemplate : Value;
  cthen : option str
}.

Record Metadata := {
  version : option Z;
  produced_by : option str
}.

Record Scroll := {
  key : str;
  type : str;
  metadata : option Metadata;
  data : Value
}.

(** How a call ends: it returns a result, or it throws.  The one
    exception of [applyPattern] within the values modelled is the
    [TypeError] of [dataStr.match] when [dataStr] is [undefined]. *)
Inductive Completion (A : Type) :=
| Returned (result : A)
| Threw.
Arguments Returned {A} result.
Arguments Threw {A}.

Section WithHost.
Context `{RegExpHost} `{ValueHost}.

(** [def.x ? new RegExp(def.x) : undefined]: the empty string is falsy;
    [None] on the outside is the exception thrown for an invalid source. *)
Definition compileRegExp (src : option str) : option (option str) :=
  match src with
  | None => Some None
  | Some [] => Some None
  | Some src => if validSource src then Some (Some src) else None
  end.

Definition compilePattern (def : PatternDef) : option CompiledPattern :=
  cx ← compileRegExp (x def);
  cg ← compileRegExp (g def);
  cv ← compileRegExp (v def);
  Some {| cname := name def; cwatch := watch def;
          watchMatcher := Glob.compileGlob (watch def);
          cx := cx; cg := cg; cv := cv;
          cemit := emit def; cemit_path := emit_path def;
          ctemplate := template def; cthen := then_ def |}.

(** [re.exec(text)] for an object without flags: the scan starts at 0. *)
Definition execOnce (src text : str) : option ExecResult :=
  (Host.builtinExec src "" text 0).1.

(** [typeof scroll.data === 'string' ? scroll.data :
    JSON.stringify(scroll.data)]; [None] is [undefined], the result of
    [JSON.stringify(undefined)]. *)
Definition dataString (data : Value) : option str :=
  match data with
  | VString s => Some s
  | VUndefined => None
  | other => Some (jsonStringify other)
  end.

(** The text that [re.test(dataStr)] searches: [String(dataStr)]. *)
Definition testText (dataStr : option str) : str := default (lit "undefined") dataStr.

(** Step 4 of [applyPattern]: [dataStr.match(pattern.x)] throws when
    [dataStr] is [undefined]. *)
Definition extractCaptures (cx : option str) (dataStr : option str)
  : Completion (list (option str)) :=
  match cx with
  | Some re =>
      match dataStr with
      | Some text => Returned (match execOnce re text with
                               | Some m => elements m
                               | None => []
                               end)
      | None => Threw
      end
  | None => Returned []
  end.

Definition applyPattern (pattern : CompiledPattern) (scroll : Scroll) (w : World)
  : Completion (option Scroll * World) :=
  if negb (Glob.matches (watchMatcher pattern) (key scroll)) then Returned (None, w)
  else
    let dataStr := dataString (data scroll) in
    if match cg pattern with
       | Some re => negb (bool_decide (is_Some (execOnce re (testText dataStr))))
       | None => false
       end
    then Returned (None, w)
    else if match cv pattern with
            | Some re => bool_decide (is_Some (execOnce re (testText dataStr)))
            | None => false
            end
    then Returned (None, w)
    else
      match extractCaptures (cx pattern) dataStr with
      | Threw => Threw
      | Returned captures =>
          let pathSegments := Template.parsePath (key scroll) in
          let ctx := {| Template.captures := Some captures;
                        Template.path := Some pathSegments;
                        Template.data := Some (if Template.isObject (data scroll)
                                               then data scroll else VObject []);
                        Template.input := dataStr |} in
          let '(outputPath, w1) := Template.substituteString (cemit_path pattern) ctx w in
          let '(outputData, w2) := Template.substituteValue (ctemplate pattern) ctx w1 in
          Returned (Some {| key := outputPath; type := cemit pattern;
                            metadata := Some {| version := Some 1%Z;
                                                produced_by := Some (cname pattern) |};
                            data := outputData |}, w2)
      end.

(** The registry: a [Map] from rule name to compiled rule, in insertion
    order. *)
Definition Registry := list (str * CompiledPattern).

Fixpoint mapSet (patterns : Registry) (name : str) (compiled : CompiledPattern) : Registry :=
  match patterns with
  | [] => [(name, compiled)]
  | (k, old) :: rest =>
      if bool_decide (k = name) then (k, compiled) :: rest
      else (k, old) :: mapSet rest name compiled
  end.

Definition add (patterns : Registry) (def : PatternDef) : option Registry :=
  compiled ← compilePattern def;
  Some (mapSet patterns (cname compiled) compiled).

Definition get (patterns : Registry) (name : str) : option CompiledPattern :=
  Str.assoc name patterns.

Definition remove (patterns : Registry) (name : str) : Registry :=
  filter (fun entry => entry.1 ≠ name) patterns.

Definition list_ (patterns : Registry) : list str := map fst patterns.

(** The [for] loop of [apply] over [this.patterns.values()]; [all] is the
    whole registry, consulted for the cascade target.  An exception ends
    the loop. *)
Fixpoint applyEach (all : Registry) (patterns : Registry) (current : Scroll)
    (reactions queue : list Scroll) (w : World)
  : Completion (list Scroll * list Scroll * World) :=
  match patterns with
  | [] => Returned (reactions, queue, w)
  | (_, pattern) :: rest =>
      match applyPattern pattern current w with
      | Threw => Threw
      | Returned (Some reaction, w1) =>
          let reactions1 := reactions ++ [reaction] in
          let queue1 :=
            match cthen pattern with
            | Some ((_ :: _) as next) =>
                match get all next with
                | Some _ => queue ++ [reaction]
                | None => queue
                end
            | _ => queue
            end in
          applyEach all rest current reactions1 queue1 w1
      | Returned (None, w1) => applyEach all rest current reactions queue w1
      end
  end.

(** The [while] loop of [apply]; one unit of fuel per dequeued scroll,
    [None] when the fuel runs out before the queue is empty.  An
    exception ends the loop and the call. *)
Fixpoint applyLoop (fuel : nat) (patterns : Registry) (queue : list Scroll)
    (visited : gset str) (reactions : list Scroll) (w : World)
  : option (Completion (list Scroll * World)) :=
  match fuel with
  | 0 => None
  | S fuel' =>
      match queue with
      | [] => Some (Returned (reactions, w))
      | current :: queue1 =>
          let visitKey := key current ++ ":" ++ type current in
          if bool_decide (visitKey ∈ visited) then
            applyLoop fuel' patterns queue1 visited reactions w
          else
            let visited1 := visited ∪ {[ visitKey ]} in
            match applyEach patterns patterns current reactions queue1 w with
            | Threw => Some Threw
            | Returned (reactions1, queue2, w1) =>
                applyLoop fuel' patterns queue2 visited1 reactions1 w1
            end
      end
  end.

Definition apply (fuel : nat) (patterns : Registry) (scroll : Scroll) (w : World)
  : option (Completion (list Scroll * World)) :=
  applyLoop fuel patterns [scroll] ∅ [] w.

Definition applyOne (patterns : Registry) (patternName : str) (scroll : Scroll) (w : World)
  : Completion (option Scroll * World) :=
  match get patterns patternName with
  | None => Returned (None, w)
  | Some pattern => applyPattern pattern scroll w
  end.

(** The [for] loop of [wouldMatch]. *)
Fixpoint wouldMatchLoop (patterns : Registry) (scroll : Scroll) (dataStr : option str)
    (matched : list str) : list str :=
  match patterns with
  | [] => matched
  | (name, pattern) :: rest =>
      if negb (Glob.matches (watchMatcher pattern) (key scroll))
      then wouldMatchLoop rest scroll dataStr matched
      else if match cg pattern with
              | Some re => negb (bool_decide (is_Some (execOnce re (testText dataStr))))
              | None => false
              end
      then wouldMatchLoop rest scroll dataStr matched
      else if match cv pattern with
              | Some re => bool_decide (is_Some (execOnce re (testText dataStr)))
              | None => false
              end
      then wouldMatchLoop rest scroll dataStr matched
      else wouldMatchLoop rest scroll dataStr (matched ++ [name])
  end.

Definition wouldMatch (patterns : Registry) (scroll : Scroll) : list str :=
  wouldMatchLoop patterns scroll (dataString (data scroll)) [].

Definition clear (patterns : Registry) : Registry := [].

Definition size (patterns : Registry) : nat := length patterns.

Definition pattern (def : PatternDef) : option CompiledPattern := compilePattern def.

End WithHost.

Definition loggerPattern (watchGlob : str) : PatternDef := {|
  name := "logger"; watch := watchGlob;
  x := None; g := None; v := None;
  emit := "log/write@v1"; emit_path := "/logs/${uuid}";
  template := VObject [(lit "path", VString "${input}"); (lit "timestamp", VString "${uuid}")];
  then_ := None
|}.

Definition emailExtractorPattern (watchGlob : str) : PatternDef := {|
  name := "email-extractor"; watch := watchGlob;
  x := Some (lit "([a-zA-Z0-9._%+-]+@[a-zA-Z0-9.-]+\.[a-zA-Z]{2,})");
  g := None; v := None;
  emit := "extracted/email@v1"; emit_path := "/extracted/emails/${uuid}";
  template := VObject [(lit "email", VString "${1}");
                       (lit "source", VString "${path.0}/${path.1}")];
  then_ := None
|}.

Definition typeIndexPattern (typeFilter watchGlob : str) : PatternDef := {|
  name := "index-" ++ typeFilter; watch := watchGlob;
  x := None; g := Some typeFilter; v := None;
  emit := "index/" ++ typeFilter ++ "@v1";
  emit_path := "/indexes/" ++ typeFilter ++ "/${uuid}";
  template := VObject [(lit "path", VString "${path.0}/${path.1}");
                       (lit "data", VString "${data}")];
  then_ := None
|}.

End Pattern.

(** ** Reference hosts

    Concrete hosts on which the definitions can be evaluated. *)

Module Examples.

(** A host for patterns without metacharacters: the pattern matches its
    own text. *)
Definition literalHost : RegExpHost := {|
  matchAt src fl text i :=
    if Str.startsWith src (drop i text)
    then Some {| mlen := length src; mcaptures := []; mnamed := None |}
    else None;
  validSource _ := true
|}.

(** A host for the combined pattern [((?<x>a))|(b)|(c)]: group 1 wraps
    the first alternative, group 2 is the named group inside it, groups
    3 and 4 wrap the second and third alternatives. *)
Definition namedGroupHost : RegExpHost := {|
  matchAt src fl text i :=
    if Str.eqb src "((?<x>a))|(b)|(c)" then
      match text !! i with
      | Some ch =>
          if Ascii.eqb ch "a" then
            Some {| mlen := 1; mcaptures := [Some (lit "a"); Some (lit "a"); None; None];
                    mnamed := Some [(lit "x", Some (lit "a"))] |}
          else if Ascii.eqb ch "b" then
            Some {| mlen := 1; mcaptures := [None; None; Some (lit "b"); None];
                    mnamed := Some [(lit "x", None)] |}
          else if Ascii.eqb ch "c" then
            Some {| mlen := 1; mcaptures := [None; None; None; Some (lit "c")];
                    mnamed := Some [(lit "x", None)] |}
          else None
      | None => None
      end
    else None;
  validSource _ := true
|}.

Definition escapeChar (ch : ascii) : str :=
  if Ascii.eqb ch "034" then ["\"%char; "034"%char]
  else if Ascii.eqb ch "\" then ["\"%char; "\"%char]
  else if Ascii.eqb ch "010" then "\n"
  else if Ascii.eqb ch "013" then "\r"
  else if Ascii.eqb ch "009" then "\t"
  else [ch].

Definition quote (s : str) : str := "034"%char :: concat (map escapeChar s) ++ ["034"%char].

(** [JSON.stringify] on values whose numbers are safe integers, whose
    strings hold no other control character and whose objects hold no
    [undefined] property; [undefined] prints as [null], as it does inside
    arrays. *)
Fixpoint stringify (v : Value) : str :=
  match v with
  | VUndefined | VNull => "null"
  | VBool b => if b then "true" else "false"
  | VNumber z => Template.decimal z
  | VString s => quote s
  | VArray items => "[" ++ Str.join "," (map stringify items) ++ "]"
  | VObject fields =>
      "{" ++ Str.join ","
               (map (fun entry => let '(k, v) := entry in quote k ++ ":" ++ stringify v)
                    fields) ++ "}"
  end.

(** The names of the function-valued properties of [Object.prototype]. *)
Definition objectMethods : list str :=
  [lit "constructor"; lit "hasOwnProperty"; lit "isPrototypeOf"; lit "propertyIsEnumerable";
   lit "toLocaleString"; lit "toString"; lit "valueOf"; lit "__defineGetter__";
   lit "__defineSetter__"; lit "__lookupGetter__"; lit "__lookupSetter__"].

(** Some of the function-valued properties of [Array.prototype]. *)
Definition arrayMethods : list str :=
  [lit "constructor"; lit "concat"; lit "filter"; lit "forEach"; lit "join"; lit "map";
   lit "pop"; lit "push"; lit "slice"; lit "toString"].

Definition valueHost : ValueHost := {|
  jsonStringify := stringify;
  largeNumberToString := Template.decimal;
  objectMethod name := bool_decide (name ∈ objectMethods);
  arrayMethod name := bool_decide (name ∈ arrayMethods)
|}.

(** A clock that advances by one millisecond per call and a random
    source that yields 3, 10, 17, ... *)
Definition world0 : World := {|
  calls := 0;
  dateNow k := (1700000000000 + Z.of_nat k)%Z;
  randomDraw k := (7 * Z.of_nat k + 3)%Z
|}.

Definition emptyContext : Template.TemplateContext := {|
  Template.captures := None; Template.path := None;
  Template.data := None; Template.input := None
|}.

(** The pattern [/a/g], an object created once by the caller. *)
Definition patternA : RegExp := {| source := "a"; flags := "g"; cell := 1 |}.

(** Three token definitions, the first with a named group. *)
Definition namedDefs : list Dsl.TokenDef :=
  [ {| Dsl.name := "A"; Dsl.pattern := {| source := "(?<x>a)"; flags := ""; cell := 1 |}; Dsl.skip := false |};
    {| Dsl.name := "B"; Dsl.pattern := {| source := "b"; flags := ""; cell := 2 |}; Dsl.skip := false |};
    {| Dsl.name := "C"; Dsl.pattern := {| source := "c"; flags := ""; cell := 3 |}; Dsl.skip := false |} ].

(** A context with the captures of a match of [(\w+)] on ['alice']. *)
Definition aliceContext : Template.TemplateContext := {|
  Template.captures := Some [Some (lit "alice"); Some (lit "alice")];
  Template.path := None; Template.data := None; Template.input := None
|}.

(** A rule that watches every path and cascades to itself; its output
    path appends [x] to the first segment of the input path. *)
Definition selfCascade : Pattern.PatternDef := {|
  Pattern.name := "A"; Pattern.watch := "/**";
  Pattern.x := None; Pattern.g := None; Pattern.v := None;
  Pattern.emit := "t"; Pattern.emit_path := "/${path.0}x";
  Pattern.template := VObject []; Pattern.then_ := Some (lit "A")
|}.

Definition selfCascadeCompiled : Pattern.CompiledPattern := {|
  Pattern.cname := "A"; Pattern.cwatch := "/**";
  Pattern.watchMatcher := Glob.compileGlob "/**";
  Pattern.cx := None; Pattern.cg := None; Pattern.cv := None;
  Pattern.cemit := "t"; Pattern.cemit_path := "/${path.0}x";
  Pattern.ctemplate := VObject []; Pattern.cthen := Some (lit "A")
|}.

(** The document [{key: '/a', type: 't', data: {}}]. *)
Definition startScroll : Pattern.Scroll := {|
  Pattern.key := "/a"; Pattern.type := "t";
  Pattern.metadata := None; Pattern.data := VObject []
|}.

(** The segments [a], [ax], [axx], ... *)
Definition segment (k : nat) : str := "a"%char :: replicate k "x"%char.

(** The registry after [add(selfCascade)]. *)
Definition registry : Pattern.Registry := [(lit "A", Examples.selfCascadeCompiled)].

(** The key under which the scroll of key [/a x^k] and type [t] is marked
    as visited. *)
Definition visitKey (k : nat) : str := ("/"%char :: segment k) ++ ":" ++ "t".

(** A context given by its four fields. *)
Definition contextOf (captures : option (list (option str))) (path : option (list str))
    (data : option Value) (input : option str) : Template.TemplateContext :=
  {| Template.captures := captures; Template.path := path;
     Template.data := data; Template.input := input |}.

(** The length of the run of [unit] at the head of a text. *)
Fixpoint runLength (unit : N) (text : Utf16.wstr) : nat :=
  match text with
  | u :: rest => if (u =? unit)%N then S (runLength unit rest) else 0
  | [] => 0
  end.

(** A host for the pattern [a*]: the longest run of [a] at the position
    tried, which may be empty. *)
Definition starHost : Utf16.WideHost := {|
  Utf16.matchAt src fl text i :=
    if Str.eqb src "a*" then
      Some {| Utf16.wlen := runLength 97 (drop i text); Utf16.wcaptures := [];
              Utf16.wnamed := None |}
    else None
|}.

(** The pattern [/a*/]. *)
Definition starPlain : RegExp := {| source := "a*"; flags := ""; cell := 1 |}.

(** The pattern [/a*/u]. *)
Definition starUnicode : RegExp := {| source := "a*"; flags := "u"; cell := 1 |}.

(** The text of the one character U+1F600, the surrogate pair
    [0xD83D 0xDE00]. *)
Definition grinningFace : Utf16.wstr := [55357; 56832]%N.

End Examples.

(** ** The steps of the fluent builder *)

Module Fluent.
Import Dsl.

(** One chained call on the builder, among [x], [y], [g], [v], [s], [c],
    [d], [p]. *)
Inductive Step :=
| StepX (pattern : Pattern)
| StepY (pattern : Pattern)
| StepG (pattern : Pattern)
| StepV (pattern : Pattern)
| StepS (pattern : Pattern) (replacement : str)
| StepC (replacement : str)
| StepD
| StepP.

Section WithHost.
Context `{RegExpHost}.

Definition chain (this : SRE) (step : Step) : SRE :=
  match step with
  | StepX pattern => Dsl.x this pattern
  | StepY pattern => Dsl.y this pattern
  | StepG pattern => Dsl.g this pattern
  | StepV pattern => Dsl.v this pattern
  | StepS pattern replacement => Dsl.s this pattern replacement
  | StepC replacement => Dsl.c this replacement
  | StepD => Dsl.d this
  | StepP => Dsl.p this
  end.

(** [sre(input).step1(...).step2(...)...]. *)
Definition build (input : str) (steps : list Step) : SRE :=
  fold_left chain steps (sre input).

(** The operator of the command algebra that corresponds to a step, each
    applied with the identity command. *)
Definition algebraStep (step : Step) : Commands.Command :=
  match step with
  | StepX pattern => Commands.x (toRegExp "g" pattern) Commands.p
  | StepY pattern => Commands.y (toRegExp "g" pattern) Commands.p
  | StepG pattern => Commands.g (toRegExp "" pattern) Commands.p
  | StepV pattern => Commands.v (toRegExp "" pattern) Commands.p
  | StepS pattern replacement => Commands.s (toRegExp "g" pattern) replacement
  | StepC replacement => Commands.c replacement
  | StepD => Commands.d
  | StepP => Commands.p
  end.

(** What a step does: [x] and [y] rebuild the value as the commands do
    with the identity; [g] and [v] keep the value or empty it. *)
Definition filterStep (step : Step) : Commands.Command :=
  match step with
  | StepX pattern => Commands.x (toRegExp "g" pattern) Commands.p
  | StepY pattern => Commands.y (toRegExp "g" pattern) Commands.p
  | StepG pattern => Commands.ifMatch (toRegExp "" pattern) Commands.p Commands.d
  | StepV pattern => Commands.ifMatch (toRegExp "" pattern) Commands.d Commands.p
  | StepS pattern replacement => Commands.s (toRegExp "g" pattern) replacement
  | StepC replacement => Commands.c replacement
  | StepD => Commands.d
  | StepP => Commands.p
  end.

End WithHost.
End Fluent.

(** ** Vocabulary of the statements *)

(** The results of a global scan from [from]: ordered, disjoint, inside
    the text, each the slice it covers. *)
Fixpoint chained (text : str) (from : nat) (results : list ExecResult) : Prop :=
  match results with
  | [] => True
  | r :: rest =>
      from <= index r /\ index r + length (matched r) <= length text
      /\ matched r = Str.slice text (index r) (index r + length (matched r))
      /\ chained text (index r + length (matched r)) rest
  end.

Section Spans.
Import Commands.

(** The matches of a text from [from] on: in order, disjoint, inside the
    text, each carrying the text of its span. *)
Fixpoint ordered (input : str) (from : nat) (matches : list Match) : Prop :=
  match matches with
  | [] => True
  | m :: rest =>
      from <= start m /\ start m <= end_ m /\ end_ m <= length input
      /\ text m = Str.slice input (start m) (end_ m)
      /\ ordered input (end_ m) rest
  end.

(** The match spans and the spans between them, concatenated in order. *)
Fixpoint rebuild (input : str) (from : nat) (matches : list Match) : str :=
  match matches with
  | [] => drop from input
  | m :: rest => Str.slice input from (start m) ++ text m ++ rebuild input (end_ m) rest
  end.

End Spans.

(** A string without the character [$]: it holds no placeholder and, used
    as a replacement, no replacement pattern. *)
Definition plainb (s : str) : bool := forallb (fun ch => negb (Ascii.eqb ch "$")) s.
Definition plain (s : str) : Prop := plainb s = true.

(** A template as a sequence of texts and numbered placeholders. *)
Inductive TemplateItem :=
| Text (s : str)
| Numbered (n : nat).

Definition renderItem (item : TemplateItem) : str :=
  match item with
  | Text s => s
  | Numbered n => "${" ++ Str.ofNat n ++ "}"
  end.

Definition render (items : list TemplateItem) : str := concat (map renderItem items).

(** What a numbered placeholder stands for, given the captures: the
    capture of that index, empty if undefined; itself if there is none. *)
Definition expandItem (caps : list (option str)) (item : TemplateItem) : str :=
  match item with
  | Text s => s
  | Numbered n =>
      match caps !! n with
      | Some capture => default [] capture
      | None => "${" ++ Str.ofNat n ++ "}"
      end
  end.

Definition plainItems (items : list TemplateItem) : bool :=
  forallb (fun item => match item with Text s => plainb s | Numbered _ => true end) items.

Definition plainCaptures (caps : list (option str)) : bool :=
  forallb (fun capture => plainb (default [] capture)) caps.

(** The effect on an item of the pass for capture [i], of value [r]. *)
Definition fill1 (i : nat) (r : str) (item : TemplateItem) : TemplateItem :=
  match item with
  | Numbered n => if n =? i then Text r else item
  | Text _ => item
  end.

(** The effect on an item of the passes for the captures [caps], the
    first of which has index [i]. *)
Definition fill (caps : list (option str)) (i : nat) (item : TemplateItem) : TemplateItem :=
  match item with
  | Numbered n =>
      if (i <=? n) && (n <? i + length caps)
      then Text (default [] (mjoin (caps !! (n - i)))) else item
  | Text _ => item
  end.

(** A text of 8-bit characters read as a text of the language, and what
    the matcher and [exec] report on it read the same way. *)
Definition widen (text : str) : Utf16.wstr := map N_of_ascii text.

Definition widenState (ms : MatchState) : Utf16.WideState := {|
  Utf16.wlen := mlen ms;
  Utf16.wcaptures := map (option_map widen) (mcaptures ms);
  Utf16.wnamed := option_map (map (fun entry => (entry.1, option_map widen entry.2))) (mnamed ms)
|}.

Definition widenResult (r : ExecResult) : Utf16.WideResult := {|
  Utf16.windex := index r;
  Utf16.wmatched := widen (matched r);
  Utf16.welements := map (option_map widen) (elements r);
  Utf16.wgroups := option_map (map (fun entry => (entry.1, option_map widen entry.2))) (named r)
|}.

Definition widenMatch (m : Commands.Match) : Utf16.Match := {|
  Utf16.text := widen (Commands.text m);
  Utf16.start := Commands.start m;
  Utf16.end_ := Commands.end_ m;
  Utf16.groups := map (option_map widen) (Commands.groups m)
|}.

(** A matcher of texts of 8-bit characters taken as a matcher of UTF-16
    texts: it reads each code unit as the character of that code. *)
Definition narrowText (text : Utf16.wstr) : str := map ascii_of_N text.

Definition widenHost (host : RegExpHost) : Utf16.WideHost := {|
  Utf16.matchAt src fl text i := option_map widenState (matchAt src fl (narrowText text) i)
|}.

(** ** Vocabulary of the further properties *)

(** The input with the span of each match replaced by the output of the
    same rank; the text between the matches is kept. *)
Fixpoint splice (input : str) (from : nat) (matches : list Commands.Match) (outs : list str) : str :=
  match matches, outs with
  | m :: matches', out :: outs' =>
      Str.slice input from (Commands.start m) ++ out ++ splice input (Commands.end_ m) matches' outs'
  | _, _ => drop from input
  end.

(** [end === undefined ? len : end < 0 ? Math.max(0, len + end) :
    Math.min(end, len)], the end index of [n] and [l]. *)
Definition resolveEnd (len : nat) (end_ : option Z) : nat :=
  match end_ with None => len | Some e => Str.clampIndex len e end.

(** The line separator of [l]. *)
Definition newline : ascii := "010"%char.

(** The results of a scan over a UTF-16 text from [from]: each inside the
    text and the slice it covers, the next one after its start and at or
    after its end. *)
Fixpoint spans (text : Utf16.wstr) (from : nat) (results : list Utf16.WideResult) : Prop :=
  match results with
  | [] => True
  | r :: rest =>
      from <= Utf16.windex r
      /\ Utf16.windex r + length (Utf16.wmatched r) <= length text
      /\ Utf16.wmatched r
         = Str.slice text (Utf16.windex r) (Utf16.windex r + length (Utf16.wmatched r))
      /\ spans text (S (Utf16.windex r) `max` (Utf16.windex r + length (Utf16.wmatched r))) rest
  end.

(** Positions at or after [from], each after the previous one. *)
Fixpoint increasing (from : nat) (starts : list nat) : Prop :=
  match starts with
  | [] => True
  | k :: rest => from <= k /\ increasing (S k) rest
  end.

(** Tokens that tile the span from [from] to [to] of the input; a token
    between two matches is never empty. *)
Fixpoint tiled (input : str) (from to : nat) (tokens : list Utilities.Token) : Prop :=
  match tokens with
  | [] => from = to
  | t :: rest =>
      Utilities.start t = from /\ Utilities.start t <= Utilities.end_ t
      /\ Utilities.end_ t <= length input
      /\ Utilities.text t = Str.slice input (Utilities.start t) (Utilities.end_ t)
      /\ (Utilities.type t = Utilities.TokenBetween -> Utilities.start t < Utilities.end_ t)
      /\ tiled input (Utilities.end_ t) to rest
  end.

(** The tokens of type ['match']. *)
Definition isMatchToken (t : Utilities.Token) : bool :=
  match Utilities.type t with
  | Utilities.TokenMatch => true
  | Utilities.TokenBetween => false
  end.

(** What an event of the lexer is: a gap carries the type [ERROR], no
    groups and a non-empty span; any other event carries the name of the
    definition that fired, one of [defs]. *)
Definition eventOf (defs : list Dsl.TokenDef) (e : Dsl.Event) : Prop :=
  match e.1 with
  | None => Dsl.type e.2 = lit "ERROR" /\ Dsl.tgroups e.2 = [] /\ Dsl.tstart e.2 < Dsl.tend e.2
  | Some def => def ∈ defs /\ Dsl.type e.2 = Dsl.name def
  end.


(** What the glob syntax means: a literal segment matches itself, [*]
    matches any one segment, [**] matches any run of segments. *)
Inductive GlobMatches : list Glob.GlobSegment -> list str -> Prop :=
| GlobMatches_nil : GlobMatches [] []
| GlobMatches_literal value glob path :
    GlobMatches glob path -> GlobMatches (Glob.Literal value :: glob) (value :: path)
| GlobMatches_single segment glob path :
    GlobMatches glob path -> GlobMatches (Glob.Single :: glob) (segment :: path)
| GlobMatches_double run glob path :
    GlobMatches glob path -> GlobMatches (Glob.Double :: glob) (run ++ path).

(** Globs without a double wildcard. *)
Definition noDouble (glob : list Glob.GlobSegment) : bool :=
  forallb (fun segment => match segment with Glob.Double => false | _ => true end) glob.

(** The path segments aligned with the single wildcards of a glob without
    [**], left to right. *)
Fixpoint singles (glob : list Glob.GlobSegment) (path : list str) : list str :=
  match glob, path with
  | Glob.Single :: glob', segment :: path' => segment :: singles glob' path'
  | _ :: glob', _ :: path' => singles glob' path'
  | _, _ => []
  end.

(** A path segment: not empty, without [/]. *)
Definition isSegment (s : str) : Prop := s <> [] /\ Forall (fun ch => ch <> "/"%char) s.

(** A lowercase hexadecimal digit. *)
Definition isHexLower (ch : ascii) : bool :=
  let k := nat_of_ascii ch in ((48 <=? k) && (k <=? 57)) || ((97 <=? k) && (k <=? 102)).

(** A string in which no [$] is followed by an opening brace: it holds no
    placeholder. *)
Fixpoint noOpen (s : str) : bool :=
  match s with
  | [] => true
  | ch :: rest =>
      negb (Ascii.eqb ch "$" && match rest with
                                | next :: _ => Ascii.eqb next "{"
                                | [] => false
                                end)
      && noOpen rest
  end.

(** The number of strings of a structured value, keys included. *)
Fixpoint strings (v : Value) : nat :=
  match v with
  | VString _ => 1
  | VArray items => sum_list (map strings items)
  | VObject fields => sum_list (map (fun entry => 1 + strings entry.2) fields)
  | _ => 0
  end.

(** The world after [k] more calls of [generateId]. *)
Definition advance (k : nat) (w : World) : World :=
  {| calls := k + calls w; dateNow := dateNow w; randomDraw := randomDraw w |}.



(** Whether a rule that fired hands its reaction to another rule:
    [pattern.then] is a non-empty name registered in [all]. *)
Definition cascades (all : Pattern.Registry) (pattern : Pattern.CompiledPattern) : bool :=
  match Pattern.cthen pattern with
  | Some ((_ :: _) as next) => bool_decide (is_Some (Pattern.get all next))
  | _ => false
  end.

(** A registry that holds the logging rule alone. *)
Definition loggerRegistry : Pattern.Registry :=
  default [] (@Pattern.add Examples.literalHost [] (Pattern.loggerPattern "/**")).



(** The pattern [/a/], without flags. *)
Definition plainA : RegExp := {| source := "a"; flags := ""; cell := 2 |}.

(** How a glob segment is written. *)
Definition renderSegment (segment : Glob.GlobSegment) : str :=
  match segment with
  | Glob.Literal value => value
  | Glob.Single => "*"
  | Glob.Double => "**"
  end.

(** A segment as [parseGlobSegments] produces them: a literal is a path
    segment other than [*] and [**]. *)
Definition isGlobSegment (segment : Glob.GlobSegment) : Prop :=
  match segment with
  | Glob.Literal value => isSegment value /\ value <> lit "*" /\ value <> lit "**"
  | _ => True
  end.

(** A structured value without placeholders: no string or property name
    has a [$] followed by an opening brace. *)
Fixpoint placeholderFree (v : Value) : bool :=
  match v with
  | VString s => noOpen s
  | VArray items => forallb placeholderFree items
  | VObject fields => forallb (fun entry => noOpen entry.1 && placeholderFree entry.2) fields
  | _ => true
  end.

(** Property names in the order in which an object enumerates them: the
    array indices first, in ascending order from [next] on, then the
    other names. *)
Fixpoint enumerated (next : N) (keys : list str) : bool :=
  match keys with
  | [] => true
  | key :: rest =>
      match Template.arrayIndex key with
      | Some i => (next <=? i)%N && enumerated (N.succ i) rest
      | None => forallb (fun k => bool_decide (Template.arrayIndex k = None)) rest
      end
  end.

(** The own properties of a plain object whose prototype is
    [Object.prototype], as [Object.entries] lists them: distinct names in
    the order of enumeration, none of them [__proto__]. *)
Definition entriesOfObject (fields : list (str * Value)) : bool :=
  bool_decide (NoDup (map fst fields))
  && negb (bool_decide (lit "__proto__" ∈ map fst fields))
  && enumerated 0 (map fst fields).

(** A structured value all of whose objects are such. *)
Fixpoint plainObjects (v : Value) : bool :=
  match v with
  | VArray items => forallb plainObjects items
  | VObject fields => forallb (fun entry => plainObjects entry.2) fields && entriesOfObject fields
  | _ => true
  end.

(** A reaction of a registered rule: it carries the emit type of the rule
    and its name. *)
Definition producedBy (patterns : Pattern.Registry) (reaction : Pattern.Scroll) : Prop :=
  exists name pattern,
    (name, pattern) ∈ patterns
    /\ Pattern.type reaction = Pattern.cemit pattern
    /\ Pattern.metadata reaction
       = Some {| Pattern.version := Some 1%Z; Pattern.produced_by := Some (Pattern.cname pattern) |}.

(** A template without placeholders. *)
Definition plainTemplate : Value :=
  VObject [(lit "kind", VString "log");
           (lit "tags", VArray [VString "a"; VNumber 1; VNull])].

(** Whether a rule fires on a scroll: [applyPattern] returns a
    reaction. *)
Definition fires `{RegExpHost} `{ValueHost} (scroll : Pattern.Scroll) (w : World)
    (pattern : Pattern.CompiledPattern) : bool :=
  match Pattern.applyPattern pattern scroll w with
  | Pattern.Returned (Some _, _) => true
  | _ => false
  end.

(** Induction on structured values, with the hypothesis available for
    the items of an array and the values of an object. *)
Section ValueInduction.
Variable P : Value -> Prop.
Hypothesis Hundefined : P VUndefined.
Hypothesis Hnull : P VNull.
Hypothesis Hbool : forall b, P (VBool b).
Hypothesis Hnumber : forall z, P (VNumber z).
Hypothesis Hstring : forall s, P (VString s).
Hypothesis Harray : forall items, Forall P items -> P (VArray items).
Hypothesis Hobject : forall fields, Forall (fun entry => P entry.2) fields -> P (VObject fields).

Fixpoint Value_nested_ind (v : Value) : P v :=
  match v with
  | VUndefined => Hundefined
  | VNull => Hnull
  | VBool b => Hbool b
  | VNumber z => Hnumber z
  | VString s => Hstring s
  | VArray items =>
      Harray items
        ((fix each (items : list Value) : Forall P items :=
            match items with
            | [] => @List.Forall_nil _ P
            | item :: rest => @List.Forall_cons _ P item rest (Value_nested_ind item) (each rest)
            end) items)
  | VObject fields =>
      Hobject fields
        ((fix each (fields : list (str * Value)) : Forall (fun entry => P entry.2) fields :=
            match fields with
            | [] => @List.Forall_nil _ (fun entry => P entry.2)
            | entry :: rest =>
                @List.Forall_cons _ (fun entry => P entry.2) entry rest
                  (Value_nested_ind entry.2) (each rest)
            end) fields)
  end.

End ValueInduction.

(** * Properties *)

(** ** The host scan *)

Section HostFacts.
Context `{RegExpHost}.

Lemma scan_bounds count src fl text i j ms :
  Host.scan count src fl text i = Some (j, ms) -> i <= j < i + count.
Proof.
  revert i. induction count as [|count IH]; simpl; intros i; [done|].
  destruct (matchAt src fl text i).
  - intros [= <- _]. lia.
  - destruct (Host.isSticky fl); [done|]. intros Hs%IH. lia.
Qed.

Lemma slice_slice_length (text : str) i k :
  Str.slice text i (i + length (Str.slice text i (i + k))) = Str.slice text i (i + k).
Proof.
  unfold Str.slice. rewrite !Nat.add_sub', length_take.
  destruct (Nat.le_gt_cases k (length (drop i text))).
  - by rewrite Nat.min_l.
  - rewrite Nat.min_r by lia. by rewrite !take_ge by lia.
Qed.

(** What a successful [exec] of an object that uses [lastIndex] returns:
    a match at or after [lastIndex], inside the text, whose text is the
    slice it covers; the new [lastIndex] is at or after its end. *)
Lemma builtinExec_Some src fl text li r li' :
  Host.usesLastIndex fl = true ->
  Host.builtinExec src fl text li = (Some r, li') ->
  li <= index r /\ index r + length (matched r) <= length text
  /\ matched r = Str.slice text (index r) (index r + length (matched r))
  /\ index r + length (matched r) <= li'.
Proof.
  intros Hg. unfold Host.builtinExec. rewrite Hg.
  destruct (length text <? li) eqn:Hlt; [done|].
  apply Nat.ltb_ge in Hlt.
  destruct (Host.scan _ _ _ _ _) as [[j ms]|] eqn:Hs; [|done].
  apply scan_bounds in Hs. intros [= <- <-]. simpl.
  rewrite slice_slice_length.
  assert (Hlen : length (Str.slice text j (j + mlen ms)) <= mlen ms
                 /\ j + length (Str.slice text j (j + mlen ms)) <= length text).
  { unfold Str.slice. rewrite length_take, length_drop. lia. }
  repeat split; lia.
Qed.

Lemma isGlobal_withGlobal fl : Host.isGlobal (Host.withGlobal fl) = true.
Proof.
  unfold Host.withGlobal. destruct (Host.isGlobal fl) eqn:E; [done|].
  unfold Host.isGlobal, Str.includes. rewrite existsb_app. simpl.
  by rewrite orb_true_r.
Qed.

Lemma usesLastIndex_withGlobal fl : Host.usesLastIndex (Host.withGlobal fl) = true.
Proof. unfold Host.usesLastIndex. by rewrite isGlobal_withGlobal. Qed.

Lemma chained_mono text from from' results :
  from <= from' -> chained text from' results -> chained text from results.
Proof. destruct results; simpl; [done|]. intros ? (? & ? & ? & ?). repeat split; [lia|done..]. Qed.

(** The scan loop ends on a [null] result before its fuel runs out, and
    its results are chained. *)
Lemma execAllLoop_total fuel src fl text li :
  Host.usesLastIndex fl = true ->
  length text + 2 <= fuel + li -> 1 <= fuel ->
  exists results, Host.execAllLoop fuel src fl text li = Some results
                  /\ chained text li results.
Proof.
  intros Hg. revert li. induction fuel as [|fuel IH]; intros li Hfuel Hpos; [lia|].
  simpl. destruct (Host.builtinExec src fl text li) as [[r|] li'] eqn:He.
  - destruct (builtinExec_Some _ _ _ _ _ _ Hg He) as (H1 & H2 & H3 & H4).
    set (li'' := if length (matched r) =? 0 then S li' else li').
    assert (Hstep : li < li'' /\ index r + length (matched r) <= li'').
    { unfold li''. destruct (length (matched r) =? 0) eqn:E0.
      - apply Nat.eqb_eq in E0. lia.
      - apply Nat.eqb_neq in E0. lia. }
    destruct (decide (fuel = 0)) as [->|Hne].
    { exfalso. lia. }
    destruct (IH li'') as (rs & -> & Hch); [lia|lia|].
    eexists; split; [done|]. simpl. repeat split; [done..|].
    eapply chained_mono; [|done]. lia.
  - eexists; split; done.
Qed.

Lemma execAll_loop src fl text :
  Host.usesLastIndex fl = true ->
  Host.execAllLoop (length text + 2) src fl text 0 = Some (Host.execAll src fl text)
  /\ chained text 0 (Host.execAll src fl text).
Proof.
  intros Hg. unfold Host.execAll.
  destruct (execAllLoop_total (length text + 2) src fl text 0 Hg) as (rs & -> & Hch);
    [lia..|done].
Qed.

End HostFacts.

(** ** The partition by [x] and [y] *)

Section PartitionFacts.
Context `{RegExpHost}.
Import Commands.

Lemma chained_ordered input from results :
  chained input from results ->
  ordered input from
    (map (fun r => {| text := matched r; start := index r;
                      end_ := index r + length (matched r); groups := elements r |})
         results).
Proof.
  revert from. induction results as [|r rest IH]; simpl; intros from; [done|].
  intros (H1 & H2 & H3 & H4). repeat split; [done|lia|done|done|by apply IH].
Qed.

Lemma findMatches_ordered pattern input : ordered input 0 (findMatches pattern input).
Proof.
  unfold findMatches. apply chained_ordered.
  apply execAll_loop, usesLastIndex_withGlobal.
Qed.

Lemma take_slice {A} (l : list A) a b : a <= b -> take a l ++ Str.slice l a b = take b l.
Proof.
  intros Hab. unfold Str.slice. rewrite take_take_drop. f_equal. lia.
Qed.

Lemma rebuild_ordered input from matches :
  ordered input from matches -> take from input ++ rebuild input from matches = input.
Proof.
  revert from. induction matches as [|m rest IH]; simpl; intros from.
  - intros _. apply take_drop.
  - intros (H1 & H2 & H3 & H4 & H5).
    rewrite H4, !app_assoc, take_slice, take_slice by done. by apply IH.
Qed.

Lemma xLoop_p input matches from σ :
  ordered input from matches ->
  exists lastEnd, xLoop p input matches (take from input) from σ = (take lastEnd input, lastEnd, σ).
Proof.
  revert from. induction matches as [|m rest IH]; simpl; intros from.
  - intros _. by exists from.
  - intros (H1 & H2 & H3 & H4 & H5).
    rewrite H4, take_slice, take_slice by done. by apply IH.
Qed.

Lemma yLoop_p input matches from σ :
  ordered input from matches ->
  exists lastEnd, yLoop p input matches (take from input) from σ = (take lastEnd input, lastEnd, σ).
Proof.
  revert from. induction matches as [|m rest IH]; simpl; intros from.
  - intros _. by exists from.
  - intros (H1 & H2 & H3 & H4 & H5).
    destruct (from <? start m) eqn:E; simpl.
    + rewrite H4, take_slice, take_slice by done. by apply IH.
    + apply Nat.ltb_ge in E. assert (from = start m) as -> by lia.
      rewrite H4, take_slice by done. by apply IH.
Qed.

(** On a text of 8-bit characters and for every pattern, the scan of
    [findMatches] ends on a [null] result, the matches found are in
    order, disjoint and each the text of its span; concatenating the
    spans between matches and the match spans in order gives the text
    back; and [x(P, p())] and [y(P, p())] return their input. *)
Lemma x_y_partition (pattern : RegExp) (input : str) (σ : Store) :
  Host.execAllLoop (length input + 2) (source pattern) (Host.withGlobal (flags pattern)) input 0
  = Some (Host.execAll (source pattern) (Host.withGlobal (flags pattern)) input)
  /\ ordered input 0 (findMatches pattern input)
  /\ rebuild input 0 (findMatches pattern input) = input
  /\ x pattern p input σ = (input, σ)
  /\ y pattern p input σ = (input, σ).
Proof.
  split; [apply execAll_loop, usesLastIndex_withGlobal|].
  pose proof (findMatches_ordered pattern input) as Hord.
  split; [done|]. split; [exact (rebuild_ordered input 0 _ Hord)|].
  unfold x, y. destruct (length (findMatches pattern input) =? 0); [done|].
  split.
  - destruct (xLoop_p input _ 0 σ Hord) as (e & He). rewrite take_0 in He. rewrite He.
    by rewrite take_drop.
  - destruct (yLoop_p input _ 0 σ Hord) as (e & He). rewrite take_0 in He. rewrite He.
    destruct (e <? length input) eqn:E; simpl.
    + by rewrite take_drop.
    + apply Nat.ltb_ge in E. by rewrite take_ge.
Qed.

End PartitionFacts.

(** ** The scan over UTF-16 texts *)

Section WideFacts.
Context `{Utf16.WideHost}.
Import Utf16.

Lemma pairAt_lt text i : pairAt text i = true -> S i < length text.
Proof.
  unfold pairAt. destruct (text !! i); [|done].
  destruct (text !! S i) eqn:E; [|done]. intros _. by eapply lookup_lt_Some.
Qed.

(** An empty match at the head of a surrogate pair, by a global pattern
    with [u] or [v]: [lastIndex] is left at the head of the pair, the loop
    of [findMatches] moves it to the second half, from where [exec] goes
    back to the head and finds the same match again. *)
Lemma wide_loop_stuck fuel src fl text i ms :
  Host.isGlobal fl = true -> fullUnicode fl = true -> pairAt text i = true ->
  matchAt src fl text i = Some ms -> wlen ms = 0 ->
  execAllLoop fuel src fl text (S i) = None.
Proof.
  intros Hg Hu Hpair Hm Hlen. induction fuel as [|fuel IH]; [done|].
  cbn [execAllLoop]. unfold builtinExec, Host.usesLastIndex. rewrite Hg. cbn [orb].
  replace (length text + 2) with (S (length text + 1)) by lia. cbn [scan].
  pose proof (pairAt_lt _ _ Hpair) as Hlt.
  destruct (length text <? S i) eqn:E; [apply Nat.ltb_lt in E; lia|].
  unfold characterStart. rewrite Hu, Hpair. cbn [andb]. rewrite Hm, Hlen.
  cbn [wmatched]. unfold Str.slice. rewrite Nat.add_0_r, Nat.sub_diag, take_0.
  cbn [length Nat.eqb]. by rewrite IH.
Qed.

Lemma wide_loop_mono fuel fuel' src fl text li results :
  execAllLoop fuel src fl text li = Some results -> fuel <= fuel' ->
  execAllLoop fuel' src fl text li = Some results.
Proof.
  revert fuel' li results. induction fuel as [|fuel IH]; intros fuel' li results; [done|].
  destruct fuel' as [|fuel']; [lia|]. cbn [execAllLoop].
  destruct (builtinExec src fl text li) as [[r|] li1]; [|done].
  destruct (execAllLoop fuel _ _ _ _) as [rs|] eqn:E; [|done].
  intros [= <-] Hle. by rewrite (IH fuel' _ rs E) by lia.
Qed.

End WideFacts.

(** *** Texts of 8-bit characters among the UTF-16 texts *)

Section Latin1.
Context (narrow : RegExpHost) (wide : Utf16.WideHost).
Hypothesis agree : forall src fl text i,
  Utf16.matchAt src fl (widen text) i = option_map widenState (matchAt src fl text i).

Lemma widen_length text : length (widen text) = length text.
Proof. apply length_map. Qed.

Lemma widen_slice text i j : Str.slice (widen text) i j = widen (Str.slice text i j).
Proof. unfold Str.slice, widen. by rewrite <- List.firstn_map, <- List.skipn_map. Qed.

Lemma widen_pairAt text i : Utf16.pairAt (widen text) i = false.
Proof.
  unfold Utf16.pairAt, widen. change (map N_of_ascii text) with (N_of_ascii <$> text).
  rewrite !list_lookup_fmap.
  destruct (text !! i) as [a|]; [|done]. destruct (text !! S i); [|done]. cbn.
  pose proof (N_ascii_bounded a). unfold Utf16.isLeadSurrogate.
  destruct (55296 <=? N_of_ascii a)%N eqn:E; [|done]. apply N.leb_le in E. lia.
Qed.

Lemma widen_scan count src fl text li :
  length text + 2 <= count + li ->
  Utf16.scan count src fl (widen text) li
  = if length text <? li then None
    else option_map (fun found => (found.1, widenState found.2))
           (Host.scan (S (length text) - li) src fl text li).
Proof.
  revert li. induction count as [|count IH]; intros li Hcount.
  - cbn [Utf16.scan]. destruct (length text <? li) eqn:E; [done|]. apply Nat.ltb_ge in E. lia.
  - cbn [Utf16.scan]. rewrite widen_length.
    destruct (length text <? li) eqn:E; [done|]. apply Nat.ltb_ge in E.
    replace (S (length text) - li) with (S (length text - li)) by lia. cbn [Host.scan].
    assert (Hc : Utf16.characterStart fl (widen text) li = li).
    { unfold Utf16.characterStart. destruct li; [done|]. by rewrite widen_pairAt, andb_false_r. }
    rewrite Hc, agree. destruct (matchAt src fl text li); [done|]. cbn [option_map].
    destruct (Host.isSticky fl); [done|].
    unfold Utf16.advanceStringIndex. rewrite widen_pairAt, andb_false_r, IH by lia.
    replace (li + 1) with (S li) by lia.
    destruct (length text <? S li) eqn:E1.
    + apply Nat.ltb_lt in E1. by replace (length text - li) with 0 by lia.
    + apply Nat.ltb_ge in E1. by replace (S (length text) - S li) with (length text - li) by lia.
Qed.

(** On a text of 8-bit characters, [exec] as it is written for these
    texts is the [exec] of the language on the same text read as UTF-16,
    whatever the flags. *)
Lemma widen_builtinExec src fl text li :
  Utf16.builtinExec src fl (widen text) li
  = (option_map widenResult (Host.builtinExec src fl text li).1,
     (Host.builtinExec src fl text li).2).
Proof.
  unfold Utf16.builtinExec, Host.builtinExec. rewrite widen_length, widen_scan by lia.
  destruct (length text <? _); [done|].
  destruct (Host.scan _ _ _ _ _) as [[j ms]|]; [|done].
  cbn [option_map fst snd]. unfold widenResult, widenState.
  cbn [index matched elements named Utf16.wlen Utf16.wcaptures Utf16.wnamed
       mlen mcaptures mnamed map option_map fst snd].
  by rewrite widen_slice.
Qed.

Lemma widen_execAllLoop fuel src fl text li :
  Utf16.execAllLoop fuel src fl (widen text) li
  = option_map (map widenResult) (Host.execAllLoop fuel src fl text li).
Proof.
  revert li. induction fuel as [|fuel IH]; intros li; [done|].
  cbn [Utf16.execAllLoop Host.execAllLoop]. rewrite widen_builtinExec.
  destruct (Host.builtinExec src fl text li) as [[r|] li1]; [|done]. cbn [fst snd option_map].
  cbn [widenResult Utf16.wmatched]. rewrite widen_length, IH.
  by destruct (Host.execAllLoop fuel _ _ _ _).
Qed.

(** Likewise [findMatches]: on these texts its loop ends, with the same
    matches. *)
Lemma widen_findMatches fuel pattern text :
  length text + 2 <= fuel ->
  Utf16.findMatches fuel pattern (widen text)
  = Some (map widenMatch (Commands.findMatches pattern text)).
Proof.
  intros Hfuel. unfold Utf16.findMatches, Commands.findMatches.
  destruct (execAll_loop (source pattern) (Host.withGlobal (flags pattern)) text
              (usesLastIndex_withGlobal _)) as [Hloop _].
  rewrite (wide_loop_mono (length (widen text) + 2) fuel _ _ _ _
             (map widenResult
                (Host.execAll (source pattern) (Host.withGlobal (flags pattern)) text))).
  - cbn. f_equal. rewrite !map_map. apply map_ext. intros r. unfold widenMatch. cbn.
    by rewrite widen_length.
  - by rewrite widen_execAllLoop, widen_length, Hloop.
  - by rewrite widen_length.
Qed.

End Latin1.

Lemma narrowText_widen text : narrowText (widen text) = text.
Proof.
  unfold narrowText, widen. rewrite map_map. rewrite <- (map_id text) at 2.
  apply map_ext. intros ch. apply ascii_N_embedding.
Qed.

(** Every matcher of texts of 8-bit characters is the restriction of a
    matcher of UTF-16 texts, under which [findMatches] finds the same
    matches. *)
Lemma widenHost_findMatches (host : RegExpHost) fuel pattern text :
  length text + 2 <= fuel ->
  @Utf16.findMatches (widenHost host) fuel pattern (widen text)
  = Some (map widenMatch (Commands.findMatches pattern text)).
Proof.
  apply widen_findMatches. intros src fl text' i. cbn [Utf16.matchAt widenHost].
  by rewrite narrowText_widen.
Qed.

(** *** A scan that does not end *)

Section UnicodeScan.
Existing Instance Examples.starHost.
Import Utf16.

(** C8.  The text of the one character U+1F600 is a surrogate pair.  On
    it the private object of [findMatches] for [/a*/u], with the flags
    [ug], finds the empty match at 0 and leaves [lastIndex] at 0; the loop
    moves [lastIndex] to 1, the second half of the pair, from where [exec]
    goes back to the character at 0, finds the empty match again and
    leaves [lastIndex] at 0: whatever the fuel, the loop of [findMatches]
    does not end, and neither [x(/a*/u, p())] nor [y(/a*/u, p())] returns
    the text.  Without the flag, [x(/a*/, p())] and [y(/a*/, p())] return
    it. *)
Theorem x_y_never_return_before_surrogate_pair (fuel : nat) (σ : Store) :
  pairAt Examples.grinningFace 0 = true
  /\ builtinExec "a*" "ug" Examples.grinningFace 0
     = (Some {| windex := 0; wmatched := []; welements := [Some []]; wgroups := None |}, 0)
  /\ (builtinExec "a*" "ug" Examples.grinningFace 1).2 = 0
  /\ findMatches fuel Examples.starUnicode Examples.grinningFace = None
  /\ x fuel Examples.starUnicode p Examples.grinningFace σ = None
  /\ y fuel Examples.starUnicode p Examples.grinningFace σ = None
  /\ x 4 Examples.starPlain p Examples.grinningFace σ = Some (Examples.grinningFace, σ)
  /\ y 4 Examples.starPlain p Examples.grinningFace σ = Some (Examples.grinningFace, σ).
Proof.
  split; [done|]. split; [done|]. split; [done|].
  assert (Hloop : execAllLoop fuel "a*" "ug" Examples.grinningFace 0 = None).
  { destruct fuel as [|fuel]; [done|]. cbn [execAllLoop].
    change (builtinExec "a*" "ug" Examples.grinningFace 0)
      with (Some {| windex := 0; wmatched := []; welements := [Some []]; wgroups := None |}, 0).
    cbn [wmatched length Nat.eqb].
    by rewrite (wide_loop_stuck fuel "a*" "ug" Examples.grinningFace 0
                  {| wlen := 0; wcaptures := []; wnamed := None |}). }
  assert (Hfind : findMatches fuel Examples.starUnicode Examples.grinningFace = None).
  { unfold findMatches. change (Host.withGlobal (flags Examples.starUnicode)) with (lit "ug").
    change (source Examples.starUnicode) with (lit "a*"). by rewrite Hloop. }
  split; [done|]. split; [unfold x; by rewrite Hfind|].
  split; [unfold y; by rewrite Hfind|]. split; reflexivity.
Qed.

End UnicodeScan.

(** ** The coverage of the lexer *)

Section LexerFacts.
Context `{RegExpHost}.
Import Dsl.

Lemma contiguous_app input a b c l1 l2 :
  contiguous input a b l1 -> contiguous input b c l2 -> contiguous input a c (l1 ++ l2).
Proof.
  revert a. induction l1 as [|t l1 IH]; simpl; intros a.
  - by intros ->.
  - intros (? & ? & ? & ? & ?) ?. repeat split; [done..|]. by eapply IH.
Qed.

Lemma contiguous_snoc input a b c l t :
  contiguous input a b l -> tstart t = b -> tend t = c -> b <= c -> c <= length input ->
  value_ t = Str.slice input b c -> contiguous input a c (l ++ [t]).
Proof.
  intros Hl Hs He Hle Hlen Hv. eapply contiguous_app; [done|].
  simpl. rewrite Hs, He. done.
Qed.

Lemma emitted_snoc_gap (events : list Event) tok :
  map snd (List.filter emitted (events ++ [(None, tok)]))
  = map snd (List.filter emitted events) ++ [tok].
Proof. by rewrite List.filter_app, map_app. Qed.

Lemma emitted_snoc_def (events : list Event) def tok :
  map snd (List.filter emitted (events ++ [(Some def, tok)]))
  = if negb (skip def) then map snd (List.filter emitted events) ++ [tok]
    else map snd (List.filter emitted events).
Proof.
  rewrite List.filter_app, map_app. simpl. unfold emitted at 2. simpl.
  destruct (skip def); simpl; [by rewrite app_nil_r|done].
Qed.

(** The lexer's loop emits the events of the instrumented loop that are
    not suppressed. *)
Lemma lexLoop_trace fuel defs offsets combined input li le events :
  lexLoop fuel defs offsets combined input li le (map snd (List.filter emitted events))
  = (fun '(ev, e) => (map snd (List.filter emitted ev), e))
      <$> traceLoop fuel defs offsets combined input li le events.
Proof.
  revert li le events. induction fuel as [|fuel IH]; intros li le events; simpl; [done|].
  destruct (Host.builtinExec _ _ _ _) as [[m|] li']; [|done].
  destruct (firstDefined (elements m) defs offsets) as [def|]; [|apply IH].
  rewrite <- IH. f_equal.
  rewrite emitted_snoc_def.
  destruct (le <? index m); [by rewrite emitted_snoc_gap|done].
Qed.

(** The instrumented loop ends before its fuel runs out and its tokens
    tile the input up to the last end. *)
Lemma traceLoop_total fuel defs offsets combined input li le events :
  length input + 2 <= fuel + li -> 1 <= fuel -> le <= li -> le <= length input ->
  contiguous input 0 le (map snd events) ->
  exists events' le',
    traceLoop fuel defs offsets combined input li le events = Some (events', le')
    /\ le' <= length input /\ contiguous input 0 le' (map snd events').
Proof.
  revert li le events. induction fuel as [|fuel IH]; intros li le events Hfuel Hpos Hle Hlen Hc;
    [lia|].
  simpl. destruct (Host.builtinExec _ _ _ _) as [[m|] li'] eqn:He.
  - destruct (builtinExec_Some _ ["g"%char] _ _ _ _ eq_refl He) as (H1 & H2 & H3 & H4).
    set (li'' := if length (matched m) =? 0 then S li' else li').
    assert (Hstep : li < li'' /\ index m + length (matched m) <= li'').
    { unfold li''. destruct (length (matched m) =? 0) eqn:E0.
      - apply Nat.eqb_eq in E0. lia.
      - apply Nat.eqb_neq in E0. lia. }
    assert (fuel <> 0) by lia.
    destruct (firstDefined (elements m) defs offsets) as [def|].
    + apply IH; [lia..|].
      rewrite map_app. simpl.
      eapply contiguous_snoc with (b := index m); [|done|done|lia|lia|done].
      destruct (le <? index m) eqn:E.
      * apply Nat.ltb_lt in E. rewrite map_app. simpl.
        eapply contiguous_snoc; [done|done|done|lia|lia|done].
      * apply Nat.ltb_ge in E. by assert (index m = le) as -> by lia.
    + apply IH; [lia..|done].
  - by exists events, le.
Qed.

Lemma traceRun_total defs input :
  traceRun defs input = Some (lexTrace defs input)
  /\ contiguous input 0 (length input) (map snd (lexTrace defs input)).
Proof.
  unfold lexTrace, traceRun.
  destruct (traceLoop_total (length input + 2) defs (groupOffsets defs) (combinedSource defs)
              input 0 0 []) as (events & le & -> & Hle & Hc); [lia..|done|].
  simpl. destruct (le <? length input) eqn:E; split; try done.
  - apply Nat.ltb_lt in E. rewrite map_app. simpl.
    eapply contiguous_snoc; [done|done|done|lia|lia|].
    simpl. unfold Str.slice. by rewrite take_ge by (rewrite length_drop; lia).
  - apply Nat.ltb_ge in E. by assert (length input = le) as -> by lia.
Qed.

Lemma lexRun_trace defs input :
  lexRun defs input = Some (map snd (List.filter emitted (lexTrace defs input))).
Proof.
  destruct (traceRun_total defs input) as [Ht _]. unfold lexRun, traceRun in *.
  pose proof (lexLoop_trace (length input + 2) defs (groupOffsets defs) (combinedSource defs)
                input 0 0 []) as Hl.
  simpl in Hl. rewrite Hl.
  destruct (traceLoop _ _ _ _ _ _ _ _) as [[events le]|]; [|done].
  simpl. injection Ht as <-.
  destruct (le <? length input); [by rewrite emitted_snoc_gap|done].
Qed.

Lemma groupOffsetsFrom_unskip offset defs :
  groupOffsetsFrom offset (map unskip defs) = groupOffsetsFrom offset defs.
Proof.
  revert offset. induction defs as [|def defs IH]; simpl; intros offset; [done|].
  by rewrite IH.
Qed.

Lemma combinedSource_unskip defs : combinedSource (map unskip defs) = combinedSource defs.
Proof. unfold combinedSource. by rewrite map_map. Qed.

Lemma firstDefined_unskip elems defs offsets :
  firstDefined elems (map unskip defs) offsets = unskip <$> firstDefined elems defs offsets.
Proof.
  revert offsets. induction defs as [|def defs IH]; simpl; intros [|o offsets]; try done.
  destruct (mjoin (elems !! o)); [done|apply IH].
Qed.

(** Clearing the skip flags changes nothing in the instrumented run but
    the flags carried by its events. *)
Lemma traceLoop_unskip fuel defs offsets combined input li le events :
  traceLoop fuel (map unskip defs) offsets combined input li le (map retag events)
  = (fun '(ev, e) => (map retag ev, e))
      <$> traceLoop fuel defs offsets combined input li le events.
Proof.
  revert li le events. induction fuel as [|fuel IH]; intros li le events; simpl; [done|].
  destruct (Host.builtinExec _ _ _ _) as [[m|] li']; [|done].
  rewrite firstDefined_unskip.
  destruct (firstDefined (elements m) defs offsets) as [def|]; simpl; [|apply IH].
  rewrite <- IH. f_equal.
  destruct (le <? index m); by rewrite !map_app.
Qed.

Lemma lexTrace_unskip defs input :
  lexTrace (map unskip defs) input = map retag (lexTrace defs input).
Proof.
  unfold lexTrace, traceRun, groupOffsets.
  rewrite groupOffsetsFrom_unskip, combinedSource_unskip.
  pose proof (traceLoop_unskip (length input + 2) defs (groupOffsetsFrom 1 defs)
                (combinedSource defs) input 0 0 []) as Hl.
  simpl in Hl. fold (groupOffsets defs) in *. rewrite Hl. clear Hl.
  destruct (traceLoop _ _ _ _ _ _ _ _) as [[events le]|]; [|done].
  simpl. destruct (le <? length input); [by rewrite map_app|done].
Qed.

Lemma emitted_retag (events : list Event) :
  map snd (List.filter emitted (map retag events)) = map snd events.
Proof.
  induction events as [|[[def|] tok] events IH]; simpl; [done|..]; by rewrite IH.
Qed.

(** C6.  For every list of token definitions and every input, the lexer
    returns (its loop ends), and its result is the list of events of the
    instrumented run that are not suppressed, where (1) the tokens of all
    events, [ERROR] tokens included, tile the input from 0 to its length:
    the first starts at 0, each starts where the previous one ends, the
    last ends at the length, each carries the text it covers; (2) they
    are the tokens the lexer returns when no definition is skip-marked;
    (3) only events of skip-marked definitions are suppressed, never an
    [ERROR] gap; (4) definitions that differ in their skip flags only
    give the same events. *)
Theorem lexer_coverage (defs : list TokenDef) (input : str) :
  lexRun defs input = Some (createLexer defs input)
  /\ createLexer defs input = map snd (List.filter emitted (lexTrace defs input))
  /\ contiguous input 0 (length input) (map snd (lexTrace defs input))
  /\ map snd (lexTrace defs input) = createLexer (map unskip defs) input
  /\ (forall e, e ∈ lexTrace defs input -> emitted e = false ->
        exists def, e.1 = Some def /\ skip def = true)
  /\ (forall defs', map unskip defs' = map unskip defs ->
        map retag (lexTrace defs' input) = map retag (lexTrace defs input)).
Proof.
  assert (Hrun : forall ds, createLexer ds input
                            = map snd (List.filter emitted (lexTrace ds input))).
  { intros ds. unfold createLexer. by rewrite lexRun_trace. }
  split; [by rewrite lexRun_trace, Hrun|].
  split; [apply Hrun|].
  split; [apply traceRun_total|].
  split; [by rewrite Hrun, lexTrace_unskip, emitted_retag|].
  split.
  - intros [[def|] tok] _; unfold emitted; simpl; [|done].
    intros Hs. exists def. split; [done|]. by destruct (skip def).
  - intros defs' Heq. by rewrite <- !lexTrace_unskip, Heq.
Qed.

End LexerFacts.

(** ** Commands over a shared pattern object *)

Section SharedPattern.
Import Commands.
Existing Instance Examples.literalHost.

(** C5.  The command [g(/a/g, c('X'))] applied twice to ['a'] returns
    ['X'] and then ['a']: the first call leaves [lastIndex = 1] in the
    pattern object and the second test starts there.  [v] and [ifMatch]
    behave alike, whereas [x], [y] and [s], which copy the pattern, return
    the same output on both calls. *)
Theorem g_v_ifMatch_keep_lastIndex :
  let twice (cmd : Command) (input : str) :=
    let '(out1, σ1) := cmd input ∅ in
    let '(out2, σ2) := cmd input σ1 in (out1, out2, σ1 !! cell Examples.patternA) in
  twice (g Examples.patternA (c "X")) "a" = (lit "X", lit "a", Some 1)
  /\ twice (v Examples.patternA (c "X")) "a" = (lit "a", lit "X", Some 1)
  /\ twice (ifMatch Examples.patternA (c "yes") (c "no")) "a" = (lit "yes", lit "no", Some 1)
  /\ twice (x Examples.patternA (c "X")) "a" = (lit "X", lit "X", None)
  /\ twice (y Examples.patternA (c "X")) "ab" = (lit "aX", lit "aX", None)
  /\ twice (s Examples.patternA "X") "a" = (lit "X", lit "X", None).
Proof. vm_compute. repeat split. Qed.

End SharedPattern.

(** ** The group offsets of the lexer *)

Section GroupOffsets.
Import Dsl.
Existing Instance Examples.namedGroupHost.

(** C7.  [countGroups] finds no capturing group in [(?<x>a)], which has
    one, and one in [[(]], which has none.  For the definitions A =
    [/(?<x>a)/], B = [/b/], C = [/c/] the offsets computed are 1, 2, 3
    while the wrappers of the combined pattern [((?<x>a))|(b)|(c)] are the
    groups 1, 3, 4; on the input ['b'] the match has group 3 defined, and
    the token emitted carries the name C. *)
Theorem countGroups_misses_named_groups :
  countGroups "(?<x>a)" = 0
  /\ countGroups "[(]" = 1
  /\ groupOffsets Examples.namedDefs = [1; 2; 3]
  /\ combinedSource Examples.namedDefs = lit "((?<x>a))|(b)|(c)"
  /\ elements <$> (Host.builtinExec (combinedSource Examples.namedDefs) "g" "b" 0).1
     = Some [Some (lit "b"); None; None; Some (lit "b"); None]
  /\ map (fun t => (type t, value_ t)) (createLexer Examples.namedDefs "b") = [(lit "C", lit "b")].
Proof. vm_compute. repeat split. Qed.

End GroupOffsets.

(** ** The captures of a glob *)

Section GlobCaptures.
Import Glob.

(** [extract] answers as [matchSegments] does, whatever it leaves in the
    captures. *)
Lemma extract_found segments pathParts pi captures :
  (extract segments pathParts pi captures).1 = matchSegments segments pathParts pi.
Proof.
  revert pi captures. induction segments as [|segment rest IH]; intros pi captures; [done|].
  destruct segment as [value| |]; simpl.
  - destruct (length pathParts <=? pi); [done|].
    destruct (negb _); [done|apply IH].
  - destruct (length pathParts <=? pi); [done|apply IH].
  - generalize 0 as skip. revert captures.
    induction (S (length pathParts) - pi) as [|count IHc]; intros captures skip; [done|].
    specialize (IH (pi + skip) captures).
    destruct (extract rest pathParts (pi + skip) captures) as [found captures1].
    simpl in IH. rewrite <- IH. destruct found; [done|apply IHc].
Qed.

(** X21.  [extractGlobCaptures] returns [null] exactly when [globMatch]
    answers [false]. *)
Lemma extractGlobCaptures_None pattern path :
  extractGlobCaptures pattern path = None <-> globMatch pattern path = false.
Proof.
  unfold extractGlobCaptures, globMatch, matches, compileGlob. simpl.
  rewrite <- (extract_found _ _ 0 []).
  destruct (extract _ _ 0 []) as [[] captures]; simpl; split; done.
Qed.

(** C4.  For the pattern [/**/x/*] and the path [/a/x/b] the captures
    come out as [b, a]: the run taken by the double wildcard is pushed
    after the captures of the segments that follow it.  For [/**/*/b] and
    [/a/x/b] they come out as [a, x, a]: the first [a] was pushed by the
    single wildcard in the branch where the double wildcard took nothing,
    which then failed. *)
Theorem extractGlobCaptures_order :
  extractGlobCaptures "/**/x/*" "/a/x/b" = Some [lit "b"; lit "a"]
  /\ extractGlobCaptures "/**/*/b" "/a/x/b" = Some [lit "a"; lit "x"; lit "a"]
  /\ extractGlobCaptures "/u/*/p/*" "/u/1/p/2" = Some [lit "1"; lit "2"]
  /\ extractGlobCaptures "/u/*" "/p/1" = None.
Proof. vm_compute. repeat split. Qed.

End GlobCaptures.

(** ** Replacement of literal placeholders *)

Section ReplaceFacts.
Import Template.

Lemma plain_nil : plain [].
Proof. done. Qed.

Lemma plain_cons ch s : plain (ch :: s) <-> ch <> "$"%char /\ plain s.
Proof.
  unfold plain, plainb. cbn [forallb].
  rewrite andb_true_iff, negb_true_iff.
  split; intros [Hne Hs]; (split; [|done]); by apply Ascii.eqb_neq.
Qed.

Lemma plain_app a b : plain (a ++ b) <-> plain a /\ plain b.
Proof. unfold plain, plainb. rewrite forallb_app, andb_true_iff. done. Qed.

Lemma startsWith_app p s : Str.startsWith p (p ++ s) = true.
Proof. induction p as [|a p IH]; simpl; [done|]. by rewrite Ascii.eqb_refl. Qed.

Lemma startsWith_dollar nb ch rest :
  ch <> "$"%char -> Str.startsWith ("$"%char :: nb) (ch :: rest) = false.
Proof.
  intros Hne. cbn [Str.startsWith]. destruct (Ascii.eqb_spec "$" ch) as [Heq|]; [by subst|done].
Qed.

(** A plain replacement is inserted as it is. *)
Lemma getSubstitution_plain matchedText text position captures namedCaptures r :
  plain r ->
  Host.getSubstitution matchedText text position captures namedCaptures None r = r.
Proof.
  induction r as [|ch r IH]; [done|]. intros [Hne Hr]%plain_cons.
  cbn [Host.getSubstitution].
  destruct (Ascii.eqb_spec ch "$"); [done|]. cbn [negb]. by rewrite IH.
Qed.

Lemma replaceLiteralFrom_plain nb r whole text position :
  plain text -> replaceLiteralFrom ("$"%char :: nb) r whole text position 0 = text.
Proof.
  revert position. induction text as [|ch text IH]; intros position; [done|].
  intros [Hne Ht]%plain_cons.
  cbn [replaceLiteralFrom]. rewrite startsWith_dollar by done. by rewrite IH.
Qed.

Lemma replaceLiteralFrom_skip needle r whole a rest position :
  replaceLiteralFrom needle r whole (a ++ rest) position (length a)
  = replaceLiteralFrom needle r whole rest (position + length a) 0.
Proof.
  revert position. induction a as [|ch a IH]; intros position; simpl.
  - by rewrite Nat.add_0_r.
  - rewrite IH. f_equal. lia.
Qed.

Lemma replaceLiteralFrom_pre nb r whole pre rest position :
  plain pre ->
  replaceLiteralFrom ("$"%char :: nb) r whole (pre ++ rest) position 0
  = pre ++ replaceLiteralFrom ("$"%char :: nb) r whole rest (position + length pre) 0.
Proof.
  revert position. induction pre as [|ch pre IH]; intros position.
  - intros _. simpl. by rewrite Nat.add_0_r.
  - intros [Hne Ht]%plain_cons.
    change ((ch :: pre) ++ rest) with (ch :: (pre ++ rest)).
    cbn [replaceLiteralFrom]. rewrite startsWith_dollar by done.
    rewrite IH by done. simpl. do 3 f_equal. lia.
Qed.

Lemma replaceLiteralFrom_hit nb r whole rest position :
  replaceLiteralFrom ("$"%char :: nb) r whole ("$"%char :: nb ++ rest) position 0
  = Host.getSubstitution ("$"%char :: nb) whole position [] None None r
    ++ replaceLiteralFrom ("$"%char :: nb) r whole rest (position + S (length nb)) 0.
Proof.
  cbn [replaceLiteralFrom].
  change ("$"%char :: nb ++ rest) with (("$"%char :: nb) ++ rest).
  rewrite startsWith_app. f_equal.
  change (length ("$"%char :: nb) - 1) with (S (length nb) - 1).
  rewrite Nat.sub_succ, Nat.sub_0_r, replaceLiteralFrom_skip. f_equal. lia.
Qed.

Lemma replaceLiteralFrom_miss nb r whole rest position :
  Str.startsWith nb rest = false ->
  replaceLiteralFrom ("$"%char :: nb) r whole ("$"%char :: rest) position 0
  = "$"%char :: replaceLiteralFrom ("$"%char :: nb) r whole rest (S position) 0.
Proof.
  intros Hmiss. cbn [replaceLiteralFrom Str.startsWith]. by rewrite Ascii.eqb_refl, Hmiss.
Qed.

Lemma matchDataAt_plain_head ch rest : ch <> "$"%char -> matchDataAt (ch :: rest) = None.
Proof.
  intros Hne. unfold matchDataAt.
  change (Str.startsWith "${data." (ch :: rest))
    with (Str.startsWith ("$"%char :: lit "{data.") (ch :: rest)).
  by rewrite startsWith_dollar.
Qed.

Lemma replaceDataFrom_plain replacer text :
  plain text -> replaceDataFrom replacer text 0 = text.
Proof.
  induction text as [|ch text IH]; [done|]. intros [Hne Ht]%plain_cons.
  cbn [replaceDataFrom]. rewrite matchDataAt_plain_head by done. by rewrite IH.
Qed.

Lemma replaceDataFrom_pre replacer pre rest :
  plain pre -> replaceDataFrom replacer (pre ++ rest) 0 = pre ++ replaceDataFrom replacer rest 0.
Proof.
  induction pre as [|ch pre IH]; [done|]. intros [Hne Ht]%plain_cons.
  change ((ch :: pre) ++ rest) with (ch :: (pre ++ rest)).
  cbn [replaceDataFrom]. rewrite matchDataAt_plain_head by done. by rewrite IH.
Qed.

Lemma replaceDataFrom_miss replacer rest :
  Str.startsWith "{data." rest = false ->
  replaceDataFrom replacer ("$"%char :: rest) 0 = "$"%char :: replaceDataFrom replacer rest 0.
Proof.
  intros Hmiss. cbn [replaceDataFrom]. unfold matchDataAt.
  change (Str.startsWith "${data." ("$"%char :: rest))
    with (Ascii.eqb "$" "$" && Str.startsWith "{data." rest).
  by rewrite Hmiss.
Qed.

End ReplaceFacts.

(** ** Decimal indices *)

Section DecimalFacts.

Lemma string_of_uint_digits u :
  forallb Str.isDigit (lit (NilEmpty.string_of_uint u)) = true.
Proof. induction u; cbn [NilEmpty.string_of_uint lit list_ascii_of_string forallb]; by try rewrite IHu. Qed.

Lemma ofNat_digits i : forallb Str.isDigit (Str.ofNat i) = true.
Proof. apply string_of_uint_digits. Qed.

Lemma ofNat_inj i j : Str.ofNat i = Str.ofNat j -> i = j.
Proof.
  unfold Str.ofNat, lit. intros Heq.
  apply (f_equal string_of_list_ascii) in Heq.
  rewrite !string_of_list_ascii_of_string in Heq.
  apply (f_equal NilEmpty.uint_of_string) in Heq.
  rewrite !NilEmpty.usu in Heq. injection Heq as Heq.
  apply (f_equal Nat.of_uint) in Heq. by rewrite !Unsigned.of_to in Heq.
Qed.

Lemma digits_plain s : forallb Str.isDigit s = true -> plain s.
Proof.
  induction s as [|ch s IH]; [done|]. cbn [forallb]. intros [Hd Hs]%andb_true_iff.
  apply plain_cons. split; [|by apply IH]. by intros ->.
Qed.

(** Two digit strings, each closed by a brace: one is a prefix of the
    other only if they are the same. *)
Lemma startsWith_digits a b x y :
  forallb Str.isDigit a = true -> forallb Str.isDigit b = true ->
  Str.startsWith (a ++ "}"%char :: x) (b ++ "}"%char :: y) = true -> a = b.
Proof.
  revert b. induction a as [|c a IH]; intros [|d b]; cbn [forallb app Str.startsWith]; try done.
  - intros _ [Hd _]%andb_true_iff [He _]%andb_true_iff.
    apply Ascii.eqb_eq in He. by subst.
  - intros [Hc _]%andb_true_iff _ [He _]%andb_true_iff.
    apply Ascii.eqb_eq in He. by subst.
  - intros [_ Ha]%andb_true_iff [_ Hb]%andb_true_iff [He Hs]%andb_true_iff.
    apply Ascii.eqb_eq in He. subst. f_equal. by apply IH.
Qed.

(** A character that is neither a digit nor a closing brace starts no
    digit string closed by a brace. *)
Lemma startsWith_letter c rest d y :
  Str.isDigit c = false -> c <> "}"%char -> forallb Str.isDigit d = true ->
  Str.startsWith (c :: rest) (d ++ "}"%char :: y) = false.
Proof.
  intros Hc Hb Hd. destruct d as [|d0 d]; cbn [app Str.startsWith].
  - destruct (Ascii.eqb_spec c "}"); done.
  - cbn [forallb] in Hd. apply andb_true_iff in Hd as [Hd0 _].
    destruct (Ascii.eqb_spec c d0); [congruence|done].
Qed.

End DecimalFacts.

(** ** Plain texts through the passes *)

Section PlainPasses.
Import Template.
Context `{ValueHost}.

Lemma capturesLoop_plain caps i text : plain text -> capturesLoop caps i text = text.
Proof.
  revert i. induction caps as [|c caps IH]; intros i Ht; [done|].
  cbn [capturesLoop].
  change ("${" ++ Str.ofNat i ++ "}") with ("$"%char :: ("{"%char :: Str.ofNat i ++ ["}"%char])).
  unfold replaceLiteral. rewrite replaceLiteralFrom_plain by done. by apply IH.
Qed.

Lemma pathLoop_plain segments i text : plain text -> pathLoop segments i text = text.
Proof.
  revert i. induction segments as [|c segments IH]; intros i Ht; [done|].
  cbn [pathLoop].
  change ("${path." ++ Str.ofNat i ++ "}")
    with ("$"%char :: (lit "{path." ++ Str.ofNat i ++ ["}"%char])).
  unfold replaceLiteral. rewrite replaceLiteralFrom_plain by done. by apply IH.
Qed.

(** Every pass leaves a plain text as it is. *)
Lemma capturesPass_plain ctx text : plain text -> capturesPass ctx text = text.
Proof. intros Ht. unfold capturesPass. destruct (captures ctx); [by apply capturesLoop_plain|done]. Qed.

Lemma pathPass_plain ctx text : plain text -> pathPass ctx text = text.
Proof. intros Ht. unfold pathPass. destruct (path ctx); [by apply pathLoop_plain|done]. Qed.

Lemma uuidPass_plain id text : plain text -> uuidPass id text = text.
Proof. intros Ht. by apply (replaceLiteralFrom_plain (lit "{uuid}")). Qed.

Lemma inputPass_plain ctx text : plain text -> inputPass ctx text = text.
Proof.
  intros Ht. unfold inputPass. destruct (input ctx); [|done].
  by apply (replaceLiteralFrom_plain (lit "{input}")).
Qed.

Lemma dataPass_plain ctx text : plain text -> dataPass ctx text = text.
Proof. intros Ht. unfold dataPass. destruct (data ctx); [by apply replaceDataFrom_plain|done]. Qed.

End PlainPasses.

(** ** Numbered placeholders *)

Section CapturePlaceholder.
Import Template.
Context `{ValueHost}.

Lemma render_cons item items : render (item :: items) = renderItem item ++ render items.
Proof. done. Qed.

Lemma numbered_shape n rest :
  renderItem (Numbered n) ++ rest
  = "$"%char :: ("{"%char :: Str.ofNat n ++ ["}"%char]) ++ rest.
Proof. cbn [renderItem lit list_ascii_of_string app]. by rewrite <- app_assoc. Qed.

Lemma braces_plain n : plain ("{"%char :: Str.ofNat n ++ ["}"%char]).
Proof.
  apply plain_cons. split; [done|]. apply plain_app. split; [|done].
  apply digits_plain, ofNat_digits.
Qed.

Lemma plainItems_cons item items :
  plainItems (item :: items) = true
  <-> match item with Text s => plain s | Numbered _ => True end /\ plainItems items = true.
Proof.
  unfold plainItems. cbn [forallb]. rewrite andb_true_iff.
  destruct item; unfold plain; intuition.
Qed.

Lemma plainItems_fill1 i r items :
  plain r -> plainItems items = true -> plainItems (map (fill1 i r) items) = true.
Proof.
  intros Hr. induction items as [|item items IH]; [done|].
  intros [Hi Hrest]%plainItems_cons. cbn [map]. apply plainItems_cons.
  split; [|by apply IH]. destruct item as [s|n]; cbn [fill1]; [done|].
  by destruct (n =? i).
Qed.

Lemma replace_items i r whole items position :
  plainItems items = true -> plain r ->
  replaceLiteralFrom ("${" ++ Str.ofNat i ++ "}") r whole (render items) position 0
  = render (map (fill1 i r) items).
Proof.
  intros Hitems Hr. revert position.
  change ("${" ++ Str.ofNat i ++ "}") with ("$"%char :: ("{"%char :: Str.ofNat i ++ ["}"%char])).
  induction items as [|item items IH]; intros position; [done|].
  apply plainItems_cons in Hitems as [Hi Hrest].
  cbn [map]. rewrite !render_cons. destruct item as [s|n].
  - cbn [fill1 renderItem]. rewrite replaceLiteralFrom_pre by done. by rewrite IH.
  - cbn [fill1]. rewrite numbered_shape. destruct (Nat.eqb_spec n i) as [->|Hne].
    + rewrite replaceLiteralFrom_hit, getSubstitution_plain by done. by rewrite IH.
    + rewrite replaceLiteralFrom_miss.
      * rewrite replaceLiteralFrom_pre by apply braces_plain.
        rewrite IH by done. by rewrite numbered_shape.
      * change (Str.startsWith ("{"%char :: Str.ofNat i ++ ["}"%char])
                  (("{"%char :: Str.ofNat n ++ ["}"%char]) ++ render items))
          with (Ascii.eqb "{" "{"
                && Str.startsWith (Str.ofNat i ++ ["}"%char])
                     ((Str.ofNat n ++ ["}"%char]) ++ render items)).
        rewrite <- app_assoc. cbn [app andb Ascii.eqb Bool.eqb].
        destruct (Str.startsWith _ _) eqn:E; [|done].
        apply startsWith_digits in E; [|apply ofNat_digits..].
        apply ofNat_inj in E. congruence.
Qed.

(** A pattern whose text after [${] starts with neither a digit nor a
    closing brace occurs nowhere in a template of texts and numbered
    placeholders. *)
Lemma miss_items c rest r whole items position :
  plainItems items = true -> Str.isDigit c = false -> c <> "}"%char ->
  replaceLiteralFrom ("$"%char :: "{"%char :: c :: rest) r whole (render items) position 0
  = render items.
Proof.
  intros Hitems Hc Hb. revert position.
  induction items as [|item items IH]; intros position; [done|].
  apply plainItems_cons in Hitems as [Hi Hrest].
  rewrite !render_cons. destruct item as [s|n].
  - cbn [renderItem]. rewrite replaceLiteralFrom_pre by done. by rewrite IH.
  - rewrite numbered_shape. rewrite replaceLiteralFrom_miss.
    + rewrite replaceLiteralFrom_pre by apply braces_plain. by rewrite IH.
    + change (Str.startsWith ("{"%char :: c :: rest)
                (("{"%char :: Str.ofNat n ++ ["}"%char]) ++ render items))
        with (Ascii.eqb "{" "{"
              && Str.startsWith (c :: rest) ((Str.ofNat n ++ ["}"%char]) ++ render items)).
      rewrite <- app_assoc. cbn [app andb Ascii.eqb Bool.eqb].
      apply startsWith_letter; [done|done|apply ofNat_digits].
Qed.

Lemma data_items replacer items :
  plainItems items = true -> replaceDataFrom replacer (render items) 0 = render items.
Proof.
  intros Hitems. induction items as [|item items IH]; [done|].
  apply plainItems_cons in Hitems as [Hi Hrest].
  rewrite !render_cons. destruct item as [s|n].
  - cbn [renderItem]. rewrite replaceDataFrom_pre by done. by rewrite IH.
  - rewrite numbered_shape. rewrite replaceDataFrom_miss.
    + rewrite replaceDataFrom_pre by apply braces_plain. by rewrite IH.
    + change (Str.startsWith "{data." (("{"%char :: Str.ofNat n ++ ["}"%char]) ++ render items))
        with (Ascii.eqb "{" "{"
              && Str.startsWith ("d"%char :: lit "ata.")
                   ((Str.ofNat n ++ ["}"%char]) ++ render items)).
      rewrite <- app_assoc. cbn [app andb Ascii.eqb Bool.eqb].
      apply startsWith_letter; [done|done|apply ofNat_digits].
Qed.

Lemma fill_fill1 c caps i item :
  fill caps (S i) (fill1 i (default [] c) item) = fill (c :: caps) i item.
Proof.
  destruct item as [s|n]; [done|]. cbn [fill1 fill length].
  destruct (Nat.eqb_spec n i) as [->|Hne].
  - cbn [fill]. rewrite Nat.leb_refl, Nat.sub_diag.
    by replace (i <? i + S (length caps)) with true by (symmetry; apply Nat.ltb_lt; lia).
  - cbn [fill].
    destruct (Nat.leb_spec (S i) n), (Nat.leb_spec i n); try lia; cbn [andb]; [|done].
    destruct (Nat.ltb_spec n (S i + length caps)), (Nat.ltb_spec n (i + S (length caps)));
      try lia; [|done].
    by replace (n - i) with (S (n - S i)) by lia.
Qed.

Lemma plainCaptures_cons c caps :
  plainCaptures (c :: caps) = true <-> plain (default [] c) /\ plainCaptures caps = true.
Proof. unfold plainCaptures. cbn [forallb]. by rewrite andb_true_iff. Qed.

Lemma capturesLoop_items caps i items :
  plainItems items = true -> plainCaptures caps = true ->
  capturesLoop caps i (render items) = render (map (fill caps i) items).
Proof.
  revert i items. induction caps as [|c caps IH]; intros i items Hitems Hcaps.
  - cbn [capturesLoop]. f_equal. rewrite <- (map_id items) at 1.
    apply map_ext. intros [s|n]; [done|]. cbn [fill length].
    destruct (Nat.leb_spec i n), (Nat.ltb_spec n (i + 0)); try lia; done.
  - apply plainCaptures_cons in Hcaps as [Hc Hrest].
    cbn [capturesLoop]. unfold replaceLiteral. rewrite replace_items by done.
    rewrite IH by (done || by apply plainItems_fill1).
    rewrite map_map. f_equal. apply map_ext. intros item. apply fill_fill1.
Qed.

Lemma render_fill caps items :
  render (map (fill caps 0) items) = concat (map (expandItem caps) items).
Proof.
  unfold render. rewrite map_map. f_equal. apply map_ext. intros [s|n]; [done|].
  cbn [fill expandItem Nat.leb andb Nat.add]. rewrite Nat.sub_0_r.
  destruct (Nat.ltb_spec n (length caps)) as [Hlt|Hge].
  - destruct (lookup_lt_is_Some_2 caps n Hlt) as [c ->]. done.
  - by rewrite (lookup_ge_None_2 caps n Hge).
Qed.

Lemma plainItems_fill caps i items :
  plainItems items = true -> plainCaptures caps = true ->
  plainItems (map (fill caps i) items) = true.
Proof.
  intros Hitems Hcaps. induction items as [|item items IH]; [done|].
  apply plainItems_cons in Hitems as [Hi Hrest]. cbn [map]. apply plainItems_cons.
  split; [|by apply IH]. destruct item as [s|n]; cbn [fill]; [done|].
  destruct (_ && _); [|done].
  destruct (caps !! (n - i)) as [c|] eqn:E; [|done]. cbn [mjoin option_join].
  unfold plainCaptures in Hcaps. rewrite forallb_forall in Hcaps.
  apply Hcaps. apply list_elem_of_In. by eapply list_elem_of_lookup_2.
Qed.

(** C9, as amended.  For every template made of texts without [$] and of
    placeholders [${N}], in any number and order, and for every context
    whose captures hold no [$]: each placeholder whose index is within the
    bounds of the captures list is replaced by that capture (by the empty
    string if the capture is undefined), and each placeholder whose index
    is out of bounds is left in the output unchanged. *)
Theorem capture_placeholder (items : list TemplateItem) (ctx : TemplateContext)
    (caps : list (option str)) (w : World) :
  plainItems items = true ->
  captures ctx = Some caps ->
  plainCaptures caps = true ->
  (substituteString (render items) ctx w).1 = concat (map (expandItem caps) items).
Proof.
  intros Hitems Hcaps Hplain. unfold substituteString, capturesPass. rewrite Hcaps.
  rewrite capturesLoop_items by done.
  pose proof (plainItems_fill caps 0 items Hitems Hplain) as Hfilled.
  destruct (generateId w) as [id w1]. cbn [fst].
  assert (Hp : pathPass ctx (render (map (fill caps 0) items))
               = render (map (fill caps 0) items)).
  { unfold pathPass. destruct (path ctx) as [segments|]; [|done].
    generalize 0 at 1 as i. induction segments as [|c segments IH]; intros i; [done|].
    cbn [pathLoop]. unfold replaceLiteral.
    change ("${path." ++ Str.ofNat i ++ "}")
      with ("$"%char :: "{"%char :: "p"%char :: (lit "ath." ++ Str.ofNat i ++ ["}"%char])).
    rewrite miss_items by done. apply IH. }
  assert (Hu : uuidPass id (render (map (fill caps 0) items))
               = render (map (fill caps 0) items)).
  { apply (miss_items "u" (lit "uid}")); done. }
  assert (Hi : inputPass ctx (render (map (fill caps 0) items))
               = render (map (fill caps 0) items)).
  { unfold inputPass. destruct (input ctx); [|done].
    apply (miss_items "i" (lit "nput}")); done. }
  assert (Hd : dataPass ctx (render (map (fill caps 0) items))
               = render (map (fill caps 0) items)).
  { unfold dataPass. destruct (data ctx); [by apply data_items|done]. }
  rewrite Hp, Hu, Hi, Hd. apply render_fill.
Qed.

End CapturePlaceholder.

Section CaptureExamples.
Import Template.
Existing Instance Examples.valueHost.

(** The placeholder [${1}] within bounds and the placeholder [${2}] out
    of bounds, in the same template and context. *)
Lemma capture_placeholder_witness :
  (substituteString "User: ${1}, ${2}!" Examples.aliceContext Examples.world0).1
  = lit "User: alice, ${2}!".
Proof.
  apply (capture_placeholder
           [Text (lit "User: "); Numbered 1; Text (lit ", "); Numbered 2; Text (lit "!")]
           Examples.aliceContext _ Examples.world0 eq_refl eq_refl eq_refl).
Defined.

(** C9 as stated fails: with two captures, the placeholder [${5}] is out
    of bounds and is left in the output; it does not expand to the empty
    string.  Within bounds, a capture is expanded as a replacement string:
    the capture [$&] gives back the placeholder it replaces. *)
Lemma capture_out_of_bounds_kept :
  (substituteString "${5}" Examples.aliceContext Examples.world0).1 = lit "${5}"
  /\ (substituteString "${5}" Examples.aliceContext Examples.world0).1 <> []
  /\ (substituteString "${1}"
        (Examples.contextOf (Some [Some (lit "m"); Some (lit "$&")]) None None None)
        Examples.world0).1 = lit "${1}".
Proof. vm_compute. repeat split; done. Qed.

End CaptureExamples.

(** ** Generated identifiers *)

Section UuidFacts.
Import Template.
Context `{ValueHost}.

Lemma hexDigit_plain k : (0 <= k < 16)%Z -> hexDigit k <> "$"%char.
Proof.
  intros Hk. rewrite <- (Z2Nat.id k) by lia.
  assert (Hn : Z.to_nat k < 16) by lia. revert Hn. generalize (Z.to_nat k) as n.
  intros n. do 16 (destruct n as [|n]; [done|]). lia.
Qed.

Lemma toString16_plain digits value acc : plain acc -> plain (toString16 digits value acc).
Proof.
  revert value acc. induction digits as [|digits IH]; intros value acc Hacc; [done|].
  cbn [toString16].
  assert (plain (hexDigit (value mod 16) :: acc)).
  { apply plain_cons. split; [|done]. apply hexDigit_plain. by apply Z.mod_pos_bound. }
  destruct (value / 16 =? 0)%Z; [done|by apply IH].
Qed.

Lemma generateId_plain w : plain (generateId w).1.
Proof.
  unfold generateId, padStart. cbn [fst]. apply plain_app. split.
  - generalize (8 - length (toString16 8
        (Z.lxor (dateNow w (calls w) mod 2 ^ 32) (randomDraw w (calls w) mod 65535) mod 2 ^ 32)
        [])).
    intros k. induction k as [|k IH]; [done|]. by apply plain_cons.
  - by apply toString16_plain.
Qed.

Lemma join_plain sep pieces :
  plain sep -> forallb plainb pieces = true -> plain (Str.join sep pieces).
Proof.
  intros Hsep. induction pieces as [|piece rest IH]; [done|].
  cbn [forallb]. intros [Hp Hrest]%andb_true_iff. destruct rest as [|q rest]; [done|].
  change (Str.join sep (piece :: q :: rest)) with (piece ++ sep ++ Str.join sep (q :: rest)).
  apply plain_app; split; [done|]. apply plain_app; split; [done|by apply IH].
Qed.

Lemma startsWith_digits_letter d x c t :
  forallb Str.isDigit d = true -> Str.isDigit c = false -> c <> "}"%char ->
  Str.startsWith (d ++ "}"%char :: x) (c :: t) = false.
Proof.
  intros Hd Hc Hb. destruct d as [|d0 d]; cbn [app Str.startsWith].
  - destruct (Ascii.eqb_spec "}" c); [congruence|done].
  - cbn [forallb] in Hd. apply andb_true_iff in Hd as [Hd0 _].
    destruct (Ascii.eqb_spec d0 c); [congruence|done].
Qed.

(** A template made of plain pieces separated by [${uuid}]. *)
Lemma uuidTemplate_miss nb r whole pieces position :
  (forall t, Str.startsWith nb (lit "{uuid}" ++ t) = false) ->
  forallb plainb pieces = true ->
  replaceLiteralFrom ("$"%char :: nb) r whole (Str.join "${uuid}" pieces) position 0
  = Str.join "${uuid}" pieces.
Proof.
  intros Hmiss. revert position.
  induction pieces as [|piece rest IH]; intros position; [done|].
  cbn [forallb]. intros [Hp Hrest]%andb_true_iff. destruct rest as [|q rest].
  - by apply replaceLiteralFrom_plain.
  - change (Str.join "${uuid}" (piece :: q :: rest))
      with (piece ++ "$"%char :: (lit "{uuid}" ++ Str.join "${uuid}" (q :: rest))).
    rewrite replaceLiteralFrom_pre by done. rewrite replaceLiteralFrom_miss by apply Hmiss.
    rewrite (replaceLiteralFrom_pre nb r whole (lit "{uuid}")) by done.
    by rewrite IH.
Qed.

Lemma uuidTemplate_hit r whole pieces position :
  plain r -> forallb plainb pieces = true ->
  replaceLiteralFrom "${uuid}" r whole (Str.join "${uuid}" pieces) position 0
  = Str.join r pieces.
Proof.
  intros Hr. revert position.
  induction pieces as [|piece rest IH]; intros position; [done|].
  cbn [forallb]. intros [Hp Hrest]%andb_true_iff. destruct rest as [|q rest].
  - by apply (replaceLiteralFrom_plain (lit "{uuid}")).
  - change (Str.join "${uuid}" (piece :: q :: rest))
      with (piece ++ "$"%char :: lit "{uuid}" ++ Str.join "${uuid}" (q :: rest)).
    change (Str.join r (piece :: q :: rest)) with (piece ++ r ++ Str.join r (q :: rest)).
    rewrite (replaceLiteralFrom_pre (lit "{uuid}")) by done.
    rewrite replaceLiteralFrom_hit, getSubstitution_plain by done.
    by rewrite IH.
Qed.

Lemma uuidTemplate_data replacer pieces :
  forallb plainb pieces = true ->
  replaceDataFrom replacer (Str.join "${uuid}" pieces) 0 = Str.join "${uuid}" pieces.
Proof.
  induction pieces as [|piece rest IH]; [done|].
  cbn [forallb]. intros [Hp Hrest]%andb_true_iff. destruct rest as [|q rest].
  - by apply replaceDataFrom_plain.
  - change (Str.join "${uuid}" (piece :: q :: rest))
      with (piece ++ "$"%char :: (lit "{uuid}" ++ Str.join "${uuid}" (q :: rest))).
    rewrite replaceDataFrom_pre by done. rewrite replaceDataFrom_miss by done.
    rewrite (replaceDataFrom_pre replacer (lit "{uuid}")) by done.
    by rewrite IH.
Qed.

Lemma uuidTemplate_captures caps i pieces :
  forallb plainb pieces = true ->
  capturesLoop caps i (Str.join "${uuid}" pieces) = Str.join "${uuid}" pieces.
Proof.
  intros Hp. revert i. induction caps as [|c caps IH]; intros i; [done|].
  cbn [capturesLoop]. rewrite <- (IH (S i)) at 2. f_equal.
  apply (uuidTemplate_miss ("{"%char :: Str.ofNat i ++ ["}"%char])); [|done].
  intros t.
  change (Str.startsWith ("{"%char :: Str.ofNat i ++ ["}"%char]) (lit "{uuid}" ++ t))
    with (Ascii.eqb "{" "{"
          && Str.startsWith (Str.ofNat i ++ ["}"%char]) ("u"%char :: lit "uid}" ++ t)).
  rewrite startsWith_digits_letter; [done|apply ofNat_digits|done..].
Qed.

Lemma uuidTemplate_path segments i pieces :
  forallb plainb pieces = true ->
  pathLoop segments i (Str.join "${uuid}" pieces) = Str.join "${uuid}" pieces.
Proof.
  intros Hp. revert i. induction segments as [|c segments IH]; intros i; [done|].
  cbn [pathLoop]. rewrite <- (IH (S i)) at 2. f_equal.
  by apply (uuidTemplate_miss (lit "{path." ++ Str.ofNat i ++ ["}"%char])).
Qed.

(** C1, as amended.  For every template made of texts without [$]
    separated by occurrences of [${uuid}], and for every context,
    [substituteString] invokes the generator once and replaces every
    occurrence by the one identifier it returned. *)
Theorem uuid_generated_once (pieces : list str) (ctx : TemplateContext) (w : World) :
  forallb plainb pieces = true ->
  substituteString (Str.join "${uuid}" pieces) ctx w
  = (Str.join (generateId w).1 pieces, (generateId w).2)
  /\ calls (generateId w).2 = S (calls w).
Proof.
  intros Hp. split; [|done]. unfold substituteString.
  assert (Hc : capturesPass ctx (Str.join "${uuid}" pieces) = Str.join "${uuid}" pieces).
  { unfold capturesPass. destruct (captures ctx); [by apply uuidTemplate_captures|done]. }
  assert (Hpath : pathPass ctx (Str.join "${uuid}" pieces) = Str.join "${uuid}" pieces).
  { unfold pathPass. destruct (path ctx); [by apply uuidTemplate_path|done]. }
  rewrite Hc, Hpath.
  pose proof (generateId_plain w) as Hid.
  destruct (generateId w) as [id w1]. cbn [fst snd] in *.
  assert (Hu : uuidPass id (Str.join "${uuid}" pieces) = Str.join id pieces).
  { unfold uuidPass, replaceLiteral. by apply uuidTemplate_hit. }
  assert (Hj : plain (Str.join id pieces)) by by apply join_plain.
  by rewrite Hu, inputPass_plain, dataPass_plain.
Qed.

End UuidFacts.

Section UuidExamples.
Import Template.
Existing Instance Examples.valueHost.

(** Two occurrences of [${uuid}] around a dash. *)
Lemma uuid_generated_once_witness :
  substituteString "${uuid}-${uuid}" Examples.emptyContext Examples.world0
  = (Str.join (generateId Examples.world0).1 [[]; lit "-"; []],
     (generateId Examples.world0).2)
  /\ calls (generateId Examples.world0).2 = 1.
Proof.
  apply (uuid_generated_once [[]; lit "-"; []] Examples.emptyContext Examples.world0 eq_refl).
Defined.

(** C1 as stated fails: on a template with two occurrences of [${uuid}]
    the generator is invoked once, and both occurrences receive the same
    identifier, although a second invocation would have returned another
    one. *)
Lemma uuid_occurrences_share_one_id :
  let '(out, w1) := substituteString "${uuid}-${uuid}" Examples.emptyContext Examples.world0 in
  out = lit "cfe56803-cfe56803"
  /\ calls w1 = 1
  /\ (generateId Examples.world0).1 = lit "cfe56803"
  /\ (generateId w1).1 = lit "cfe5680b".
Proof. vm_compute. repeat split. Qed.

End UuidExamples.

(** ** The order of the passes *)

Section PassOrder.
Import Template.
Context `{ValueHost}.

(** C10.  The passes run in the order captures, path segments, [${uuid}],
    [${input}], [${data.*}], each on the output of the previous ones: with
    [captures[1] = '${input}'] and [input = 'X'] the template [${1}] gives
    ['X']; placeholder text brought in by a pass is expanded by each later
    pass and by no earlier one. *)
Theorem passes_rescan_in_order (w : World) :
  (forall template ctx,
     substituteString template ctx w
     = (dataPass ctx (inputPass ctx (uuidPass (generateId w).1
          (pathPass ctx (capturesPass ctx template)))),
        (generateId w).2))
  /\ (substituteString "${1}"
        (Examples.contextOf (Some [Some (lit "m"); Some (lit "${input}")]) None None
           (Some (lit "X"))) w).1
     = lit "X"
  /\ (substituteString "${1}"
        (Examples.contextOf (Some [Some (lit "m"); Some (lit "${path.0}")]) (Some [lit "p"])
           None None) w).1
     = lit "p"
  /\ (substituteString "${path.0}" (Examples.contextOf None (Some [lit "${uuid}"]) None None) w).1
     = (generateId w).1
  /\ (substituteString "${input}"
        (Examples.contextOf None None (Some (VObject [(lit "k", VString "v")]))
           (Some (lit "${data.k}"))) w).1
     = lit "v"
  /\ (substituteString "${path.0}"
        (Examples.contextOf (Some [Some (lit "m"); Some (lit "c")]) (Some [lit "${1}"])
           None None) w).1
     = lit "${1}"
  /\ (substituteString "${input}"
        (Examples.contextOf None (Some [lit "p"]) None (Some (lit "${path.0}"))) w).1
     = lit "${path.0}"
  /\ (substituteString "${input}" (Examples.contextOf None None None (Some (lit "${uuid}"))) w).1
     = lit "${uuid}"
  /\ (substituteString "${data.k}"
        (Examples.contextOf None None (Some (VObject [(lit "k", VString "${input}")]))
           (Some (lit "X"))) w).1
     = lit "${input}".
Proof.
  split.
  { intros template ctx. unfold substituteString. by destruct (generateId w). }
  split; [by vm_compute|]. split; [by vm_compute|]. split.
  - unfold substituteString.
    assert (Hp : pathPass (Examples.contextOf None (Some [lit "${uuid}"]) None None)
                   (capturesPass (Examples.contextOf None (Some [lit "${uuid}"]) None None)
                      "${path.0}")
                 = lit "${uuid}") by by vm_compute.
    rewrite Hp. pose proof (generateId_plain w) as Hid.
    destruct (generateId w) as [id w1]. cbn [fst] in *.
    unfold inputPass, dataPass, Examples.contextOf. cbn [input data].
    unfold uuidPass, replaceLiteral.
    etransitivity; [exact (uuidTemplate_hit id (lit "${uuid}") [[]; []] 0 Hid eq_refl)|].
    cbn [Str.join app]. apply app_nil_r.
  - repeat split; by vm_compute.
Qed.

End PassOrder.

(** ** The fluent builder *)

Section FluentFacts.
Context `{RegExpHost}.
Import Fluent.

Lemma reduce_app cmds cmd (acc : str) (σ : Store) :
  Commands.reduce (cmds ++ [cmd]) acc σ
  = let '(acc1, σ1) := Commands.reduce cmds acc σ in cmd acc1 σ1.
Proof.
  revert acc σ. induction cmds as [|c0 cmds IH]; intros acc σ; simpl.
  - by destruct (cmd acc σ).
  - destruct (c0 acc σ) as [acc1 σ1]. apply IH.
Qed.

Lemma reduce_ext cmds cmds' (acc : str) (σ : Store) :
  Forall2 (fun c1 c2 => forall input σ, c1 input σ = c2 input σ) cmds cmds' ->
  Commands.reduce cmds acc σ = Commands.reduce cmds' acc σ.
Proof.
  intros Hext. revert acc σ. induction Hext as [|c1 c2 cmds cmds' Hc _ IH]; intros acc σ; [done|].
  simpl. rewrite Hc. destruct (c2 acc σ). apply IH.
Qed.

Lemma structuralLoop_x input matches result lastEnd σ :
  Commands.xLoop Commands.p input matches result lastEnd σ
  = let '(r, e) := Dsl.structuralLoop Dsl.TypeX input matches result lastEnd in (r, e, σ).
Proof.
  revert result lastEnd. induction matches as [|m rest IH]; intros result lastEnd; [done|].
  simpl. apply IH.
Qed.

Lemma structuralLoop_y input matches result lastEnd σ :
  Commands.yLoop Commands.p input matches result lastEnd σ
  = let '(r, e) := Dsl.structuralLoop Dsl.TypeY input matches result lastEnd in (r, e, σ).
Proof.
  revert result lastEnd. induction matches as [|m rest IH]; intros result lastEnd; [done|].
  simpl. destruct (lastEnd <? Commands.start m) eqn:E; simpl; [apply IH|].
  apply Nat.ltb_ge in E. unfold Str.slice.
  replace (Commands.start m - lastEnd) with 0 by lia. rewrite take_0, app_nil_r. apply IH.
Qed.

(** Every step pushes one command, which is the command [filterStep]
    gives for it. *)
Lemma chain_push this step :
  exists cmd, chain this step = Dsl.push this cmd
              /\ forall input σ, cmd input σ = filterStep step input σ.
Proof.
  destruct step; simpl; (eexists; split; [reflexivity|]); intros input σ; try done.
  - unfold Commands.x. destruct (length _ =? 0); [done|].
    rewrite structuralLoop_x. by destruct (Dsl.structuralLoop _ _ _ _ _).
  - unfold Commands.y. destruct (length _ =? 0); [done|].
    rewrite structuralLoop_y. destruct (Dsl.structuralLoop _ _ _ _ _) as [r e].
    destruct (e <? length input) eqn:E; [done|].
    apply Nat.ltb_ge in E. by rewrite drop_ge, app_nil_r.
  - unfold Commands.ifMatch. destruct (Host.test _ _ _) as [[] ?]; done.
  - unfold Commands.ifMatch. destruct (Host.test _ _ _) as [[] ?]; done.
Qed.

Lemma value_fold steps this σ :
  Dsl.value (fold_left chain steps this) σ
  = let '(acc, σ1) := Dsl.value this σ in Commands.reduce (map filterStep steps) acc σ1.
Proof.
  revert this. induction steps as [|step steps IH]; intros this; simpl.
  - by destruct (Dsl.value this σ).
  - rewrite IH. destruct (chain_push this step) as (cmd & -> & Hcmd).
    unfold Dsl.value, Dsl.push. simpl. rewrite reduce_app.
    destruct (Commands.reduce (Dsl.commands this) (Dsl.input this) σ) as [acc σ1].
    rewrite Hcmd. by destruct (filterStep step acc σ1).
Qed.

(** C2, as amended.  For every input and every chain of steps drawn from
    [x], [y], [g], [v], [s], [c], [d], [p], [value()] is the left-to-right
    composition of one command per step: for [x] and [y], the commands
    [x(P, p())] and [y(P, p())]; for [s], [c], [d], [p], the commands of
    the same name; for [g], the command that returns its input when the
    pattern matches and the empty string otherwise, and for [v] the
    converse. *)
Theorem value_is_pipe_of_steps (input : str) (steps : list Step) (σ : Store) :
  Dsl.value (build input steps) σ = Commands.pipe (map filterStep steps) input σ.
Proof. unfold build. by rewrite value_fold. Qed.

End FluentFacts.

Section FluentExamples.
Import Fluent.
Existing Instance Examples.literalHost.

(** C2 as stated fails: a [g] step whose pattern does not match empties
    the value and an [n] step drops the text outside the range, where the
    commands [g(P, p())] and [n(0, 2, p())] return their input. *)
Lemma fluent_guard_and_range_drop_text :
  (Dsl.value (build "b" [StepG (Dsl.PString "a")]) ∅).1 = []
  /\ (Commands.pipe (map algebraStep [StepG (Dsl.PString "a")]) "b" ∅).1 = lit "b"
  /\ (Dsl.value (Dsl.n (Dsl.sre "hello") 0 (Some 2%Z)) ∅).1 = lit "he"
  /\ (Commands.n 0 (Some 2%Z) Commands.p "hello" ∅).1 = lit "hello".
Proof. vm_compute. repeat split. Qed.

End FluentExamples.

(** ** A cascade that does not end *)

Section Cascade.
Context `{RegExpHost} `{ValueHost}.
Import Pattern.

Lemma split_no_separator sep (s : str) :
  Forall (fun ch => ch <> sep) s -> Str.split sep s = [s].
Proof.
  induction 1 as [|ch s Hne _ IH]; [done|]. cbn [Str.split].
  destruct (Ascii.eqb_spec ch sep); [done|]. by rewrite IH.
Qed.

Lemma segment_S k : Examples.segment k ++ "x" = Examples.segment (S k).
Proof.
  unfold Examples.segment. change (lit "x") with ["x"%char]. cbn [app]. f_equal.
  induction k as [|k IH]; [done|]. cbn [replicate app] in *. by rewrite IH.
Qed.

Lemma segment_no_slash k : Forall (fun ch => ch <> "/"%char) (Examples.segment k).
Proof.
  constructor; [done|]. induction k as [|k IH]; constructor; done.
Qed.

Lemma segment_plain k : plain (Examples.segment k).
Proof.
  apply plain_cons. split; [done|]. induction k as [|k IH]; [done|]. by apply plain_cons.
Qed.

Lemma segmentsOf_segment k : Glob.segmentsOf ("/"%char :: Examples.segment k) = [Examples.segment k].
Proof.
  unfold Glob.segmentsOf. cbn [Str.split]. rewrite Ascii.eqb_refl.
  rewrite split_no_separator by apply segment_no_slash. done.
Qed.

Lemma emit_path_segment k ctx w :
  Template.captures ctx = Some [] -> Template.path ctx = Some [Examples.segment k] ->
  Template.substituteString "/${path.0}x" ctx w
  = ("/"%char :: Examples.segment (S k), (Template.generateId w).2).
Proof.
  intros Hc Hp. unfold Template.substituteString, Template.capturesPass, Template.pathPass.
  rewrite Hc, Hp. cbn [Template.capturesLoop Template.pathLoop].
  assert (Hr : Template.replaceLiteral ("${path." ++ Str.ofNat 0 ++ "}") (Examples.segment k) "/${path.0}x"
               = "/"%char :: Examples.segment (S k)).
  { unfold Template.replaceLiteral.
    change (lit "/${path.0}x") with (lit "/" ++ "$"%char :: lit "{path.0}" ++ lit "x") at 2.
    change ("${path." ++ Str.ofNat 0 ++ "}") with ("$"%char :: lit "{path.0}").
    rewrite replaceLiteralFrom_pre by done. rewrite replaceLiteralFrom_hit.
    rewrite getSubstitution_plain by apply segment_plain.
    rewrite replaceLiteralFrom_plain by done.
    rewrite <- segment_S. done. }
  rewrite Hr. destruct (Template.generateId w) as [id w1]. cbn [snd].
  assert (Hplain : plain ("/"%char :: Examples.segment (S k))).
  { apply plain_cons. split; [done|apply segment_plain]. }
  by rewrite uuidPass_plain, inputPass_plain, dataPass_plain.
Qed.

(** The rule applied to a scroll whose key is [/a], [/ax], ...: it fires
    and emits the scroll with the next key. *)
Lemma applyPattern_selfCascade k scroll w :
  key scroll = "/"%char :: Examples.segment k ->
  applyPattern Examples.selfCascadeCompiled scroll w
  = Returned (Some {| key := "/"%char :: Examples.segment (S k); type := "t";
                      metadata := Some {| version := Some 1%Z;
                                          produced_by := Some (lit "A") |};
                      data := VObject [] |},
              (Template.generateId w).2).
Proof.
  intros Hkey. unfold applyPattern, Glob.matches. rewrite Hkey.
  cbn [Examples.selfCascadeCompiled watchMatcher cg cv cx cemit cemit_path ctemplate cname
       extractCaptures].
  change (Glob.segments (Glob.compileGlob "/**")) with [Glob.Double].
  rewrite segmentsOf_segment. cbn [Glob.matchSegments length Nat.sub Nat.add Nat.leb negb].
  unfold Template.parsePath. fold (Glob.segmentsOf ("/"%char :: Examples.segment k)).
  rewrite segmentsOf_segment.
  rewrite (emit_path_segment k) by done. done.
Qed.

Lemma add_selfCascade : add [] Examples.selfCascade = Some Examples.registry.
Proof. done. Qed.

Lemma visitKey_length k : length (Examples.visitKey k) = k + 4.
Proof.
  unfold Examples.visitKey, Examples.segment. cbn [app length]. rewrite length_app, length_replicate.
  cbn [length lit list_ascii_of_string app]. lia.
Qed.

(** The loop of [apply], entered with the scroll of key [/a x^k] alone in
    the queue and shorter keys in the visited set, runs out of any fuel. *)
Lemma applyLoop_selfCascade fuel k scroll visited reactions w :
  key scroll = "/"%char :: Examples.segment k -> type scroll = lit "t" ->
  (forall s, s ∈ visited -> length s < k + 4) ->
  applyLoop fuel Examples.registry [scroll] visited reactions w = None.
Proof.
  revert k scroll visited reactions w.
  induction fuel as [|fuel IH]; intros k scroll visited reactions w Hkey Htype Hvis; [done|].
  cbn [applyLoop]. rewrite Hkey, Htype. fold (Examples.visitKey k).
  case_bool_decide as Hin.
  { apply Hvis in Hin. rewrite visitKey_length in Hin. lia. }
  cbn [Examples.registry applyEach].
  rewrite (applyPattern_selfCascade k) by done.
  cbn [Examples.selfCascadeCompiled cthen lit list_ascii_of_string get Str.assoc].
  assert (Hget : get Examples.registry ["A"%char] = Some Examples.selfCascadeCompiled) by by vm_compute.
  rewrite Hget. cbn [app].
  apply (IH (S k)); [done|done|].
  intros s [Hs| ->%elem_of_singleton]%elem_of_union.
  - apply Hvis in Hs. lia.
  - rewrite visitKey_length. lia.
Qed.

(** C3.  With the one rule A = [{watch: '/**', emit_path: '/${path.0}x',
    then: 'A'}] registered, [apply] on the document of key [/a] never
    leaves its loop: every reaction has a key not seen before ([/ax],
    [/axx], ...), so the visited set never stops the cascade. *)
Theorem apply_selfCascade_diverges (fuel : nat) (w : World) :
  add [] Examples.selfCascade = Some Examples.registry
  /\ apply fuel Examples.registry Examples.startScroll w = None.
Proof.
  split; [done|]. unfold apply.
  apply (applyLoop_selfCascade fuel 0); [done|done|].
  intros s Hs. by apply not_elem_of_empty in Hs.
Qed.

End Cascade.

(** * Further properties *)

(** ** Splitting and joining *)

Section SplitFacts.

Lemma split_nonempty sep s : Str.split sep s <> [].
Proof.
  destruct s as [|ch s]; [done|]. cbn [Str.split].
  destruct (Ascii.eqb ch sep); [done|]. by destruct (Str.split sep s).
Qed.

Lemma join_cons sep piece next rest :
  Str.join sep (piece :: next :: rest) = piece ++ sep ++ Str.join sep (next :: rest).
Proof. done. Qed.

Lemma join_split sep s : Str.join [sep] (Str.split sep s) = s.
Proof.
  induction s as [|ch s IH]; [done|]. cbn [Str.split].
  destruct (Ascii.eqb_spec ch sep) as [->|Hne].
  - pose proof (split_nonempty sep s) as Hn.
    destruct (Str.split sep s) as [|piece rest]; [done|].
    rewrite join_cons. cbn [app]. by rewrite IH.
  - pose proof (split_nonempty sep s) as Hn.
    destruct (Str.split sep s) as [|piece rest]; [done|].
    destruct rest as [|next rest]; [by rewrite <- IH|].
    rewrite join_cons in *. by rewrite <- IH.
Qed.

Lemma split_sepfree sep s : Forall (Forall (fun ch => ch <> sep)) (Str.split sep s).
Proof.
  induction s as [|ch s IH]; [by repeat constructor|]. cbn [Str.split].
  destruct (Ascii.eqb_spec ch sep) as [->|Hne]; [by constructor|].
  destruct (Str.split sep s) as [|piece rest]; [by repeat constructor|].
  inversion IH; subst. constructor; [by constructor|done].
Qed.

Lemma split_app_sep sep a b :
  Forall (fun ch => ch <> sep) a -> Str.split sep (a ++ sep :: b) = a :: Str.split sep b.
Proof.
  induction 1 as [|ch a Hne _ IH]; cbn [app Str.split].
  - by rewrite Ascii.eqb_refl.
  - destruct (Ascii.eqb_spec ch sep); [done|]. by rewrite IH.
Qed.

Lemma split_join sep pieces :
  pieces <> [] -> Forall (Forall (fun ch => ch <> sep)) pieces ->
  Str.split sep (Str.join [sep] pieces) = pieces.
Proof.
  intros Hne Hall. induction Hall as [|piece rest Hp Hrest IH]; [done|].
  destruct rest as [|next rest].
  - simpl. by apply split_no_separator.
  - rewrite join_cons. cbn [app]. rewrite split_app_sep by done. by rewrite IH.
Qed.

End SplitFacts.

(** ** Laws of the commands *)

Section CommandFacts.
Context `{RegExpHost}.
Import Commands.

Lemma slice_0 {A} (l : list A) b : Str.slice l 0 b = take b l.
Proof. unfold Str.slice. by rewrite Nat.sub_0_r, drop_0. Qed.

Lemma clampIndex_le len i : Str.clampIndex len i <= len.
Proof. unfold Str.clampIndex. destruct (i <? 0)%Z eqn:E; lia. Qed.

Lemma resolveEnd_le len e : resolveEnd len e <= len.
Proof. destruct e; simpl; [apply clampIndex_le|done]. Qed.

Lemma Forall_slice {A} (P : A -> Prop) (l : list A) a b : Forall P l -> Forall P (Str.slice l a b).
Proof. intros Hl. unfold Str.slice. by apply Forall_take, Forall_drop. Qed.

Lemma reduce_append fs gs (acc : str) (σ : Store) :
  reduce (fs ++ gs) acc σ = let '(mid, σ1) := reduce fs acc σ in reduce gs mid σ1.
Proof.
  revert acc σ. induction fs as [|f fs IH]; intros acc σ; simpl; [done|].
  destruct (f acc σ) as [acc1 σ1]. apply IH.
Qed.

(** X1.  [pipe] composes: the empty pipeline is the identity; the
    pipeline of one command is that command; a pipeline runs its first
    command and then the rest on its output, with the store the first
    left; a pipeline of two lists of commands put end to end runs the
    first list and then the second on its output; a pipeline of two
    pipelines is the pipeline of their commands. *)
Theorem pipe_composes (f : Command) (fs gs : list Command) (input : str) (σ : Store) :
  pipe [] input σ = (input, σ)
  /\ pipe [f] input σ = f input σ
  /\ pipe (f :: fs) input σ = (let '(mid, σ1) := f input σ in pipe fs mid σ1)
  /\ pipe (fs ++ gs) input σ = (let '(mid, σ1) := pipe fs input σ in pipe gs mid σ1)
  /\ pipe [pipe fs; pipe gs] input σ = pipe (fs ++ gs) input σ.
Proof.
  split; [done|]. unfold pipe. split; [cbn [reduce]; by destruct (f input σ)|].
  split; [done|]. split; [apply reduce_append|].
  rewrite reduce_append. simpl. destruct (reduce fs input σ) as [mid σ1].
  by destruct (reduce gs mid σ1).
Qed.

(** X2.  When the resolved start of [n(start, end, cmd)] is at or before
    the resolved end, the input is the text before the range, the range
    and the text after it; the output keeps the first and the last and
    has the output of [cmd] on the range in between; with [p()] the
    command returns its input. *)
Theorem n_ordered_range (start : Z) (end_ : option Z) (cmd : Command) (input : str) (σ : Store) :
  Str.clampIndex (length input) start <= resolveEnd (length input) end_ ->
  input = take (Str.clampIndex (length input) start) input
          ++ Str.slice input (Str.clampIndex (length input) start)
               (resolveEnd (length input) end_)
          ++ drop (resolveEnd (length input) end_) input
  /\ (n start end_ cmd input σ).1
     = take (Str.clampIndex (length input) start) input
       ++ (cmd (Str.slice input (Str.clampIndex (length input) start)
                  (resolveEnd (length input) end_)) σ).1
       ++ drop (resolveEnd (length input) end_) input
  /\ n start end_ p input σ = (input, σ).
Proof.
  set (s := Str.clampIndex (length input) start).
  set (e := resolveEnd (length input) end_). intros Hse.
  assert (Hdec : input = take s input ++ Str.slice input s e ++ drop e input).
  { rewrite app_assoc, take_slice by done. by rewrite take_drop. }
  split; [done|]. unfold n. fold s. change (match end_ with Some e0 => _ | None => _ end) with e.
  rewrite slice_0.
  split; [by destruct (cmd _ σ)|]. simpl. by rewrite <- Hdec.
Qed.

(** X3.  When the resolved end of [n(start, end, cmd)] is before the
    resolved start, [cmd] receives the empty string and its output is put
    between the text up to the start and the text from the end on: the
    text between the two indices appears twice, and with [p()] the output
    is longer than the input by their distance. *)
Theorem n_reversed_range (start : Z) (end_ : option Z) (cmd : Command) (input : str) (σ : Store) :
  resolveEnd (length input) end_ < Str.clampIndex (length input) start ->
  n start end_ cmd input σ
  = (take (Str.clampIndex (length input) start) input ++ (cmd [] σ).1
     ++ drop (resolveEnd (length input) end_) input,
     (cmd [] σ).2)
  /\ length (n start end_ p input σ).1
     = length input + (Str.clampIndex (length input) start - resolveEnd (length input) end_).
Proof.
  set (s := Str.clampIndex (length input) start).
  set (e := resolveEnd (length input) end_). intros Hse.
  assert (Hs : s <= length input) by apply clampIndex_le.
  assert (Hn : forall cmd', n start end_ cmd' input σ
             = (take s input ++ (cmd' [] σ).1 ++ drop e input, (cmd' [] σ).2)).
  { intros cmd'. unfold n. fold s. change (match end_ with Some e0 => _ | None => _ end) with e.
    rewrite slice_0. unfold Str.slice.
    replace (e - s) with 0 by lia. rewrite take_0. by destruct (cmd' [] σ). }
  split; [apply Hn|]. rewrite Hn. simpl.
  rewrite length_app, length_take, length_drop. lia.
Qed.

(** X4.  Whatever [cmd] returns, the lines of the output of
    [l(start, end, cmd)] are the lines of the input before the resolved
    start, the lines of the output of [cmd] on the selected lines joined
    by newlines, and the lines of the input from the resolved end on.
    [l(start, end, p())] returns its input when the resolved range holds
    at least one line; when the range is empty it returns the lines
    before the resolved start, an empty line (the empty string the
    command receives splits into one empty line) and the lines from the
    resolved end on: the input with an empty line inserted when start
    and end coincide. *)
Theorem l_keeps_lines_outside (start : Z) (end_ : option Z) (cmd : Command) (input : str)
    (σ : Store) :
  Str.split newline (l start end_ cmd input σ).1
  = take (Str.clampIndex (length (Str.split newline input)) start) (Str.split newline input)
    ++ Str.split newline
         (cmd (Str.join [newline]
                 (Str.slice (Str.split newline input)
                    (Str.clampIndex (length (Str.split newline input)) start)
                    (resolveEnd (length (Str.split newline input)) end_))) σ).1
    ++ drop (resolveEnd (length (Str.split newline input)) end_) (Str.split newline input)
  /\ l start end_ p input σ
     = (if Str.clampIndex (length (Str.split newline input)) start
           <? resolveEnd (length (Str.split newline input)) end_
        then input
        else Str.join [newline]
               (take (Str.clampIndex (length (Str.split newline input)) start)
                     (Str.split newline input)
                ++ [] :: drop (resolveEnd (length (Str.split newline input)) end_)
                              (Str.split newline input)),
        σ).
Proof.
  unfold l, p. fold newline.
  set (lines := Str.split newline input).
  change (match end_ with Some e0 => _ | None => _ end) with (resolveEnd (length lines) end_).
  set (s := Str.clampIndex (length lines) start). set (e := resolveEnd (length lines) end_).
  rewrite !slice_0.
  pose proof (split_sepfree newline input) as Hl. fold lines in Hl.
  assert (He : e <= length lines) by apply resolveEnd_le.
  split.
  - destruct (cmd _ σ) as [out σ1]. cbn [fst]. apply split_join.
    + intros Hnil. apply app_eq_nil in Hnil as [_ Hnil]. apply app_eq_nil in Hnil as [Hnil _].
      by apply split_nonempty in Hnil.
    + apply Forall_app. split; [by apply Forall_take|].
      apply Forall_app. split; [apply split_sepfree|by apply Forall_drop].
  - f_equal. destruct (s <? e) eqn:E.
    + apply Nat.ltb_lt in E. rewrite split_join.
      * rewrite app_assoc, take_slice by lia. rewrite take_drop. apply join_split.
      * intros Hnil. apply (f_equal length) in Hnil. unfold Str.slice in Hnil.
        rewrite length_take, length_drop in Hnil. simpl in Hnil. lia.
      * by apply Forall_slice.
    + apply Nat.ltb_ge in E. unfold Str.slice. replace (e - s) with 0 by lia.
      by rewrite take_0.
Qed.

Lemma replaceResults_xLoop input results r acc from σ :
  chained input from results ->
  Host.replaceResults input results (fun _ => r) acc from
  = (let '(result, lastEnd, _) :=
       xLoop (c r) input
         (map (fun e => {| text := matched e; start := index e;
                           end_ := index e + length (matched e); groups := elements e |})
              results) acc from σ in
     result ++ drop lastEnd input).
Proof.
  revert acc from. induction results as [|e rest IH]; intros acc from; [done|].
  cbn [chained]. intros (H1 & H2 & H3 & H4).
  cbn [Host.replaceResults map xLoop c start text end_].
  replace (index e `min` length input) with (index e) by lia.
  destruct (from <=? index e) eqn:E; [|apply Nat.leb_gt in E; lia].
  rewrite IH by done. by rewrite <- !app_assoc.
Qed.

Lemma replaceResults_ext text results f f' acc from :
  (forall e, f e = f' e) ->
  Host.replaceResults text results f acc from = Host.replaceResults text results f' acc from.
Proof.
  intros Hf. revert acc from. induction results as [|e rest IH]; intros acc from; [done|].
  simpl. rewrite Hf. destruct (from <=? _); apply IH.
Qed.

(** X5.  On a text of 8-bit characters and for a replacement without
    [$], [s(P, replacement)] is [x(P, c(replacement))]: the native
    replace and the loop over the matches of [findMatches] rebuild the
    same string. *)
Theorem s_plain_is_x_c (pattern : RegExp) (replacement : str) (input : str) (σ : Store) :
  plain replacement ->
  s pattern replacement input σ = x pattern (c replacement) input σ.
Proof.
  intros Hplain. unfold s, x, Host.replaceAll, findMatches.
  pose proof (execAll_loop (source pattern) (Host.withGlobal (flags pattern)) input
                (usesLastIndex_withGlobal _)) as [_ Hch].
  rewrite (replaceResults_ext _ _ _ (fun _ => replacement))
    by (intros e; by apply getSubstitution_plain).
  rewrite (replaceResults_xLoop _ _ _ _ _ σ Hch).
  rewrite length_map.
  destruct (Host.execAll _ _ _) as [|e rest] eqn:Hr; [done|].
  cbn [length Nat.eqb].
  destruct (xLoop _ _ _ _ _ _) as [[result lastEnd] σ1] eqn:Hx.
  f_equal.
  enough (Hσ : forall ms acc from, (xLoop (c replacement) input ms acc from σ).2 = σ).
  { match type of Hx with xLoop _ _ ?ms _ _ _ = _ => specialize (Hσ ms [] 0) end.
    by rewrite Hx in Hσ. }
  induction ms as [|m ms IH]; intros acc from; [done|]. simpl. apply IH.
Qed.

Lemma builtinExec_stateless src fl input li :
  Host.usesLastIndex fl = false ->
  Host.builtinExec src fl input li = ((Host.builtinExec src fl input 0).1, li).
Proof.
  intros Hfl. unfold Host.builtinExec. rewrite Hfl. cbn [Nat.ltb Nat.leb].
  destruct (Host.scan _ _ _ _ _) as [[i ms]|]; done.
Qed.

(** X6.  For a pattern without the [g] and [y] flags, the test made by
    [g], [v] and [ifMatch] does not depend on the [lastIndex] of the
    pattern object and leaves the store as it is: [g] runs its command
    exactly when [v] does not, and [ifMatch] chooses between its two
    commands by the same test. *)
Theorem guards_without_flags (pattern : RegExp) (cmd thenCmd elseCmd : Command)
    (input : str) (σ : Store) :
  Host.usesLastIndex (flags pattern) = false ->
  Host.test pattern input σ
  = (bool_decide (is_Some (Host.builtinExec (source pattern) (flags pattern) input 0).1), σ)
  /\ g pattern cmd input σ
     = (if (Host.test pattern input ∅).1 then cmd input σ else (input, σ))
  /\ v pattern cmd input σ
     = (if (Host.test pattern input ∅).1 then (input, σ) else cmd input σ)
  /\ ifMatch pattern thenCmd elseCmd input σ
     = (if (Host.test pattern input ∅).1 then thenCmd input σ else elseCmd input σ).
Proof.
  intros Hfl.
  assert (Ht : forall σ', Host.test pattern input σ'
            = (bool_decide (is_Some (Host.builtinExec (source pattern) (flags pattern) input 0).1),
               σ')).
  { intros σ'. unfold Host.test, Host.exec.
    rewrite builtinExec_stateless by done. by rewrite Hfl. }
  split; [apply Ht|]. unfold g, v, ifMatch. rewrite !Ht. cbn [fst].
  repeat split; by destruct (bool_decide _).
Qed.

(** [x] in terms of [xAll]. *)
Lemma xLoop_splice cmd input matches result lastEnd σ :
  (let '(result1, lastEnd1, σ1) := xLoop cmd input matches result lastEnd σ in
   (result1 ++ drop lastEnd1 input, σ1))
  = (result ++ splice input lastEnd matches (mapCommand cmd matches σ).1,
     (mapCommand cmd matches σ).2).
Proof.
  revert result lastEnd σ. induction matches as [|m rest IH]; intros result lastEnd σ; [done|].
  cbn [xLoop mapCommand]. destruct (cmd (text m) σ) as [out σ1].
  rewrite IH. destruct (mapCommand cmd rest σ1) as [outs σ2]. cbn [fst snd splice].
  by rewrite <- !app_assoc.
Qed.

Lemma x_splice pattern cmd input σ :
  x pattern cmd input σ
  = (splice input 0 (findMatches pattern input) (xAll pattern cmd input σ).1,
     (xAll pattern cmd input σ).2).
Proof.
  unfold x, xAll.
  destruct (findMatches pattern input) as [|m rest] eqn:Hm; [done|].
  cbn [length Nat.eqb]. pose proof (xLoop_splice cmd input (m :: rest) [] 0 σ) as Hx.
  by destruct (xLoop _ _ _ _ _ _) as [[result lastEnd] σ1].
Qed.

(** X8.  [x(P, cmd)] is the input with the span of each match replaced by
    the string that [xAll(P, cmd)] collects for it, and leaves the store
    that [xAll] leaves; [xAll] collects one string per match. *)
Theorem x_splices_xAll (pattern : RegExp) (cmd : Command) (input : str) (σ : Store) :
  x pattern cmd input σ
  = (splice input 0 (findMatches pattern input) (xAll pattern cmd input σ).1,
     (xAll pattern cmd input σ).2)
  /\ length (xAll pattern cmd input σ).1 = length (findMatches pattern input).
Proof.
  split; [apply x_splice|]. unfold xAll.
  generalize σ. induction (findMatches pattern input) as [|m rest IH]; intros σ0; [done|].
  cbn [mapCommand]. destruct (cmd (text m) σ0) as [out σ1].
  specialize (IH σ1). destruct (mapCommand cmd rest σ1). simpl in *. by rewrite IH.
Qed.

Lemma yLoop_d input matches result lastEnd σ :
  exists lastEnd1,
    yLoop d input matches result lastEnd σ = (result ++ concat (map text matches), lastEnd1, σ).
Proof.
  revert result lastEnd. induction matches as [|m rest IH]; intros result lastEnd.
  - exists lastEnd. simpl. by rewrite app_nil_r.
  - cbn [yLoop]. unfold d at 1.
    assert (Hstep : (if lastEnd <? start m then (result ++ [], σ) else (result, σ)) = (result, σ)).
    { destruct (lastEnd <? start m); [by rewrite app_nil_r|done]. }
    rewrite Hstep. destruct (IH (result ++ text m) (end_ m)) as [lastEnd1 ->].
    exists lastEnd1. cbn [map concat]. by rewrite <- app_assoc.
Qed.

(** X9.  [y(P, d())] keeps the matches and nothing else: its output is
    the concatenation of the texts of the matches, which are the strings
    that [xAll(P, p())] collects. *)
Theorem y_d_keeps_matches (pattern : RegExp) (input : str) (σ : Store) :
  y pattern d input σ = (concat (map text (findMatches pattern input)), σ)
  /\ y pattern d input σ = (concat (xAll pattern p input σ).1, σ).
Proof.
  assert (Hy : y pattern d input σ = (concat (map text (findMatches pattern input)), σ)).
  { unfold y. destruct (findMatches pattern input) as [|m rest] eqn:Hm; [done|].
    cbn [length Nat.eqb]. destruct (yLoop_d input (m :: rest) [] 0 σ) as [lastEnd ->].
    cbn [app]. unfold d. destruct (_ <? _); [by rewrite app_nil_r|done]. }
  split; [done|]. rewrite Hy. f_equal. f_equal. unfold xAll. clear Hy.
  generalize σ. induction (findMatches pattern input) as [|m rest IH]; intros σ0; [done|].
  cbn [mapCommand p map]. specialize (IH σ0). destruct (mapCommand p rest σ0). simpl in *.
  by rewrite IH.
Qed.

End CommandFacts.

(** ** The scan without the [u] and [v] flags *)

Section WideScanFacts.
Context `{Utf16.WideHost}.
Import Utf16.

Lemma includes_app ch (a b : str) :
  Str.includes ch (a ++ b) = Str.includes ch a || Str.includes ch b.
Proof. unfold Str.includes. apply existsb_app. Qed.

Lemma fullUnicode_withGlobal fl : fullUnicode (Host.withGlobal fl) = fullUnicode fl.
Proof.
  unfold Host.withGlobal. destruct (Host.isGlobal fl); [done|].
  unfold fullUnicode. rewrite !includes_app. cbn. by rewrite !orb_false_r.
Qed.

Lemma wide_scan_plain count src fl text li j ms :
  fullUnicode fl = false ->
  scan count src fl text li = Some (j, ms) -> li <= j <= length text.
Proof.
  intros Hu. revert li. induction count as [|count IH]; intros li; [done|]. cbn [scan].
  destruct (length text <? li) eqn:E; [done|]. apply Nat.ltb_ge in E.
  assert (Hc : characterStart fl text li = li).
  { unfold characterStart. destruct li; [done|]. by rewrite Hu. }
  rewrite Hc. destruct (matchAt src fl text li).
  - intros [= <- _]. lia.
  - destruct (Host.isSticky fl); [done|].
    unfold advanceStringIndex. rewrite Hu. cbn [andb]. intros Hs%IH. lia.
Qed.

Lemma wide_exec_plain src fl text li r li' :
  Host.usesLastIndex fl = true -> fullUnicode fl = false ->
  builtinExec src fl text li = (Some r, li') ->
  li <= windex r /\ windex r + length (wmatched r) <= length text
  /\ wmatched r = Str.slice text (windex r) (windex r + length (wmatched r))
  /\ windex r + length (wmatched r) <= li'.
Proof.
  intros Hg Hu. unfold builtinExec. rewrite Hg.
  destruct (scan _ _ _ _ _) as [[j ms]|] eqn:Hs; [|done].
  apply wide_scan_plain in Hs; [|done]. intros [= <- <-]. cbn [windex wmatched].
  assert (Hl : length (Str.slice text j (j + wlen ms)) <= wlen ms
               /\ j + length (Str.slice text j (j + wlen ms)) <= length text).
  { unfold Str.slice. rewrite length_take, length_drop. lia. }
  repeat split; [lia|lia| |lia].
  unfold Str.slice. rewrite !Nat.add_sub', length_take.
  destruct (Nat.le_gt_cases (wlen ms) (length (drop j text))).
  - by rewrite Nat.min_l.
  - rewrite Nat.min_r by lia. by rewrite !take_ge by lia.
Qed.

Lemma spans_mono text from from' results :
  from <= from' -> spans text from' results -> spans text from results.
Proof. destruct results; [done|]. cbn. intros ? (? & ? & ? & ?). repeat split; [lia|done..]. Qed.

Lemma wide_loop_plain fuel src fl text li :
  Host.usesLastIndex fl = true -> fullUnicode fl = false ->
  length text + 2 <= fuel + li -> 1 <= fuel ->
  exists results, execAllLoop fuel src fl text li = Some results /\ spans text li results.
Proof.
  intros Hg Hu. revert li. induction fuel as [|fuel IH]; intros li Hfuel Hpos; [lia|].
  cbn [execAllLoop]. destruct (builtinExec src fl text li) as [[r|] li'] eqn:He.
  - destruct (wide_exec_plain _ _ _ _ _ _ Hg Hu He) as (H1 & H2 & H3 & H4).
    set (li'' := if length (wmatched r) =? 0 then S li' else li').
    assert (Hstep : S (windex r) `max` (windex r + length (wmatched r)) <= li'').
    { unfold li''. destruct (length (wmatched r) =? 0) eqn:E0.
      - apply Nat.eqb_eq in E0. lia.
      - apply Nat.eqb_neq in E0. lia. }
    destruct (decide (fuel = 0)) as [->|Hne]; [exfalso; lia|].
    destruct (IH li'') as (rs & -> & Hs); [lia|lia|].
    eexists; split; [done|]. cbn [spans]. repeat split; [done..|].
    eapply spans_mono; [|done]. lia.
  - by eexists.
Qed.

Lemma spans_increasing text from results :
  spans text from results ->
  increasing from (map windex results) /\ length results <= S (length text) - from.
Proof.
  revert from. induction results as [|r rest IH]; intros from; cbn; [split; [done|lia]|].
  intros (H1 & H2 & H3 & H4). apply (spans_mono _ (S (windex r))) in H4; [|lia].
  destruct (IH _ H4) as [Hi Hl]. split; [done|]. lia.
Qed.

Lemma wide_xLoop_p input results from σ :
  spans input from results ->
  exists lastEnd,
    xLoop p input
      (map (fun r => {| text := wmatched r; start := windex r;
                        end_ := windex r + length (wmatched r); groups := welements r |})
           results)
      (take from input) from σ
    = Some (take lastEnd input, lastEnd, σ).
Proof.
  revert from. induction results as [|r rest IH]; intros from; cbn [spans map xLoop].
  - intros _. by exists from.
  - intros (H1 & H2 & H3 & H4). cbn [p text start end_ mbind option_bind].
    assert (Hrest : spans input (windex r + length (wmatched r)) rest)
      by (eapply spans_mono; [|done]; lia).
    revert H2 H3 Hrest. generalize (length (wmatched r)). intros len H2 H3 Hrest.
    rewrite H3, !take_slice by lia. by apply IH.
Qed.

Lemma wide_yLoop_p input results from σ :
  spans input from results ->
  exists lastEnd,
    yLoop p input
      (map (fun r => {| text := wmatched r; start := windex r;
                        end_ := windex r + length (wmatched r); groups := welements r |})
           results)
      (take from input) from σ
    = Some (take lastEnd input, lastEnd, σ).
Proof.
  revert from. induction results as [|r rest IH]; intros from; cbn [spans map yLoop].
  - intros _. by exists from.
  - intros (H1 & H2 & H3 & H4). cbn [p text start end_].
    assert (Hrest : spans input (windex r + length (wmatched r)) rest)
      by (eapply spans_mono; [|done]; lia).
    revert H2 H3 Hrest. generalize (length (wmatched r)). intros len H2 H3 Hrest.
    destruct (from <? windex r) eqn:E; cbn [p mbind option_bind].
    + rewrite H3, !take_slice by lia. by apply IH.
    + apply Nat.ltb_ge in E. assert (from = windex r) as -> by lia.
      rewrite H3, take_slice by lia. by apply IH.
Qed.

(** X7.  For a pattern without the [u] and [v] flags and every UTF-16
    text, the loop of [findMatches] ends: with fuel [length input + 2] or
    more it returns one and the same list of matches.  The matches start
    at strictly increasing positions (an empty match is followed by a
    match that starts later), there are at most [length input + 1] of
    them, each is inside the input and carries the text of its span, and
    [x(P, p())] and [y(P, p())] return the input. *)
Theorem findMatches_without_unicode (pattern : RegExp) (input : wstr) (σ : Store) :
  fullUnicode (flags pattern) = false ->
  exists matches,
    (forall fuel, length input + 2 <= fuel -> findMatches fuel pattern input = Some matches)
    /\ increasing 0 (map start matches)
    /\ length matches <= length input + 1
    /\ Forall (fun m => text m = Str.slice input (start m) (end_ m)
                        /\ end_ m = start m + length (text m) /\ end_ m <= length input)
         matches
    /\ (forall fuel, length input + 2 <= fuel ->
          x fuel pattern p input σ = Some (input, σ)
          /\ y fuel pattern p input σ = Some (input, σ)).
Proof.
  intros Hu. rewrite <- fullUnicode_withGlobal in Hu.
  destruct (wide_loop_plain (length input + 2) (source pattern)
              (Host.withGlobal (flags pattern)) input 0) as (results & Hloop & Hs);
    [apply usesLastIndex_withGlobal|done|lia|lia|].
  assert (Hfind : forall fuel, length input + 2 <= fuel ->
            findMatches fuel pattern input
            = Some (map (fun r => {| text := wmatched r; start := windex r;
                                     end_ := windex r + length (wmatched r);
                                     groups := welements r |}) results)).
  { intros fuel Hfuel. unfold findMatches.
    by rewrite (wide_loop_mono _ fuel _ _ _ _ _ Hloop Hfuel). }
  eexists. split; [exact Hfind|]. split; [|split; [|split]].
  - rewrite map_map. cbn [start]. by apply spans_increasing in Hs as [? _].
  - rewrite length_map. apply spans_increasing in Hs as [_ ?]. lia.
  - clear Hloop Hfind. revert Hs. generalize 0.
    induction results as [|r rest IH]; intros from; cbn.
    + constructor.
    + intros (H1 & H2 & H3 & H4). constructor; [done|]. by eapply IH.
  - intros fuel Hfuel. unfold x, y. rewrite (Hfind fuel Hfuel). cbn [mbind option_bind].
    destruct (length _ =? 0); [done|]. split.
    + destruct (wide_xLoop_p input results 0 σ Hs) as (e & He). rewrite take_0 in He.
      rewrite He. cbn [mbind option_bind]. by rewrite take_drop.
    + destruct (wide_yLoop_p input results 0 σ Hs) as (e & He). rewrite take_0 in He.
      rewrite He. cbn [mbind option_bind]. destruct (e <? length input) eqn:E.
      * cbn [p mbind option_bind]. by rewrite take_drop.
      * apply Nat.ltb_ge in E. by rewrite take_ge.
Qed.

End WideScanFacts.

(** ** The first match *)

Section XFirstFacts.
Context `{RegExpHost}.
Import Commands.


End XFirstFacts.

(** ** Tokens of the lexer *)

Section LexerMore.
Context `{RegExpHost}.
Import Dsl.

Lemma firstDefined_elem elems defs offsets def :
  firstDefined elems defs offsets = Some def -> def ∈ defs.
Proof.
  revert offsets. induction defs as [|d defs IH]; intros [|o offsets]; simpl; try done.
  destruct (mjoin (elems !! o)).
  - intros [= ->]. apply list_elem_of_here.
  - intros Hd. apply list_elem_of_further. by eapply IH.
Qed.

Lemma traceLoop_events fuel defs all offsets combined input li le events events' le' :
  (forall def, def ∈ defs -> def ∈ all) ->
  Forall (eventOf all) events ->
  traceLoop fuel defs offsets combined input li le events = Some (events', le') ->
  Forall (eventOf all) events'.
Proof.
  intros Hsub. revert li le events.
  induction fuel as [|fuel IH]; intros li le events Hev; simpl; [done|].
  destruct (Host.builtinExec _ _ _ _) as [[m|] li0]; [|by intros [= <- <-]].
  destruct (firstDefined (elements m) defs offsets) as [def|] eqn:Hdef; [|by apply IH].
  apply IH. apply Forall_app. split.
  - destruct (le <? index m) eqn:E; [|done]. apply Nat.ltb_lt in E.
    apply Forall_app. split; [done|]. by repeat constructor.
  - repeat constructor. apply Hsub. by eapply firstDefined_elem.
Qed.

Lemma lexTrace_events defs input : Forall (eventOf defs) (lexTrace defs input).
Proof.
  unfold lexTrace, traceRun.
  destruct (traceLoop _ _ _ _ _ _ _ _) as [[events le]|] eqn:Hl; [|done].
  apply traceLoop_events with (all := defs) in Hl; [|done|done]. simpl.
  destruct (le <? length input) eqn:E; [|done]. apply Nat.ltb_lt in E.
  apply Forall_app. split; [done|]. by repeat constructor.
Qed.



Lemma contiguous_concat input a b tokens :
  contiguous input a b tokens -> a <= b /\ concat (map value_ tokens) = Str.slice input a b.
Proof.
  revert a. induction tokens as [|t rest IH]; simpl; intros a.
  - intros ->. split; [done|]. unfold Str.slice. by rewrite Nat.sub_diag.
  - intros (Hs & Hle & Hlen & Ht & Hrest). destruct (IH _ Hrest) as [Hle' ->].
    subst a. split; [lia|]. rewrite Ht. unfold Str.slice.
    replace (drop (tend t) input) with (drop (tend t - tstart t) (drop (tstart t) input))
      by (rewrite drop_drop; f_equal; lia).
    rewrite take_take_drop. f_equal. lia.
Qed.

(** X15.  When no definition is skip-marked, the values of the tokens the
    lexer returns, concatenated in order, are the input. *)
Theorem lexer_values_rebuild_input (defs : list TokenDef) (input : str) :
  Forall (fun def => skip def = false) defs ->
  concat (map value_ (createLexer defs input)) = input.
Proof.
  intros Hskip. unfold createLexer. rewrite lexRun_trace. cbn [from_option id].
  assert (Hall : List.filter emitted (lexTrace defs input) = lexTrace defs input).
  { pose proof (lexTrace_events defs input) as Hev.
    induction Hev as [|[[def|] tok] events He _ IH]; [done|..]; simpl.
    - destruct He as [Hin _]. simpl in Hin.
      rewrite Forall_forall in Hskip. unfold emitted at 1. simpl. rewrite (Hskip _ Hin). simpl.
      by rewrite IH.
    - by rewrite IH. }
  rewrite Hall. destruct (traceRun_total defs input) as [_ Hc].
  apply contiguous_concat in Hc as [_ ->]. rewrite slice_0. by apply take_ge.
Qed.

Lemma traceLoop_without_definitions fuel offsets combined input li le events events' le' :
  traceLoop fuel [] offsets combined input li le events = Some (events', le') ->
  events' = events /\ le' = le.
Proof.
  revert li. induction fuel as [|fuel IH]; intros li; simpl; [done|].
  destruct (Host.builtinExec _ _ _ _) as [[m|] li0]; [apply IH|]. by intros [= <- <-].
Qed.

(** X16.  A lexer created without definitions returns the whole input as
    one [ERROR] token, and no token for the empty input. *)
Theorem lexer_without_definitions (input : str) :
  createLexer [] input
  = if 0 <? length input then [errorToken input 0 (length input)] else [].
Proof.
  unfold createLexer. rewrite lexRun_trace. cbn [from_option id].
  destruct (traceRun_total [] input) as [Hrun _]. unfold traceRun in Hrun.
  destruct (traceLoop _ _ _ _ _ _ _ _) as [[events le]|] eqn:Hloop; [|done].
  apply traceLoop_without_definitions in Hloop as [-> ->].
  injection Hrun as <-. rewrite drop_0. by destruct (0 <? length input).
Qed.

End LexerMore.

(** ** The utilities of the builder *)

Section UtilityFacts.
Context `{RegExpHost}.
Import Utilities.

Lemma tiled_app input a b c l1 l2 :
  tiled input a b l1 -> tiled input b c l2 -> tiled input a c (l1 ++ l2).
Proof.
  revert a. induction l1 as [|t l1 IH]; simpl; intros a.
  - by intros ->.
  - intros (? & ? & ? & ? & ? & ?) ?. repeat split; [done..|]. by eapply IH.
Qed.

Lemma tiled_concat input a b tokens :
  tiled input a b tokens -> a <= b /\ concat (map text tokens) = Str.slice input a b.
Proof.
  revert a. induction tokens as [|t rest IH]; simpl; intros a.
  - intros ->. split; [done|]. unfold Str.slice. by rewrite Nat.sub_diag.
  - intros (Hs & Hle & Hlen & Ht & _ & Hrest). destruct (IH _ Hrest) as [Hle' ->].
    subst a. split; [lia|]. rewrite Ht. unfold Str.slice.
    replace (drop (end_ t) input) with (drop (end_ t - start t) (drop (start t) input))
      by (rewrite drop_drop; f_equal; lia).
    rewrite take_take_drop. f_equal. lia.
Qed.

Lemma tokenizeLoop_tiled input matches tokens lastEnd :
  ordered input lastEnd matches -> lastEnd <= length input ->
  tiled input 0 lastEnd tokens ->
  exists tokens' lastEnd',
    tokenizeLoop input matches tokens lastEnd = (tokens', lastEnd')
    /\ lastEnd' <= length input /\ tiled input 0 lastEnd' tokens'
    /\ List.filter isMatchToken tokens'
       = List.filter isMatchToken tokens ++ map matchToken matches.
Proof.
  revert tokens lastEnd. induction matches as [|m rest IH]; intros tokens lastEnd.
  - intros _ Hlen Ht. exists tokens, lastEnd. by rewrite app_nil_r.
  - cbn [ordered]. intros (H1 & H2 & H3 & H4 & H5) Hlen Ht. cbn [tokenizeLoop].
    set (tokens1 := if lastEnd <? Commands.start m then _ else _).
    assert (Ht1 : tiled input 0 (Commands.start m) tokens1
                  /\ List.filter isMatchToken tokens1 = List.filter isMatchToken tokens).
    { unfold tokens1. destruct (lastEnd <? Commands.start m) eqn:E.
      - apply Nat.ltb_lt in E. split.
        + eapply tiled_app; [done|]. simpl. repeat split; [lia|lia|done].
        + rewrite List.filter_app. simpl. by rewrite app_nil_r.
      - apply Nat.ltb_ge in E. by assert (Commands.start m = lastEnd) as -> by lia. }
    destruct Ht1 as [Ht1 Hf1].
    destruct (IH (tokens1 ++ [matchToken m]) (Commands.end_ m)) as (tokens' & lastEnd' & -> & ? & ? & Hf);
      [done|done| |].
    + eapply tiled_app; [done|]. simpl. repeat split; [done..|]. done.
    + exists tokens', lastEnd'. repeat split; [done..|].
      rewrite Hf, List.filter_app, Hf1. simpl. by rewrite <- app_assoc.
Qed.

(** X11.  The tokens of [tokenize] tile the input: the first starts at 0,
    each starts where the previous one ends, the last ends at the length
    of the input, each carries the text of its span, and a token between
    matches is never empty; concatenating their texts gives the input;
    the tokens of type [match] are the matches of [findMatches], in
    order. *)
Theorem tokenize_tiles (input : str) (pattern : Dsl.Pattern) :
  tiled input 0 (length input) (tokenize input pattern)
  /\ concat (map text (tokenize input pattern)) = input
  /\ List.filter isMatchToken (tokenize input pattern)
     = map matchToken (Commands.findMatches (Dsl.toRegExp "g" pattern) input).
Proof.
  assert (Hmain : tiled input 0 (length input) (tokenize input pattern)
                  /\ List.filter isMatchToken (tokenize input pattern)
                     = map matchToken (Commands.findMatches (Dsl.toRegExp "g" pattern) input)).
  { unfold tokenize.
    destruct (tokenizeLoop_tiled input (Commands.findMatches (Dsl.toRegExp "g" pattern) input)
                [] 0) as (tokens & lastEnd & -> & Hlen & Ht & Hf);
      [apply findMatches_ordered|lia|done|].
    destruct (lastEnd <? length input) eqn:E.
    - apply Nat.ltb_lt in E. split.
      + eapply tiled_app; [done|]. simpl. repeat split; [lia|done| |lia].
        unfold Str.slice. by rewrite take_ge by (rewrite length_drop; lia).
      + rewrite List.filter_app. simpl. by rewrite app_nil_r.
    - apply Nat.ltb_ge in E. by assert (length input = lastEnd) as -> by lia. }
  destruct Hmain as [Ht Hf]. split; [done|]. split; [|done].
  apply tiled_concat in Ht as [_ ->]. rewrite slice_0. by apply take_ge.
Qed.



Lemma mapCommand_pure (f : str -> str) matches σ :
  Commands.mapCommand (fun t σ' => (f t, σ')) matches σ
  = (map (fun m => f (Commands.text m)) matches, σ).
Proof.
  induction matches as [|m rest IH]; [done|]. cbn [Commands.mapCommand map]. by rewrite IH.
Qed.


Lemma execAllLoop_elements fuel src fl input li results :
  Host.execAllLoop fuel src fl input li = Some results ->
  Forall (fun r => elements r !! 0 = Some (Some (matched r))) results.
Proof.
  revert li results. induction fuel as [|fuel IH]; intros li results; [done|].
  simpl. destruct (Host.builtinExec src fl input li) as [[r|] li'] eqn:He.
  - destruct (Host.execAllLoop fuel src fl input _) as [rs|] eqn:Hrs; [|done].
    intros [= <-]. constructor; [|by eapply IH].
    unfold Host.builtinExec in He. destruct (length input <? _); [done|].
    destruct (Host.scan _ _ _ _ _) as [[i ms]|]; [|done]. by injection He as <- _.
  - by intros [= <-].
Qed.

(** X13.  Each row of [extractGroups] starts with the text of its match
    (the captures follow it), the list of these texts being what
    [extract] returns; [extract] is [xAll(P, p())], and the [matches]
    method of the builder is [extract] on the value of the pipeline. *)
Theorem extractGroups_start_with_match (input : str) (pattern : Dsl.Pattern) (σ : Store) :
  map (fun gs => gs !! 0) (extractGroups input pattern)
  = map (fun t => Some (Some t)) (extract input pattern)
  /\ Commands.xAll (Dsl.toRegExp "g" pattern) Commands.p input σ = (extract input pattern, σ)
  /\ (forall this : Dsl.SRE,
        Dsl.matches this pattern σ
        = (extract (Dsl.value this σ).1 pattern, (Dsl.value this σ).2)).
Proof.
  split; [|split].
  - unfold extractGroups, extract, Commands.findMatches.
    rewrite !map_map. cbn [Commands.groups Commands.text].
    apply map_ext_in. intros r Hr.
    pose proof (execAll_loop (source (Dsl.toRegExp "g" pattern))
                  (Host.withGlobal (flags (Dsl.toRegExp "g" pattern))) input
                  (usesLastIndex_withGlobal _)) as [Hloop _].
    exact (proj1 (List.Forall_forall _ _) (execAllLoop_elements _ _ _ _ _ _ Hloop) r Hr).
  - unfold extract, Commands.xAll, Commands.p. by rewrite (mapCommand_pure (fun t => t)).
  - intros this. unfold Dsl.matches, extract. by destruct (Dsl.value this σ).
Qed.

End UtilityFacts.

(** ** The meaning of globs *)

Section GlobFacts.
Import Glob.

Lemma drop_lookup {A} (l : list A) i x : l !! i = Some x -> drop i l = x :: drop (S i) l.
Proof.
  revert i. induction l as [|y l IH]; intros [|i]; simpl; try done.
  - by intros [= ->].
  - apply IH.
Qed.

Lemma trySkip_spec (f : nat -> bool) count skip :
  (fix trySkip (count skip : nat) : bool :=
     match count with
     | 0 => false
     | S count' => if f skip then true else trySkip count' (S skip)
     end) count skip = true
  <-> exists k, skip <= k < skip + count /\ f k = true.
Proof.
  revert skip. induction count as [|count IH]; intros skip.
  - split; [done|]. intros (k & ? & _). lia.
  - destruct (f skip) eqn:E.
    + split; [|done]. intros _. exists skip. split; [lia|done].
    + rewrite IH. split.
      * intros (k & ? & ?). exists k. split; [lia|done].
      * intros (k & ? & ?). exists k. split; [|done].
        destruct (decide (k = skip)) as [->|]; [congruence|lia].
Qed.

Lemma matchSegments_spec glob path pi :
  pi <= length path ->
  matchSegments glob path pi = true <-> GlobMatches glob (drop pi path).
Proof.
  revert pi. induction glob as [|segment rest IH]; intros pi Hpi.
  - simpl. rewrite Nat.leb_le. split.
    + intros Hle. rewrite drop_ge by done. constructor.
    + intros Hm. assert (Hnil : drop pi path = []) by (by inversion Hm).
      apply (f_equal length) in Hnil. rewrite length_drop in Hnil. simpl in Hnil. lia.
  - destruct segment as [value| |].
    + cbn [matchSegments]. destruct (length path <=? pi) eqn:E.
      * apply Nat.leb_le in E. rewrite drop_ge by done. split; [done|]. intros Hm. inversion Hm.
      * apply Nat.leb_gt in E. destruct (lookup_lt_is_Some_2 path pi E) as [s Hs].
        rewrite Hs, (drop_lookup _ _ _ Hs). case_bool_decide as Hv; simpl.
        -- injection Hv as ->. rewrite Nat.add_1_r, IH by lia. split; [by constructor|].
           intros Hm. by inversion Hm.
        -- split; [done|]. intros Hm. inversion Hm; subst. done.
    + cbn [matchSegments]. destruct (length path <=? pi) eqn:E.
      * apply Nat.leb_le in E. rewrite drop_ge by done. split; [done|]. intros Hm. inversion Hm.
      * apply Nat.leb_gt in E. destruct (lookup_lt_is_Some_2 path pi E) as [s Hs].
        rewrite (drop_lookup _ _ _ Hs). rewrite Nat.add_1_r, IH by lia. split; [by constructor|].
        intros Hm. by inversion Hm.
    + cbn [matchSegments].
      rewrite (trySkip_spec (fun skip => matchSegments rest path (pi + skip))). split.
      * intros (k & Hk & Hm). apply IH in Hm; [|lia].
        rewrite <- (take_drop k (drop pi path)), drop_drop. by constructor.
      * intros Hm. inversion Hm as [| | |run glob' path' Hrest Hg Hp]; subst.
        assert (Hlen : length run + length path' = length path - pi).
        { rewrite <- length_drop, <- Hp. by rewrite length_app. }
        exists (length run). split; [lia|]. apply IH; [lia|].
        rewrite <- drop_drop, <- Hp. by rewrite drop_app_length.
Qed.

Lemma GlobMatches_literals pre glob path :
  GlobMatches (map Literal pre ++ glob) path
  <-> exists rest, path = pre ++ rest /\ GlobMatches glob rest.
Proof.
  revert path. induction pre as [|s pre IH]; intros path; simpl.
  - split; [by exists path|]. by intros (rest & -> & ?).
  - split.
    + intros Hm. inversion Hm as [|v g p Hrest| |]; subst.
      apply IH in Hrest as (rest & -> & ?). by exists rest.
    + intros (rest & -> & Hm). constructor. apply IH. by exists rest.
Qed.

(** X17.  [globMatch] decides the glob syntax: it answers [true] exactly
    when the segments of the path can be read against the segments of
    the pattern with each literal matching itself, each [*] one segment
    and each [**] a run of segments, empty or not.  In particular a
    pattern made of literal segments followed by [**] matches exactly the
    paths whose segments start with these literals. *)
Theorem globMatch_spec (pattern path : str) :
  (globMatch pattern path = true
   <-> GlobMatches (parseGlobSegments pattern) (segmentsOf path))
  /\ (forall pre, parseGlobSegments pattern = map Literal pre ++ [Double] ->
        globMatch pattern path = true <-> exists rest, segmentsOf path = pre ++ rest).
Proof.
  unfold globMatch, matches, compileGlob. cbn [segments].
  split; [rewrite matchSegments_spec by lia; by rewrite drop_0|].
  intros pre ->. rewrite matchSegments_spec by lia. rewrite drop_0, GlobMatches_literals. split.
  - intros (rest & ? & _). by exists rest.
  - intros (rest & ?). exists rest. split; [done|].
    rewrite <- (app_nil_r rest). apply GlobMatches_double. constructor.
Qed.

Lemma matchSegments_noDouble glob path pi :
  noDouble glob = true -> matchSegments glob path pi = true ->
  pi + length glob = length path \/ (glob = [] /\ length path <= pi).
Proof.
  revert pi. induction glob as [|segment rest IH]; intros pi Hnd.
  - simpl. rewrite Nat.leb_le. by right.
  - destruct segment as [value| |]; [..|done]; cbn [matchSegments noDouble forallb andb] in *;
      destruct (length path <=? pi) eqn:E; try done; apply Nat.leb_gt in E.
    + destruct (negb _); [done|]. intros Hm. apply IH in Hm; [|done].
      destruct Hm as [?|[-> ?]]; left; simpl in *; lia.
    + intros Hm. apply IH in Hm; [|done].
      destruct Hm as [?|[-> ?]]; left; simpl in *; lia.
Qed.

Lemma extract_noDouble glob path pi captures :
  noDouble glob = true -> matchSegments glob path pi = true ->
  extract glob path pi captures = (true, captures ++ singles glob (drop pi path)).
Proof.
  revert pi captures. induction glob as [|segment rest IH]; intros pi captures Hnd.
  - simpl. intros ->. by rewrite app_nil_r.
  - destruct segment as [value| |]; [..|done]; cbn [matchSegments extract noDouble forallb andb] in *;
      destruct (length path <=? pi) eqn:E; try done; apply Nat.leb_gt in E;
      destruct (lookup_lt_is_Some_2 path pi E) as [s Hs]; rewrite Hs, (drop_lookup _ _ _ Hs).
    + destruct (negb _); [done|]. intros Hm. rewrite Nat.add_1_r in *. by rewrite IH.
    + intros Hm. rewrite Nat.add_1_r in *. rewrite IH by done. cbn [singles default from_option id].
      by rewrite <- app_assoc.
Qed.

(** X18.  For a pattern without [**], [extractGlobCaptures] returns, on a
    match, the path segments aligned with the single wildcards, left to
    right, and [null] otherwise; a path that matches has as many segments
    as the pattern. *)
Theorem extractGlobCaptures_without_double (pattern path : str) :
  noDouble (parseGlobSegments pattern) = true ->
  extractGlobCaptures pattern path
  = (if globMatch pattern path
     then Some (singles (parseGlobSegments pattern) (segmentsOf path))
     else None)
  /\ (globMatch pattern path = true ->
      length (segmentsOf path) = length (parseGlobSegments pattern)).
Proof.
  intros Hnd. unfold globMatch, matches, compileGlob. cbn [segments]. split.
  - destruct (matchSegments _ _ 0) eqn:Hm.
    + unfold extractGlobCaptures. by rewrite extract_noDouble.
    + unfold extractGlobCaptures. pose proof (extract_found (parseGlobSegments pattern)
                                                (segmentsOf path) 0 []) as Hf.
      rewrite Hm in Hf. by destruct (extract _ _ 0 []) as [[] ?].
  - intros Hm. apply matchSegments_noDouble in Hm; [|done].
    destruct Hm as [?|[-> ?]]; simpl in *; lia.
Qed.

Lemma segmentsOf_segments path : Forall isSegment (segmentsOf path).
Proof.
  unfold segmentsOf. apply Forall_forall. intros s [Hlen Hin]%list_elem_of_filter. split.
  - destruct s; [simpl in Hlen; lia|done].
  - pose proof (split_sepfree "/"%char path) as Hall. rewrite Forall_forall in Hall. by apply Hall.
Qed.

Lemma filter_segments (segs : list str) :
  Forall isSegment segs -> filter (fun s => 0 < length s) segs = segs.
Proof.
  induction 1 as [|s segs [Hne _] _ IH]; [done|].
  rewrite filter_cons_True by (destruct s; simpl; [done|lia]). by rewrite IH.
Qed.

Lemma segmentsOf_join (segs : list str) :
  Forall isSegment segs ->
  segmentsOf (Str.join "/" segs) = segs /\ segmentsOf ("/" ++ Str.join "/" segs) = segs.
Proof.
  intros Hall. change (lit "/") with ["/"%char]. unfold segmentsOf. cbn [app Str.split].
  rewrite Ascii.eqb_refl, filter_cons_False by (simpl; lia).
  assert (Hs : filter (fun s => 0 < length s) (Str.split "/" (Str.join ["/"%char] segs)) = segs).
  { destruct segs as [|s segs]; [done|].
    rewrite split_join; [by apply filter_segments|done|].
    eapply Forall_impl; [done|]. by intros ? [_ ?]. }
  by rewrite Hs.
Qed.

(** X19.  The segments of [parsePath] are non-empty and hold no [/];
    joining them with [/] behind a leading [/] and parsing again gives
    the same segments, every list of such segments is the parse of its
    join, and [globMatch] does not tell a path from its normal form. *)
Theorem parsePath_normalises (path : str) :
  Forall isSegment (Template.parsePath path)
  /\ Template.parsePath ("/" ++ Str.join "/" (Template.parsePath path)) = Template.parsePath path
  /\ (forall segs, Forall isSegment segs -> Template.parsePath ("/" ++ Str.join "/" segs) = segs)
  /\ (forall pattern,
        globMatch pattern ("/" ++ Str.join "/" (Template.parsePath path)) = globMatch pattern path).
Proof.
  change Template.parsePath with segmentsOf.
  pose proof (segmentsOf_segments path) as Hseg.
  split; [done|]. split; [by apply segmentsOf_join|]. split; [by intros; apply segmentsOf_join|].
  intros pattern. unfold globMatch, matches. f_equal. by apply segmentsOf_join.
Qed.

Lemma parseGlobSegments_segments pattern : Forall isGlobSegment (parseGlobSegments pattern).
Proof.
  unfold parseGlobSegments. apply Forall_map.
  eapply Forall_impl; [apply segmentsOf_segments|]. intros part Hpart. unfold Str.eqb.
  case_bool_decide as H2; [done|]. case_bool_decide as H1; [done|]. done.
Qed.

Lemma renderSegment_segment segment : isGlobSegment segment -> isSegment (renderSegment segment).
Proof.
  destruct segment as [value| |]; simpl.
  - by intros [? _].
  - intros _. split; [done|]. by repeat constructor.
  - intros _. split; [done|]. by repeat constructor.
Qed.

(** X20.  The segments [parseGlobSegments] returns are [*], [**] or
    literals that are non-empty, hold no [/] and are neither [*] nor
    [**]; every list of such segments is the parse of its segments
    written out and joined with [/]. *)
Theorem parseGlobSegments_round_trip (glob : list GlobSegment) (pattern : str) :
  Forall isGlobSegment (parseGlobSegments pattern)
  /\ (Forall isGlobSegment glob ->
      parseGlobSegments ("/" ++ Str.join "/" (map renderSegment glob)) = glob).
Proof.
  split; [apply parseGlobSegments_segments|]. intros Hglob. unfold parseGlobSegments.
  assert (Hsegs : Forall isSegment (map renderSegment glob)).
  { apply Forall_map. eapply Forall_impl; [done|]. apply renderSegment_segment. }
  destruct (segmentsOf_join _ Hsegs) as [_ ->]. rewrite map_map. clear Hsegs.
  induction Hglob as [|segment rest Hs _ IH]; [done|]. cbn [map]. rewrite IH. f_equal.
  destruct segment as [value| |]; [|done|done]. cbn [renderSegment isGlobSegment] in *.
  destruct Hs as (_ & H1 & H2). unfold Str.eqb. by rewrite !bool_decide_eq_false_2.
Qed.

End GlobFacts.

(** ** Identifiers, templates without placeholders, data paths *)

Section TemplateFacts.
Context `{ValueHost}.
Import Template.

Lemma hexDigit_hex k : (0 <= k < 16)%Z -> isHexLower (hexDigit k) = true.
Proof.
  intros Hk. rewrite <- (Z2Nat.id k) by lia.
  assert (Hn : Z.to_nat k < 16) by lia. revert Hn. generalize (Z.to_nat k) as n.
  intros n. do 16 (destruct n as [|n]; [done|]). lia.
Qed.

Lemma toString16_hex digits value acc :
  forallb isHexLower acc = true -> forallb isHexLower (toString16 digits value acc) = true.
Proof.
  revert value acc. induction digits as [|digits IH]; intros value acc Hacc; [done|].
  cbn [toString16].
  assert (Hd : forallb isHexLower (hexDigit (value mod 16) :: acc) = true).
  { cbn [forallb]. rewrite Hacc, hexDigit_hex; [done|]. apply Z.mod_pos_bound. lia. }
  destruct (value / 16 =? 0)%Z; [done|by apply IH].
Qed.

Lemma toString16_length digits value acc :
  length (toString16 digits value acc) <= digits + length acc.
Proof.
  revert value acc. induction digits as [|digits IH]; intros value acc; [done|].
  cbn [toString16]. destruct (value / 16 =? 0)%Z; [simpl; lia|].
  etransitivity; [apply IH|]. simpl. lia.
Qed.

(** X22.  [generateId] returns eight lowercase hexadecimal digits and
    reads the clock and the random source once. *)
Theorem generateId_format (w : World) :
  length (generateId w).1 = 8
  /\ forallb isHexLower (generateId w).1 = true
  /\ (generateId w).2 = advance 1 w.
Proof.
  unfold generateId. cbn [fst snd]. split; [|split; [|done]].
  - unfold padStart. rewrite length_app, length_replicate.
    match goal with |- context [toString16 8 ?v []] =>
      pose proof (toString16_length 8 v []) as Hl; set (t := toString16 8 v []) in * end.
    simpl in Hl. lia.
  - unfold padStart. rewrite forallb_app, toString16_hex by done. rewrite andb_true_r.
    apply forallb_forall. intros ch Hin%list_elem_of_In. by apply elem_of_replicate in Hin as [-> _].
Qed.

Lemma noOpen_cons ch rest : noOpen (ch :: rest) = true -> noOpen rest = true.
Proof. cbn [noOpen]. by intros [_ ?]%andb_true_iff. Qed.

Lemma noOpen_head nb rest : noOpen rest = true -> Str.startsWith ("$"%char :: "{"%char :: nb) rest = false.
Proof.
  destruct rest as [|ch rest]; [done|]. cbn [noOpen Str.startsWith].
  destruct (Ascii.eqb_spec "$" ch) as [<-|]; [|done].
  rewrite Ascii.eqb_refl. destruct rest as [|next rest]; [done|]. cbn [Str.startsWith andb negb].
  rewrite (Ascii.eqb_sym "{" next). by destruct (Ascii.eqb next "{").
Qed.

Lemma replaceLiteralFrom_noOpen nb r whole text position :
  noOpen text = true ->
  replaceLiteralFrom ("$"%char :: "{"%char :: nb) r whole text position 0 = text.
Proof.
  revert position. induction text as [|ch rest IH]; intros position Hno; [done|].
  cbn [replaceLiteralFrom]. rewrite noOpen_head by done.
  rewrite IH; [done|by eapply noOpen_cons].
Qed.

Lemma replaceDataFrom_noOpen replacer text :
  noOpen text = true -> replaceDataFrom replacer text 0 = text.
Proof.
  induction text as [|ch rest IH]; intros Hno; [done|].
  cbn [replaceDataFrom]. unfold matchDataAt.
  change (lit "${data.") with ("$"%char :: "{"%char :: lit "data.").
  rewrite noOpen_head by done. rewrite IH; [done|by eapply noOpen_cons].
Qed.

Lemma capturesLoop_noOpen caps i text : noOpen text = true -> capturesLoop caps i text = text.
Proof.
  intros Hno. revert i. induction caps as [|capture caps IH]; intros i; [done|].
  cbn [capturesLoop]. unfold replaceLiteral.
  change ("${" ++ Str.ofNat i ++ "}") with ("$"%char :: "{"%char :: Str.ofNat i ++ "}").
  rewrite replaceLiteralFrom_noOpen by done. apply IH.
Qed.

Lemma pathLoop_noOpen segments i text : noOpen text = true -> pathLoop segments i text = text.
Proof.
  intros Hno. revert i. induction segments as [|segment segments IH]; intros i; [done|].
  cbn [pathLoop]. unfold replaceLiteral.
  change ("${path." ++ Str.ofNat i ++ "}")
    with ("$"%char :: "{"%char :: lit "path." ++ Str.ofNat i ++ "}").
  rewrite replaceLiteralFrom_noOpen by done. apply IH.
Qed.

Lemma substituteString_world template ctx w :
  (substituteString template ctx w).2 = advance 1 w.
Proof. done. Qed.

Lemma substituteString_noOpen template ctx w :
  noOpen template = true -> substituteString template ctx w = (template, advance 1 w).
Proof.
  intros Hno. unfold substituteString, capturesPass, pathPass, uuidPass, inputPass, dataPass.
  assert (Hc : match captures ctx with Some captures => capturesLoop captures 0 template
                                  | None => template end = template).
  { destruct (captures ctx); [by apply capturesLoop_noOpen|done]. }
  rewrite Hc.
  assert (Hp : match path ctx with Some path => pathLoop path 0 template
                               | None => template end = template).
  { destruct (path ctx); [by apply pathLoop_noOpen|done]. }
  rewrite Hp. cbn [generateId]. unfold replaceLiteral.
  change (lit "${uuid}") with ("$"%char :: "{"%char :: lit "uuid}").
  rewrite replaceLiteralFrom_noOpen by done.
  change (lit "${input}") with ("$"%char :: "{"%char :: lit "input}").
  assert (Hi : match input ctx with
               | Some input => replaceLiteralFrom ("$"%char :: "{"%char :: lit "input}") input
                                 template template 0 0
               | None => template end = template).
  { destruct (input ctx); [by apply replaceLiteralFrom_noOpen|done]. }
  rewrite Hi.
  assert (Hd : match data ctx with
               | Some data => replaceDataFrom (dataReplacer data) template 0
               | None => template end = template).
  { destruct (data ctx); [by apply replaceDataFrom_noOpen|done]. }
  by rewrite Hd.
Qed.

(** X23.  A template in which no [$] is followed by an opening brace is
    returned unchanged by [substituteString] and by the command of
    [template], whatever the context and the input; one identifier is
    generated all the same. *)
Theorem template_without_placeholder (tmpl : str) (ctx : TemplateContext) (input : str) (w : World) :
  noOpen tmpl = true ->
  substituteString tmpl ctx w = (tmpl, advance 1 w)
  /\ template tmpl ctx input w = (tmpl, advance 1 w).
Proof. intros Hno. split; by apply substituteString_noOpen. Qed.

Lemma advance_advance j k w : advance j (advance k w) = advance (j + k) w.
Proof. unfold advance. simpl. f_equal. lia. Qed.

Lemma advance_0 w : advance 0 w = w.
Proof. by destruct w. Qed.

Lemma substituteValue_world (template : Value) (ctx : TemplateContext) (w : World) :
  (substituteValue template ctx w).2 = advance (strings template) w.
Proof.
  revert w. induction template as [| | | | s |items IH|fields IH] using Value_nested_ind; intros w;
    try (by rewrite advance_0).
  - done.
  - cbn [substituteValue strings].
    match goal with |- (let '(_, _) := ?each items w in _).2 = _ =>
      enough (Hitems : (each items w).2 = advance (sum_list (map strings items)) w)
        by (by destruct (each items w)) end.
    revert w. induction IH as [|item rest Hitem _ IHrest]; intros w; [by rewrite advance_0|].
    specialize (Hitem w). destruct (substituteValue item ctx w) as [item1 w1].
    specialize (IHrest w1). simpl in *.
    match goal with |- (let '(_, _) := ?e in _).2 = _ => destruct e end.
    simpl in *. subst. rewrite advance_advance. f_equal. lia.
  - cbn [substituteValue strings].
    match goal with |- (let '(_, _) := ?each fields [] w in _).2 = _ =>
      enough (Hfields : forall result, (each fields result w).2
                = advance (sum_list (map (fun entry => 1 + strings entry.2) fields)) w)
        by (specialize (Hfields []); by destruct (each fields [] w)) end.
    revert w. induction IH as [|[key value] rest Hvalue _ IHrest]; intros w result;
      [by rewrite advance_0|].
    pose proof (substituteString_world key ctx w) as Hkey.
    destruct (substituteString key ctx w) as [newKey w1]. cbn [snd] in Hkey. subst w1.
    specialize (Hvalue (advance 1 w)). cbn [snd] in Hvalue.
    destruct (substituteValue value ctx (advance 1 w)) as [value1 w2]. cbn [snd] in Hvalue.
    subst w2. rewrite IHrest. cbn [map sum_list snd]. rewrite !advance_advance. f_equal.
    unfold id. lia.
Qed.

Lemma enumerated_prefix next keys more :
  enumerated next (keys ++ more) = true -> enumerated next keys = true.
Proof.
  revert next. induction keys as [|key keys IH]; intros next; [done|]. cbn [app enumerated].
  destruct (arrayIndex key).
  - intros [? ?]%andb_true_iff. apply andb_true_iff. split; [done|]. by eapply IH.
  - rewrite forallb_app. by intros [? _]%andb_true_iff.
Qed.

Lemma enumerated_last next keys key i :
  enumerated next (keys ++ [key]) = true -> arrayIndex key = Some i ->
  (next <= i)%N /\ Forall (fun k => exists j, arrayIndex k = Some j /\ (j < i)%N) keys.
Proof.
  intros Hen Hi. revert next Hen. induction keys as [|k keys IH]; intros next; cbn [app enumerated].
  - rewrite Hi. intros [?%N.leb_le _]%andb_true_iff. by split.
  - destruct (arrayIndex k) as [j|] eqn:Hj.
    + intros [?%N.leb_le Hrest]%andb_true_iff. destruct (IH _ Hrest) as [Hle Hall].
      split; [lia|]. constructor; [|done]. exists j. split; [done|lia].
    + rewrite forallb_app. cbn [forallb]. rewrite Hi.
      intros [_ Hkey]%andb_true_iff. done.
Qed.

Lemma insertIndex_append fields i key value :
  Forall (fun k => exists j, arrayIndex k = Some j /\ (j < i)%N) (map fst fields) ->
  insertIndex fields i key value = fields ++ [(key, value)].
Proof.
  induction fields as [|[k old] rest IH]; [done|]. cbn [map fst insertIndex app].
  intros [(j & -> & Hlt) Hrest]%Forall_cons.
  destruct (j <? i)%N eqn:E; [|apply N.ltb_ge in E; lia]. by rewrite IH.
Qed.

(** A new property whose name comes next in the enumeration is put
    last. *)
Lemma setProperty_fresh fields key value more :
  entriesOfObject (fields ++ (key, value) :: more) = true ->
  setProperty fields key value = fields ++ [(key, value)].
Proof.
  unfold entriesOfObject. rewrite map_app. cbn [map fst].
  intros [[Hnd%bool_decide_eq_true_1 Hproto%negb_true_iff%bool_decide_eq_false_1]%andb_true_iff
          Hen]%andb_true_iff.
  unfold setProperty, Str.eqb.
  rewrite bool_decide_eq_false_2.
  2:{ intros ->. apply Hproto. apply elem_of_app. right. apply list_elem_of_here. }
  rewrite bool_decide_eq_false_2.
  2:{ apply NoDup_app in Hnd as (_ & Hdisj & _). intros Hin. apply (Hdisj _ Hin).
      apply list_elem_of_here. }
  destruct (arrayIndex key) as [i|] eqn:Hi; [|done].
  apply insertIndex_append.
  change (map fst fields ++ key :: map fst more)
    with (map fst fields ++ [key] ++ map fst more) in Hen.
  rewrite app_assoc in Hen. apply enumerated_prefix in Hen.
  by destruct (enumerated_last _ _ _ _ Hen Hi) as [_ ?].
Qed.

Lemma substituteValue_placeholderFree template ctx :
  placeholderFree template = true -> plainObjects template = true ->
  forall w, (substituteValue template ctx w).1 = template.
Proof.
  induction template as [| | | | s |items IH|fields IH] using Value_nested_ind; try done.
  - cbn [placeholderFree substituteValue]. intros Hs _ w. by rewrite substituteString_noOpen.
  - cbn [placeholderFree plainObjects substituteValue]. intros Hitems Hplain w.
    match goal with |- (let '(_, _) := ?each items w in _).1 = _ =>
      enough (Heach : (each items w).1 = items) by (destruct (each items w); simpl in *; by subst)
    end.
    revert w. induction IH as [|item rest Hitem _ IHrest]; intros w; [done|].
    cbn [forallb] in Hitems, Hplain.
    apply andb_true_iff in Hitems as [Hi Hr]. apply andb_true_iff in Hplain as [Hpi Hpr].
    specialize (Hitem Hi Hpi w). destruct (substituteValue item ctx w) as [item1 w1].
    specialize (IHrest Hr Hpr w1).
    match goal with |- (let '(_, _) := ?e in _).1 = _ => destruct e end.
    simpl in *. by subst.
  - cbn [placeholderFree plainObjects substituteValue].
    intros Hfields [Hplain Hentries]%andb_true_iff w.
    match goal with |- (let '(_, _) := ?each fields [] w in _).1 = _ =>
      enough (Heach : forall result w', entriesOfObject (result ++ fields) = true ->
                        (each fields result w').1 = result ++ fields)
        by (specialize (Heach [] w Hentries); destruct (each fields [] w); simpl in *; by subst)
    end.
    clear Hentries w.
    induction IH as [|[key value] rest Hvalue _ IHrest]; intros result w Hentries;
      [by rewrite app_nil_r|].
    cbn [forallb fst snd] in Hfields, Hplain.
    apply andb_true_iff in Hfields as [[Hk Hv]%andb_true_iff Hrest].
    apply andb_true_iff in Hplain as [Hpv Hprest].
    rewrite (substituteString_noOpen key) by done.
    specialize (Hvalue Hv Hpv (advance 1 w)). cbn [snd] in Hvalue.
    destruct (substituteValue value ctx (advance 1 w)) as [value1 w2]. cbn [fst] in Hvalue.
    subst value1. rewrite (setProperty_fresh _ _ _ rest) by done.
    rewrite IHrest; [by rewrite <- app_assoc|done|done|]. by rewrite <- app_assoc.
Qed.

(** X24.  [substituteValue] generates one identifier for each string of
    the template, property names included, and none for the other
    values: the clock and the random source are read as many times as the
    template holds strings.  A template whose strings and property names
    hold no [$] followed by an opening brace is returned as it is, when
    each of its objects is given by its own properties as they are
    enumerated (distinct names, array indices first and ascending) and
    has no own property named [__proto__]; an own property of that name
    is not copied. *)
Theorem substituteValue_draws_one_id_per_string (template : Value) (ctx : TemplateContext)
    (w : World) :
  (substituteValue template ctx w).2 = advance (strings template) w
  /\ calls (substituteValue template ctx w).2 = calls w + strings template
  /\ (placeholderFree template = true -> plainObjects template = true ->
      (substituteValue template ctx w).1 = template)
  /\ (substituteValue (VObject [(lit "__proto__", template)]) ctx w).1 = VObject [].
Proof.
  pose proof (substituteValue_world template ctx w) as Hw.
  split; [done|]. split; [rewrite Hw; simpl; lia|].
  split; [intros Hfree Hplain; by apply substituteValue_placeholderFree|].
  cbn [substituteValue]. rewrite (substituteString_noOpen "__proto__") by done.
  by destruct (substituteValue template ctx (advance 1 w)).
Qed.










End TemplateFacts.

(** ** The registry and the dry run *)

Section EngineFacts.
Context `{RegExpHost} `{ValueHost}.
Import Pattern.

Lemma dataString_defined data : data <> VUndefined -> is_Some (dataString data).
Proof. by destruct data. Qed.

(** For a scroll whose data is not [undefined], whether a rule fires
    depends on the watch glob, the guard and the veto only. *)
Lemma applyPattern_fires pattern scroll w :
  data scroll <> VUndefined ->
  fires scroll w pattern
  = negb (negb (Glob.matches (watchMatcher pattern) (key scroll)))
    && negb (match cg pattern with
             | Some re =>
                 negb (bool_decide (is_Some (execOnce re (testText (dataString (data scroll))))))
             | None => false
             end)
    && negb (match cv pattern with
             | Some re => bool_decide (is_Some (execOnce re (testText (dataString (data scroll)))))
             | None => false
             end).
Proof.
  intros [text Htext]%dataString_defined. unfold fires, applyPattern. rewrite Htext.
  destruct (negb (Glob.matches _ _)); [done|].
  destruct (match cg pattern with Some _ => _ | None => _ end); [done|].
  destruct (match cv pattern with Some _ => _ | None => _ end); [done|].
  assert (Hc : exists captures, extractCaptures (cx pattern) (Some text) = Returned captures).
  { unfold extractCaptures. destruct (cx pattern); by eexists. }
  destruct Hc as [captures ->].
  destruct (Template.substituteString _ _ _) as [outputPath w1].
  by destruct (Template.substituteValue _ _ _).
Qed.

Lemma fires_world pattern scroll w w' :
  data scroll <> VUndefined -> fires scroll w pattern = fires scroll w' pattern.
Proof. intros Hd. by rewrite !applyPattern_fires. Qed.

Lemma fires_reaction pattern scroll w :
  fires scroll w pattern = true <->
  exists reaction w1, applyPattern pattern scroll w = Returned (Some reaction, w1).
Proof.
  unfold fires. split.
  - destruct (applyPattern pattern scroll w) as [[[reaction|] w1]|]; [by eexists _, _|done..].
  - by intros (reaction & w1 & ->).
Qed.

Lemma wouldMatchLoop_fires patterns scroll w matched :
  data scroll <> VUndefined ->
  wouldMatchLoop patterns scroll (dataString (data scroll)) matched
  = matched ++ map fst (List.filter (fun entry => fires scroll w entry.2) patterns).
Proof.
  intros Hd. revert matched. induction patterns as [|[name pattern] rest IH]; intros matched.
  - by rewrite app_nil_r.
  - cbn [wouldMatchLoop List.filter snd]. rewrite applyPattern_fires by done.
    destruct (negb (Glob.matches _ _)); [apply IH|].
    destruct (match cg pattern with Some _ => _ | None => _ end); [apply IH|].
    destruct (match cv pattern with Some _ => _ | None => _ end); [apply IH|].
    rewrite IH. cbn [negb andb map fst]. by rewrite <- app_assoc.
Qed.

Lemma get_elem patterns name pattern :
  NoDup (list_ patterns) -> (name, pattern) ∈ patterns -> get patterns name = Some pattern.
Proof.
  unfold get, list_. induction patterns as [|[k old] rest IH]; intros Hnd Hin.
  - by apply not_elem_of_nil in Hin.
  - cbn [map fst] in Hnd. apply NoDup_cons in Hnd as [Hk Hnd]. cbn [Str.assoc].
    apply elem_of_cons in Hin as [[= -> ->]|Hin].
    + by rewrite bool_decide_eq_true_2.
    + case_bool_decide as Heq; [|by apply IH]. subst k. exfalso. apply Hk.
      apply list_elem_of_In, in_map_iff. exists (name, pattern). split; [done|].
      by apply list_elem_of_In.
Qed.

Lemma get_Some_elem patterns name pattern :
  get patterns name = Some pattern -> (name, pattern) ∈ patterns.
Proof.
  unfold get. induction patterns as [|[k old] rest IH]; [done|]. cbn [Str.assoc].
  case_bool_decide as Heq.
  - intros [= ->]. subst. apply list_elem_of_here.
  - intros Hg. apply list_elem_of_further. by apply IH.
Qed.

(** X26.  For a scroll whose data is not [undefined], [wouldMatch]
    lists, in registration order, the names of the rules for which
    [applyPattern] returns a reaction; in a registry without duplicate
    names a name is listed exactly when [applyOne] returns a reaction for
    it. *)
Theorem wouldMatch_agrees_with_applyOne (patterns : Registry) (scroll : Scroll) (w : World) :
  data scroll <> VUndefined ->
  wouldMatch patterns scroll
  = map fst (List.filter (fun entry => fires scroll w entry.2) patterns)
  /\ (NoDup (list_ patterns) ->
      forall name, name ∈ wouldMatch patterns scroll
                   <-> exists reaction w1,
                         applyOne patterns name scroll w = Returned (Some reaction, w1)).
Proof.
  intros Hd.
  assert (Hw : wouldMatch patterns scroll
               = map fst (List.filter (fun entry => fires scroll w entry.2) patterns)).
  { unfold wouldMatch. by rewrite (wouldMatchLoop_fires _ _ w). }
  split; [done|]. intros Hnd name. rewrite Hw. unfold applyOne. split.
  - intros Hin%list_elem_of_In%in_map_iff. destruct Hin as ([name' pattern] & <- & Hin).
    apply filter_In in Hin as [Hin Hf]. apply list_elem_of_In in Hin. cbn [fst snd] in *.
    rewrite (get_elem _ _ _ Hnd Hin). by apply fires_reaction.
  - destruct (get patterns name) as [pattern|] eqn:Hg; [|by intros (? & ? & ?)].
    intros Hs. apply list_elem_of_In, in_map_iff. exists (name, pattern). split; [done|].
    apply filter_In. split; [by apply list_elem_of_In, get_Some_elem|].
    by apply fires_reaction.
Qed.

Lemma get_mapSet patterns name compiled name' :
  get (mapSet patterns name compiled) name'
  = if bool_decide (name' = name) then Some compiled else get patterns name'.
Proof.
  unfold get. induction patterns as [|[k old] rest IH]; cbn [mapSet Str.assoc].
  - repeat case_bool_decide; congruence.
  - destruct (decide (k = name)) as [->|Hk].
    + rewrite (bool_decide_eq_true_2 (name = name)) by done. cbn [Str.assoc].
      repeat case_bool_decide; congruence.
    + rewrite (bool_decide_eq_false_2 (k = name)) by done. cbn [Str.assoc]. rewrite IH.
      repeat case_bool_decide; congruence.
Qed.

Lemma list_mapSet patterns name compiled :
  list_ (mapSet patterns name compiled)
  = if bool_decide (name ∈ list_ patterns) then list_ patterns else list_ patterns ++ [name].
Proof.
  unfold list_. induction patterns as [|[k old] rest IH]; cbn [mapSet map fst].
  - rewrite bool_decide_eq_false_2; [done|]. apply not_elem_of_nil.
  - destruct (decide (k = name)) as [->|Hk].
    + rewrite (bool_decide_eq_true_2 (name = name)) by done. cbn [map fst].
      rewrite bool_decide_eq_true_2; [done|]. apply list_elem_of_here.
    + rewrite (bool_decide_eq_false_2 (k = name)) by done. cbn [map fst]. rewrite IH.
      destruct (decide (name ∈ map fst rest)) as [Hin|Hin].
      * rewrite !bool_decide_eq_true_2; [done| |done]. by apply list_elem_of_further.
      * rewrite !bool_decide_eq_false_2; [done| |done].
        intros [?|?]%elem_of_cons; [congruence|done].
Qed.

Lemma get_remove patterns name name' :
  get (remove patterns name) name'
  = if bool_decide (name' = name) then None else get patterns name'.
Proof.
  unfold get, remove, Registry. induction patterns as [|[k old] rest IH].
  - by case_bool_decide.
  - destruct (decide (k = name)) as [->|Hk].
    + rewrite filter_cons_False by (simpl; intros Hn; by apply Hn). rewrite IH. cbn [Str.assoc].
      repeat case_bool_decide; congruence.
    + rewrite filter_cons_True by done. cbn [Str.assoc]. rewrite IH.
      repeat case_bool_decide; congruence.
Qed.

(** X27.  After a successful [add], [get] returns the compiled rule under
    its name and what it returned before under every other name; [list]
    is unchanged if the name was registered (the rule is replaced in
    place) and has the name appended otherwise; names stay distinct; and
    after [remove] of that name [get] returns nothing for it and what it
    returned before the [add] for the others. *)
Theorem registry_add_get_remove (patterns patterns' : Registry) (def : PatternDef) :
  add patterns def = Some patterns' ->
  get patterns' (name def) = compilePattern def
  /\ (forall other, other <> name def -> get patterns' other = get patterns other)
  /\ list_ patterns'
     = (if bool_decide (name def ∈ list_ patterns) then list_ patterns
        else list_ patterns ++ [name def])
  /\ (NoDup (list_ patterns) -> NoDup (list_ patterns'))
  /\ get (remove patterns' (name def)) (name def) = None
  /\ (forall other, other <> name def ->
        get (remove patterns' (name def)) other = get patterns other).
Proof.
  unfold add. destruct (compilePattern def) as [compiled|] eqn:Hc; [|done].
  cbn [mbind option_bind]. intros [= <-].
  assert (Hname : cname compiled = name def).
  { unfold compilePattern in Hc.
    destruct (compileRegExp (x def)); [|done]. destruct (compileRegExp (g def)); [|done].
    destruct (compileRegExp (v def)); [|done]. cbn in Hc. by injection Hc as <-. }
  rewrite Hname. split; [|split; [|split; [|split; [|split]]]].
  - rewrite get_mapSet. by rewrite bool_decide_eq_true_2.
  - intros other Ho. rewrite get_mapSet. by rewrite bool_decide_eq_false_2.
  - apply list_mapSet.
  - intros Hnd. rewrite list_mapSet. case_bool_decide as Hin; [done|].
    apply NoDup_app. split; [done|]. split; [|apply NoDup_singleton].
    intros k Hk ->%list_elem_of_singleton. done.
  - rewrite get_remove. by rewrite bool_decide_eq_true_2.
  - intros other Ho. rewrite get_remove, get_mapSet. by rewrite !bool_decide_eq_false_2.
Qed.

(** One round of [apply] over rules that hand their reactions to no
    other rule: the queue is left as it was. *)
Lemma applyEach_without_cascade all patterns current reactions queue w :
  data current <> VUndefined ->
  Forall (fun entry => cascades all entry.2 = false) patterns ->
  exists new w1,
    applyEach all patterns current reactions queue w = Returned (reactions ++ new, queue, w1)
    /\ Forall2 (fun reaction entry =>
                  exists w2 w3, applyPattern entry.2 current w2 = Returned (Some reaction, w3))
         new (List.filter (fun entry => fires current w entry.2) patterns)
    /\ length new <= length patterns.
Proof.
  intros Hd Hall. revert reactions w.
  induction Hall as [|[name pattern] rest Hc _ IH]; intros reactions w.
  - exists [], w. rewrite app_nil_r. split; [done|]. split; [constructor|done].
  - cbn [applyEach List.filter snd].
    assert (Hrest : forall w1, List.filter (fun entry => fires current w1 entry.2) rest
                               = List.filter (fun entry => fires current w entry.2) rest).
    { intros w1. apply List.filter_ext. intros entry. by apply fires_world. }
    destruct (applyPattern pattern current w) as [[[reaction|] w1]|] eqn:Ha.
    + assert (Hq : match cthen pattern with
                   | Some ((_ :: _) as next) =>
                       match get all next with Some _ => queue ++ [reaction] | None => queue end
                   | _ => queue
                   end = queue).
      { unfold cascades in Hc. cbn [snd] in Hc.
        destruct (cthen pattern) as [[|ch next]|]; [done| |done].
        destruct (get all (ch :: next)); [|done]. by apply bool_decide_eq_false_1 in Hc as []. }
      rewrite Hq. destruct (IH (reactions ++ [reaction]) w1) as (new & w2 & -> & Hnew & Hlen).
      exists (reaction :: new), w2. rewrite <- app_assoc. split; [done|].
      unfold fires at 1. rewrite Ha. split; [|simpl; lia].
      constructor; [by exists w, w1|]. by rewrite <- (Hrest w1).
    + destruct (IH reactions w1) as (new & w2 & -> & Hnew & Hlen). exists new, w2.
      split; [done|]. unfold fires at 1. rewrite Ha. split; [by rewrite <- (Hrest w1)|simpl; lia].
    + exfalso. destruct (dataString_defined _ Hd) as [text Htext].
      unfold applyPattern in Ha. rewrite Htext in Ha.
      destruct (negb (Glob.matches _ _)); [done|].
      destruct (match cg pattern with Some _ => _ | None => _ end); [done|].
      destruct (match cv pattern with Some _ => _ | None => _ end); [done|].
      assert (Hcap : exists captures, extractCaptures (cx pattern) (Some text) = Returned captures).
      { unfold extractCaptures. destruct (cx pattern); by eexists. }
      destruct Hcap as [captures Hcap]. rewrite Hcap in Ha.
      destruct (Template.substituteString _ _ _) as [outputPath w1].
      by destruct (Template.substituteValue _ _ _).
Qed.

(** X28.  When no registered rule names a registered rule in [then] and
    the data of the scroll is not [undefined], [apply] ends after one
    round and returns one reaction for each rule that fires on the
    scroll, in registration order: the reaction that [applyPattern]
    returns for that rule. *)
Theorem apply_without_cascade (fuel : nat) (patterns : Registry) (scroll : Scroll) (w : World) :
  data scroll <> VUndefined ->
  Forall (fun entry => cascades patterns entry.2 = false) patterns ->
  exists reactions w1,
    apply (S (S fuel)) patterns scroll w = Some (Returned (reactions, w1))
    /\ Forall2 (fun reaction entry =>
                  exists w2 w3, applyPattern entry.2 scroll w2 = Returned (Some reaction, w3))
         reactions (List.filter (fun entry => fires scroll w entry.2) patterns)
    /\ length reactions <= size patterns.
Proof.
  intros Hd Hall.
  destruct (applyEach_without_cascade patterns patterns scroll [] [] w Hd Hall)
    as (new & w1 & Heach & Hnew & Hlen).
  exists new, w1. unfold apply. cbn [applyLoop].
  rewrite bool_decide_eq_false_2 by apply not_elem_of_empty.
  rewrite Heach. done.
Qed.

Lemma applyPattern_reaction pattern scroll w reaction w1 :
  applyPattern pattern scroll w = Returned (Some reaction, w1) ->
  type reaction = cemit pattern
  /\ metadata reaction = Some {| version := Some 1%Z; produced_by := Some (cname pattern) |}.
Proof.
  unfold applyPattern.
  destruct (negb (Glob.matches _ _)); [done|].
  destruct (match cg pattern with Some _ => _ | None => _ end); [done|].
  destruct (match cv pattern with Some _ => _ | None => _ end); [done|].
  destruct (extractCaptures _ _); [|done].
  destruct (Template.substituteString _ _ _) as [outputPath w2].
  destruct (Template.substituteValue _ _ _) as [outputData w3].
  by intros [= <- _].
Qed.

Lemma applyEach_producedBy all patterns current reactions queue w reactions1 queue1 w1 :
  (forall entry, entry ∈ patterns -> entry ∈ all) ->
  Forall (producedBy all) reactions ->
  applyEach all patterns current reactions queue w = Returned (reactions1, queue1, w1) ->
  Forall (producedBy all) reactions1
  /\ length reactions1 <= length reactions + length patterns.
Proof.
  revert reactions queue w. induction patterns as [|[name pattern] rest IH];
    intros reactions queue w Hsub Hall.
  - intros [= <- _ _]. split; [done|lia].
  - cbn [applyEach]. destruct (applyPattern pattern current w) as [[[reaction|] w2]|] eqn:Ha;
      [| |done].
    + intros Heach. apply IH in Heach as [Hp Hlen].
      * split; [done|]. rewrite length_app in Hlen. simpl in *. lia.
      * intros entry Hin. apply Hsub. by apply list_elem_of_further.
      * apply Forall_app. split; [done|]. constructor; [|done].
        exists name, pattern. split; [apply Hsub, list_elem_of_here|].
        by eapply applyPattern_reaction.
    + intros Heach. apply IH in Heach as [Hp Hlen]; [|by intros entry Hin;
        apply Hsub, list_elem_of_further|done].
      split; [done|]. simpl. lia.
Qed.

Lemma applyLoop_producedBy fuel patterns queue visited reactions w reactions1 w1 :
  Forall (producedBy patterns) reactions ->
  applyLoop fuel patterns queue visited reactions w = Some (Returned (reactions1, w1)) ->
  Forall (producedBy patterns) reactions1
  /\ length reactions1 <= length reactions + fuel * length patterns.
Proof.
  revert queue visited reactions w. induction fuel as [|fuel IH];
    intros queue visited reactions w Hall; [done|].
  cbn [applyLoop]. destruct queue as [|current queue1].
  - intros [= <- _]. split; [done|lia].
  - case_bool_decide as Hin.
    + intros Hloop. apply IH in Hloop as [Hp Hlen]; [|done]. split; [done|lia].
    + destruct (applyEach patterns patterns current reactions queue1 w)
        as [[[reactions2 queue2] w2]|] eqn:Heach; [|done].
      apply applyEach_producedBy in Heach as [Hp2 Hlen2]; [|done|done].
      intros Hloop. apply IH in Hloop as [Hp Hlen]; [|done]. split; [done|lia].
Qed.

(** X29.  When [apply] returns, every reaction it returns was produced by
    a registered rule: it carries the emit type of that rule, its name in
    [produced_by] and the version 1; each scroll taken from the queue
    adds at most one reaction per registered rule. *)
Theorem apply_reactions_produced_by_rules (fuel : nat) (patterns : Registry) (scroll : Scroll)
    (w w1 : World) (reactions : list Scroll) :
  apply fuel patterns scroll w = Some (Returned (reactions, w1)) ->
  Forall (producedBy patterns) reactions
  /\ length reactions <= fuel * size patterns.
Proof.
  unfold apply. intros Hloop. by apply applyLoop_producedBy in Hloop.
Qed.

Lemma uuidTemplate_substituted pieces ctx w :
  forallb plainb pieces = true ->
  Template.substituteString (Str.join "${uuid}" pieces) ctx w
  = (Str.join (Template.generateId w).1 pieces, advance 1 w).
Proof.
  intros Hp. unfold Template.substituteString.
  assert (Hc : Template.capturesPass ctx (Str.join "${uuid}" pieces) = Str.join "${uuid}" pieces).
  { unfold Template.capturesPass.
    destruct (Template.captures ctx); [by apply uuidTemplate_captures|done]. }
  assert (Hpath : Template.pathPass ctx (Str.join "${uuid}" pieces) = Str.join "${uuid}" pieces).
  { unfold Template.pathPass. destruct (Template.path ctx); [by apply uuidTemplate_path|done]. }
  rewrite Hc, Hpath.
  pose proof (generateId_plain w) as Hid.
  assert (Hw : (Template.generateId w).2 = advance 1 w) by done.
  destruct (Template.generateId w) as [id w1]. cbn [fst snd] in *. subst w1.
  assert (Hu : Template.uuidPass id (Str.join "${uuid}" pieces) = Str.join id pieces).
  { unfold Template.uuidPass, Template.replaceLiteral. by apply uuidTemplate_hit. }
  assert (Hj : plain (Str.join id pieces)) by by apply join_plain.
  rewrite Hu, inputPass_plain, dataPass_plain by done. done.
Qed.

(** X30.  The rule of [loggerPattern] compiles; it fires on the scrolls
    whose key matches the watch glob and on no other; its reaction has the
    key [/logs/] followed by the first identifier generated, the type
    [log/write@v1], and a [timestamp] that is the fifth identifier
    generated; the default glob [/**] matches every key. *)
Theorem loggerPattern_logs_under_fresh_key (watchGlob : str) (scroll : Scroll) (w : World) :
  exists compiled,
    compilePattern (loggerPattern watchGlob) = Some compiled
    /\ (Glob.globMatch watchGlob (key scroll) = false ->
        applyPattern compiled scroll w = Returned (None, w))
    /\ (Glob.globMatch watchGlob (key scroll) = true ->
        exists path,
          applyPattern compiled scroll w
          = Returned
              (Some {| key := "/logs/" ++ (Template.generateId w).1;
                       type := "log/write@v1";
                       metadata := Some {| version := Some 1%Z;
                                           produced_by := Some (lit "logger") |};
                       data := VObject [(lit "path", VString path);
                                        (lit "timestamp",
                                         VString (Template.generateId (advance 4 w)).1)] |},
               advance 5 w))
    /\ Glob.globMatch "/**" (key scroll) = true.
Proof.
  eexists. split; [reflexivity|]. unfold applyPattern.
  cbn [watchMatcher cg cv cx cemit cemit_path ctemplate cname extractCaptures
       loggerPattern name watch emit emit_path template].
  change (Glob.matches (Glob.compileGlob watchGlob) (key scroll))
    with (Glob.globMatch watchGlob (key scroll)).
  split; [by intros ->|]. split.
  - intros ->. cbn [negb].
    set (ctx := {| Template.captures := _ |}).
    change (lit "/logs/${uuid}") with (Str.join "${uuid}" [lit "/logs/"; []]).
    rewrite uuidTemplate_substituted by done.
    cbn [Template.substituteValue].
    rewrite (substituteString_noOpen "path") by done.
    pose proof (substituteString_world "${input}" ctx (advance 1 (advance 1 w))) as Hw.
    destruct (Template.substituteString "${input}" ctx (advance 1 (advance 1 w))) as [path w3].
    cbn [snd] in Hw. subst w3.
    rewrite (substituteString_noOpen "timestamp") by done.
    change (lit "${uuid}") with (Str.join "${uuid}" [[]; []]).
    rewrite uuidTemplate_substituted by done.
    exists path. rewrite !advance_advance. cbn [Nat.add Str.join app].
    rewrite !app_nil_r. reflexivity.
  - apply matchSegments_spec; [cbn; lia|]. rewrite drop_0.
    rewrite <- (app_nil_r (Glob.segmentsOf (key scroll))).
    apply GlobMatches_double. constructor.
Qed.

End EngineFacts.

(** ** Instances *)

Section CommandInstances.
Import Commands.
Existing Instance Examples.literalHost.

(** The range [0, 5) of ['hello world']. *)
Lemma n_ordered_range_witness :
  Str.clampIndex (length (lit "hello world")) 0 <= resolveEnd (length (lit "hello world")) (Some 5%Z)
  /\ (n 0 (Some 5%Z) (c "HELLO") "hello world" ∅).1 = lit "HELLO world"
  /\ n 0 (Some 5%Z) p "hello world" ∅ = (lit "hello world", ∅).
Proof.
  assert (Hrange : Str.clampIndex (length (lit "hello world")) 0
                   <= resolveEnd (length (lit "hello world")) (Some 5%Z))
    by (vm_compute; lia).
  split; [exact Hrange|].
  exact (proj2 (n_ordered_range 0 (Some 5%Z) (c "HELLO") "hello world" ∅ Hrange)).
Defined.

(** The start 3 and the end 1 on ['hello']: the output is ['helello']. *)
Lemma n_reversed_range_witness :
  resolveEnd (length (lit "hello")) (Some 1%Z) < Str.clampIndex (length (lit "hello")) 3
  /\ n 3 (Some 1%Z) p "hello" ∅ = (lit "helello", ∅)
  /\ length (n 3 (Some 1%Z) p "hello" ∅).1 = 7.
Proof.
  assert (Hrange : resolveEnd (length (lit "hello")) (Some 1%Z)
                   < Str.clampIndex (length (lit "hello")) 3)
    by (vm_compute; lia).
  split; [exact Hrange|].
  exact (n_reversed_range 3 (Some 1%Z) p "hello" ∅ Hrange).
Defined.

(** The replacement ['X'] for the pattern [/a/] on ['banana']. *)
Lemma s_plain_is_x_c_witness :
  s plainA "X" "banana" ∅ = x plainA (c "X") "banana" ∅.
Proof. exact (s_plain_is_x_c plainA "X" "banana" ∅ eq_refl). Defined.

(** The pattern [/a/] on ['banana'], with [lastIndex] already at 4. *)
Lemma guards_without_flags_witness :
  Host.test plainA "banana" (<[cell plainA := 4]> ∅) = (true, <[cell plainA := 4]> ∅)
  /\ g plainA (c "X") "banana" (<[cell plainA := 4]> ∅) = (lit "X", <[cell plainA := 4]> ∅).
Proof.
  pose proof (guards_without_flags plainA (c "X") p p "banana" (<[cell plainA := 4]> ∅) eq_refl)
    as (Htest & Hg & _).
  split; [exact Htest|exact Hg].
Defined.


End CommandInstances.

Section WideInstances.
Existing Instance Examples.starHost.

(** [/a*/] on the text of the one character U+1F600. *)
Lemma findMatches_without_unicode_witness :
  Utf16.fullUnicode (flags Examples.starPlain) = false
  /\ exists matches,
       (forall fuel, length Examples.grinningFace + 2 <= fuel ->
          Utf16.findMatches fuel Examples.starPlain Examples.grinningFace = Some matches)
       /\ increasing 0 (map Utf16.start matches)
       /\ length matches <= length Examples.grinningFace + 1
       /\ Forall (fun m => Utf16.text m
                           = Str.slice Examples.grinningFace (Utf16.start m) (Utf16.end_ m)
                           /\ Utf16.end_ m = Utf16.start m + length (Utf16.text m)
                           /\ Utf16.end_ m <= length Examples.grinningFace)
            matches
       /\ (forall fuel, length Examples.grinningFace + 2 <= fuel ->
             Utf16.x fuel Examples.starPlain Utf16.p Examples.grinningFace ∅
             = Some (Examples.grinningFace, ∅)
             /\ Utf16.y fuel Examples.starPlain Utf16.p Examples.grinningFace ∅
                = Some (Examples.grinningFace, ∅)).
Proof.
  split; [reflexivity|].
  apply (findMatches_without_unicode Examples.starPlain Examples.grinningFace ∅). reflexivity.
Defined.

End WideInstances.

Section LexerInstances.
Import Dsl.
Existing Instance Examples.namedGroupHost.

(** The three definitions A, B, C, none skip-marked, on ['abc']. *)
Lemma lexer_values_rebuild_input_witness :
  concat (map value_ (createLexer Examples.namedDefs "abc")) = lit "abc".
Proof.
  apply (lexer_values_rebuild_input Examples.namedDefs "abc").
  repeat constructor.
Defined.

End LexerInstances.

Section GlobInstances.
Import Glob.

(** The subtree watch [/users/**] and a path below [/users]. *)
Lemma globMatch_spec_witness :
  globMatch "/users/**" "/users/1/profile" = true
  /\ GlobMatches [Literal (lit "users"); Double] [lit "users"; lit "1"; lit "profile"].
Proof.
  pose proof (globMatch_spec "/users/**" "/users/1/profile") as [Hspec Hsubtree].
  assert (Hmatch : globMatch "/users/**" "/users/1/profile" = true).
  { apply (Hsubtree [lit "users"] eq_refl). by exists [lit "1"; lit "profile"]. }
  split; [exact Hmatch|]. exact (proj1 Hspec Hmatch).
Defined.

(** A literal, a single and a double wildcard, written [/users/*/**]. *)
Lemma parseGlobSegments_round_trip_witness :
  parseGlobSegments ("/" ++ Str.join "/" (map renderSegment [Literal (lit "users"); Single; Double]))
  = [Literal (lit "users"); Single; Double].
Proof.
  apply (parseGlobSegments_round_trip [Literal (lit "users"); Single; Double] []).
  repeat constructor; done.
Defined.

(** Two single wildcards between literals. *)
Lemma extractGlobCaptures_without_double_witness :
  extractGlobCaptures "/u/*/p/*" "/u/1/p/2" = Some [lit "1"; lit "2"].
Proof.
  exact (proj1 (extractGlobCaptures_without_double "/u/*/p/*" "/u/1/p/2" eq_refl)).
Defined.

End GlobInstances.

Section TemplateInstances.
Import Template.
Existing Instance Examples.valueHost.

(** A dollar sign that opens no placeholder. *)
Lemma template_without_placeholder_witness :
  substituteString "cost: $5" Examples.aliceContext Examples.world0
  = (lit "cost: $5", advance 1 Examples.world0).
Proof.
  exact (proj1 (template_without_placeholder "cost: $5" Examples.aliceContext [] Examples.world0
                  eq_refl)).
Defined.

(** An object with a nested array, no placeholder in it. *)
Lemma substituteValue_draws_one_id_per_string_witness :
  substituteValue plainTemplate Examples.aliceContext Examples.world0
  = (plainTemplate, advance 4 Examples.world0).
Proof.
  pose proof (substituteValue_draws_one_id_per_string plainTemplate Examples.aliceContext
                Examples.world0) as (Hworld & _ & Hvalue & _).
  specialize (Hvalue eq_refl eq_refl).
  destruct (substituteValue plainTemplate Examples.aliceContext Examples.world0) as [out w1].
  cbn [fst snd] in *. by subst.
Defined.


End TemplateInstances.

Section EngineInstances.
Import Pattern.
Existing Instance Examples.literalHost.
Existing Instance Examples.valueHost.

(** The first rule added to an empty registry. *)
Lemma registry_add_get_remove_witness :
  get Examples.registry "A" = Some Examples.selfCascadeCompiled
  /\ list_ Examples.registry = [lit "A"]
  /\ get (remove Examples.registry "A") "A" = None.
Proof.
  pose proof (registry_add_get_remove [] Examples.registry Examples.selfCascade eq_refl)
    as (Hget & _ & Hlist & _ & Hremove & _).
  split; [exact Hget|]. split; [exact Hlist|exact Hremove].
Defined.

(** The registry that holds the self-cascading rule: the dry run lists
    it for the scroll of key [/a]. *)
Lemma wouldMatch_agrees_with_applyOne_witness :
  wouldMatch Examples.registry Examples.startScroll = [lit "A"]
  /\ exists reaction w1,
       applyOne Examples.registry "A" Examples.startScroll Examples.world0
       = Returned (Some reaction, w1).
Proof.
  assert (Hdata : data Examples.startScroll <> VUndefined) by done.
  pose proof (wouldMatch_agrees_with_applyOne Examples.registry Examples.startScroll
                Examples.world0 Hdata) as [Hlist Hiff].
  split; [exact Hlist|]. apply Hiff.
  - repeat constructor. by intros Hin%not_elem_of_nil.
  - rewrite Hlist. apply list_elem_of_here.
Defined.

(** The logging rule alone, applied to the scroll of key [/a]. *)
Lemma apply_without_cascade_witness :
  exists reactions w1,
    apply 2 loggerRegistry Examples.startScroll Examples.world0 = Some (Returned (reactions, w1))
    /\ Forall2 (fun reaction entry =>
                  exists w2 w3,
                    applyPattern entry.2 Examples.startScroll w2 = Returned (Some reaction, w3))
         reactions
         (List.filter (fun entry => fires Examples.startScroll Examples.world0 entry.2)
            loggerRegistry)
    /\ length reactions <= size loggerRegistry.
Proof.
  apply (apply_without_cascade 0 loggerRegistry Examples.startScroll Examples.world0).
  - done.
  - repeat constructor.
Defined.

(** The logging rule alone, applied to the scroll of key [/a]. *)
Lemma apply_reactions_produced_by_rules_witness :
  exists reactions w1,
    apply 2 loggerRegistry Examples.startScroll Examples.world0 = Some (Returned (reactions, w1))
    /\ Forall (producedBy loggerRegistry) reactions
    /\ length reactions <= 2 * size loggerRegistry.
Proof.
  destruct (applyEach_without_cascade loggerRegistry loggerRegistry Examples.startScroll [] []
              Examples.world0) as (new & w1 & Heach & _); [done|repeat constructor|].
  assert (Happly : apply 2 loggerRegistry Examples.startScroll Examples.world0
                   = Some (Returned (new, w1))).
  { unfold apply. cbn [applyLoop]. rewrite bool_decide_eq_false_2 by apply not_elem_of_empty.
    by rewrite Heach. }
  exists new, w1. split; [exact Happly|].
  exact (apply_reactions_produced_by_rules 2 loggerRegistry Examples.startScroll Examples.world0
           w1 new Happly).
Defined.

End EngineInstances.
